(** * A shallow embedding of [generate_project.py]

    The script synthesises a large C++ source tree plus a
    [compile_commands.json] manifest.  Everything it does is integer
    arithmetic on file indices, string formatting, and a sequence of
    filesystem calls wrapped in a catch-all cleanup handler.

    Modelling conventions
    - Python [int] is [Z]; [//] and [%] are [Z.div] and [Z.modulo] (both floor
      towards minus infinity, as Python does) guarded by an explicit
      [ZeroDivisionError].
    - Python [str] is [string], read as a sequence of code points below 256.
    - A [pathlib.Path] is the list of its components ([Path.parts]); an
      absolute path starts with the component ["/"].  Paths are assumed free
      of [".."] and of symbolic links.
    - The filesystem is a finite map from absolute paths to nodes; every call
      that can fail with an I/O error consults a schedule of injected faults
      carried by the world, so that disk errors in the middle of a run can be
      expressed.
    - Exceptions are the [Raise] branch of a result type threaded through a
      state monad over the world. *)

From Stdlib Require Import ZArith Ascii String DecimalString DecimalZ.
From stdpp Require Import gmap strings list fin_maps sorting.

Local Open Scope Z_scope.

(** ** Exceptions and results *)

Inductive exn : Type :=
  | ZeroDivisionError
  | FileExistsError
  | FileNotFoundError
  | NotADirectoryError
  | IsADirectoryError
  | OSError
  | ValueError.

Global Instance exn_eq_dec : EqDecision exn.
Proof. solve_decision. Defined.

(** [isinstance(e, OSError)] *)
Definition is_OSError (e : exn) : bool :=
  match e with ZeroDivisionError | ValueError => false | _ => true end.

Inductive result (A : Type) : Type :=
  | Ok (a : A)
  | Raise (e : exn).
Arguments Ok {A} a.
Arguments Raise {A} e.

Global Instance result_ret : MRet result := λ A a, Ok a.
Global Instance result_bind : MBind result := λ A B f m,
  match m with Ok a => f a | Raise e => Raise e end.

(** ** Python integers *)

Definition py_floordiv (x y : Z) : result Z :=
  if decide (y = 0) then Raise ZeroDivisionError else Ok (x / y).

Definition py_mod (x y : Z) : result Z :=
  if decide (y = 0) then Raise ZeroDivisionError else Ok (x mod y).

(** [str(i)] for an [int]: decimal digits, a leading minus sign for negatives. *)
Definition str (z : Z) : string := NilEmpty.string_of_int (Z.to_int z).

(** [range(n)]: empty when [n <= 0]. *)
Definition range (n : Z) : list Z := Z.of_nat <$> seq 0 (Z.to_nat n).

(** ** Python strings *)

Definition chars (s : string) : list ascii := list_ascii_of_string s.
Definition of_chars (l : list ascii) : string := string_of_list_ascii l.

(** [c.isspace()] for a code point below 256: the ASCII white space and
    separators, NEL and the no-break space. *)
Definition py_isspace (c : ascii) : bool :=
  let n := nat_of_ascii c in
  ((9 <=? n) && (n <=? 13) || (28 <=? n) && (n <=? 32)
   || (n =? 133) || (n =? 160))%nat.

Fixpoint lstrip_chars (l : list ascii) : list ascii :=
  match l with
  | c :: r => if py_isspace c then lstrip_chars r else l
  | [] => []
  end.

(** [s.strip()] *)
Definition strip (s : string) : string :=
  of_chars (reverse (lstrip_chars (reverse (lstrip_chars (chars s))))).

(** [s.endswith(suffix)] *)
Definition endswith (s suffix : string) : bool :=
  bool_decide (chars suffix `suffix_of` chars s).

(** [s.removesuffix(suffix)] *)
Definition removesuffix (s suffix : string) : string :=
  if negb (String.eqb suffix EmptyString) && endswith s suffix
  then of_chars (take (String.length s - String.length suffix) (chars s))
  else s.

(** [sep.join(l)] *)
Definition join (sep : string) (l : list string) : string := String.concat sep l.

Definition newline : string := String (ascii_of_nat 10) EmptyString.
Definition tab : ascii := ascii_of_nat 9.
Definition dquote : ascii := ascii_of_nat 34.
Definition backslash : ascii := ascii_of_nat 92.

(** ** [pathlib] paths *)

Abbreviation Path := (list string).

Definition is_absolute (p : Path) : bool :=
  match p with
  | c :: _ => String.eqb c "/"
  | [] => false
  end.

Fixpoint split_on (sep : ascii) (s cur : list ascii) : list (list ascii) :=
  match s with
  | [] => [reverse cur]
  | c :: r =>
      if Ascii.eqb c sep then reverse cur :: split_on sep r []
      else split_on sep r (c :: cur)
  end.

(** [pathlib.Path(s)]: components separated by slashes, empty and ["."]
    components dropped, a leading slash kept as the anchor (two leading
    slashes are read as one). *)
Definition path_of_string (s : string) : Path :=
  let comps :=
    filter (λ c, c ≠ EmptyString ∧ c ≠ ".") (of_chars <$> split_on "/" (chars s) []) in
  match chars s with
  | c :: _ => if Ascii.eqb c "/" then "/" :: comps else comps
  | [] => comps
  end.

(** [p / s] *)
Definition path_div (p : Path) (s : string) : Path :=
  let q := path_of_string s in
  if is_absolute q then q else p ++ q.

(** [p.as_posix()] *)
Definition as_posix (p : Path) : string :=
  match p with
  | [] => "."
  | c :: r => if String.eqb c "/" then "/" +:+ join "/" r else join "/" p
  end.

(** [p.relative_to(base)] *)
Definition relative_to (p base : Path) : result Path :=
  if decide (base `prefix_of` p) then Ok (drop (length base) p)
  else Raise ValueError.

Definition parent (p : Path) : Path := take (length p - 1)%nat p.

(** Lexicographic comparison of component lists, the order behind
    [sorted] on paths. *)
Fixpoint path_compare (p q : Path) : comparison :=
  match p, q with
  | [], [] => Eq
  | [], _ :: _ => Lt
  | _ :: _, [] => Gt
  | a :: p', b :: q' =>
      match String.compare a b with
      | Eq => path_compare p' q'
      | c => c
      end
  end.

Definition path_le (p q : Path) : Prop := path_compare p q ≠ Gt.

Global Instance path_le_dec p q : Decision (path_le p q).
Proof. unfold path_le. apply _. Defined.

(** [sorted(xs)] on paths. *)
Definition sorted (xs : list Path) : list Path := merge_sort path_le xs.

(** ** The world: filesystem, scheduled faults, stdout *)

Inductive node : Type :=
  | Dir
  | File (data : string).

Global Instance node_eq_dec : EqDecision node.
Proof. solve_decision. Defined.

Record World : Type := mkWorld {
  fs : gmap Path node;
  faults : list bool;
  stdout : list string
}.

Definition set_fs (f : gmap Path node → gmap Path node) (w : World) : World :=
  mkWorld (f (fs w)) (faults w) (stdout w).

Definition set_faults (l : list bool) (w : World) : World :=
  mkWorld (fs w) l (stdout w).

Definition IO (A : Type) : Type := World → result A * World.

Global Instance IO_ret : MRet IO := λ A a w, (Ok a, w).
Global Instance IO_bind : MBind IO := λ A B f m w,
  match m w with
  | (Ok a, w') => f a w'
  | (Raise e, w') => (Raise e, w')
  end.

(** A state transformer read as an action. *)
Definition io {A} (f : World → result A * World) : IO A := f.

Definition pass : IO unit := mret tt.

Definition raise {A} (e : exn) : IO A := λ w, (Raise e, w).

Definition lift {A} (r : result A) : IO A := λ w, (r, w).

(** [try: c  except: h] where the handler receives the exception. *)
Definition try_except {A} (c : IO A) (h : exn → IO A) : IO A := λ w,
  match c w with
  | (Ok a, w') => (Ok a, w')
  | (Raise e, w') => h e w'
  end.

Definition print (s : string) : IO unit := λ w,
  (Ok tt, mkWorld (fs w) (faults w) (stdout w ++ [s])).

(** A [for] loop threading the variables it updates. *)
Fixpoint for_each {A S} (xs : list A) (body : S → A → IO S) (acc : S) : IO S :=
  match xs with
  | [] => mret acc
  | x :: r => acc' ← body acc x; for_each r body acc'
  end.

Fixpoint mapM {A B} (f : A → result B) (l : list A) : result (list B) :=
  match l with
  | [] => mret []
  | x :: r => y ← f x; ys ← mapM f r; mret (y :: ys)
  end.

(** ** [subprocess.list2cmdline] *)

(** The inner loop over the characters of one argument; [bs_buf] counts the
    backslashes seen and not yet emitted.  The tail of the function (flushing
    the buffer, closing the quote) is the [[]] case. *)
Fixpoint quote_arg (cs : list ascii) (bs_buf : nat) (needquote : bool) : list ascii :=
  match cs with
  | [] =>
      replicate bs_buf backslash ++
      (if needquote then replicate bs_buf backslash ++ [dquote] else [])
  | c :: r =>
      if Ascii.eqb c backslash then quote_arg r (S bs_buf) needquote
      else if Ascii.eqb c dquote then
        replicate (bs_buf * 2) backslash ++ [backslash; dquote] ++ quote_arg r 0 needquote
      else replicate bs_buf backslash ++ c :: quote_arg r 0 needquote
  end.

Definition list2cmdline_step (res : list ascii) (arg : string) : list ascii :=
  let res := if decide (res = []) then res else res ++ [" "%char] in
  let needquote :=
    bool_decide (" "%char ∈ chars arg) || bool_decide (tab ∈ chars arg)
    || String.eqb arg EmptyString in
  let res := if needquote then res ++ [dquote] else res in
  res ++ quote_arg (chars arg) 0 needquote.

Definition list2cmdline (seq : list string) : string :=
  of_chars (foldl list2cmdline_step [] seq).

(** ** [json.dump(obj, file, indent=4)] *)

Local Unset Elimination Schemes.
Inductive json : Type :=
  | JString (s : string)
  | JArray (items : list json)
  | JObject (members : list (string * json)).
Local Set Elimination Schemes.

Definition hex_digit (n : nat) : ascii :=
  nth n (chars "0123456789abcdef") "0"%char.

(** One character under [ensure_ascii]: printable ASCII is kept, the quote and
    backslash and the usual control characters get two-character escapes,
    everything else a [\u00XX] escape. *)
Definition json_escape (c : ascii) : list ascii :=
  let n := nat_of_ascii c in
  if Ascii.eqb c dquote then [backslash; dquote]
  else if Ascii.eqb c backslash then [backslash; backslash]
  else if (n =? 10)%nat then [backslash; "n"%char]
  else if (n =? 13)%nat then [backslash; "r"%char]
  else if (n =? 9)%nat then [backslash; "t"%char]
  else if (n =? 8)%nat then [backslash; "b"%char]
  else if (n =? 12)%nat then [backslash; "f"%char]
  else if ((32 <=? n) && (n <=? 126))%nat then [c]
  else [backslash; "u"%char; "0"%char; "0"%char;
        hex_digit (n / 16); hex_digit (n mod 16)]%nat.

Definition json_string (s : string) : string :=
  of_chars ([dquote] ++ (chars s ≫= json_escape) ++ [dquote]).

Definition newline_indent (level : nat) : string :=
  newline +:+ of_chars (replicate (4 * level) " "%char).

Fixpoint json_encode (level : nat) (j : json) : string :=
  match j with
  | JString s => json_string s
  | JArray [] => "[]"
  | JArray items =>
      "[" +:+ newline_indent (S level)
      +:+ join ("," +:+ newline_indent (S level)) (map (json_encode (S level)) items)
      +:+ newline_indent level +:+ "]"
  | JObject [] => "{}"
  | JObject members =>
      "{" +:+ newline_indent (S level)
      +:+ join ("," +:+ newline_indent (S level))
            (map (λ kv, json_string kv.1 +:+ ": " +:+ json_encode (S level) kv.2) members)
      +:+ newline_indent level +:+ "}"
  end.

Definition json_dumps_indent4 (j : json) : string := json_encode 0 j.

(** ** The script: command line and module-level names *)

Record Args : Type := mkArgs {
  compiler : string;
  sources : Z;
  headers : Z;
  subdirs : Z;
  output : option string;
  name : option string
}.

Record Globals : Type := mkGlobals {
  COMPILER_PATH : string;
  NUMBER_OF_SOURCES : Z;
  NUMBER_OF_HEADERS : Z;
  SUBDIR_COUNT : Z;
  PROJECT_NAME : string;
  SOURCES_PER_DIR : Z;
  HEADERS_PER_DIR : Z;
  ROOT_DIR : Path;
  PROJECT_DIR : Path;
  SOURCES_DIR : Path;
  INCLUDES_DIR : Path
}.

(** [x or y] on strings: the empty string is falsy. *)
Definition str_or (x : option string) (y : string) : string :=
  match x with
  | Some s => if String.eqb s EmptyString then y else s
  | None => y
  end.

(** The working directory of the process is fixed for its whole life: the
    script never changes it. *)
Section Process.

Variable cwd : Path.

(** [p.absolute()], which is also how the operating system reads a relative
    path. *)
Definition absolute (p : Path) : Path :=
  if is_absolute p then p else cwd ++ p.

(** Every system call that can fail with an I/O error passes through here:
    a scheduled [true] makes it raise [OSError] without any effect. *)
Definition io_point : IO unit := λ w,
  match faults w with
  | true :: r => (Raise OSError, set_faults r w)
  | false :: r => (Ok tt, set_faults r w)
  | [] => (Ok tt, w)
  end.

Definition Path_cwd : IO Path := mret cwd.

Definition os_path_exists (p : Path) : IO bool := λ w,
  (Ok (bool_decide (is_Some (fs w !! absolute p))), w).

Definition os_path_isdir (p : Path) : IO bool := λ w,
  (Ok (bool_decide (fs w !! absolute p = Some Dir)), w).

Definition os_path_isfile (p : Path) : IO bool := λ w,
  (Ok (match fs w !! absolute p with Some (File _) => true | _ => false end), w).

Definition os_mkdir (p : Path) : IO unit :=
  io_point ;; io (λ w,
  let q := absolute p in
  match fs w !! q with
  | Some _ => (Raise FileExistsError, w)
  | None =>
      match fs w !! parent q with
      | Some Dir => (Ok tt, set_fs <[q := Dir]> w)
      | Some (File _) => (Raise NotADirectoryError, w)
      | None => (Raise FileNotFoundError, w)
      end
  end).

(** The closing [try: mkdir(name)  except OSError: ...] of [os.makedirs]. *)
Definition mkdir_or_exists (name : Path) (exist_ok : bool) : IO unit :=
  try_except (os_mkdir name)
    (λ e, if is_OSError e then
            isd ← os_path_isdir name;
            if negb exist_ok || negb isd then raise e else pass
          else raise e).

(** [os.makedirs(name, exist_ok=...)], following the library's recursion on
    [os.path.split]; the name is passed with its components reversed so that
    the recursion on the head is structural. *)
Fixpoint makedirs_rev (rname : list string) (exist_ok : bool) : IO unit :=
  match rname with
  | _ :: (_ :: _) as rhead =>
      b ← os_path_exists (reverse rhead);
      if (b : bool) then pass
      else try_except (makedirs_rev rhead exist_ok)
             (λ e, if decide (e = FileExistsError) then pass else raise e)
  | _ => pass
  end ;;
  mkdir_or_exists (reverse rname) exist_ok.

Definition os_makedirs (name : Path) (exist_ok : bool) : IO unit :=
  makedirs_rev (reverse name) exist_ok.

(** [shutil.rmtree(p, ignore_errors=...)] *)
Definition rmtree_strict (p : Path) : IO unit :=
  io_point ;; io (λ w,
  let q := absolute p in
  match fs w !! q with
  | Some Dir => (Ok tt, set_fs (filter (λ kv, ¬ q `prefix_of` kv.1)) w)
  | Some (File _) => (Raise NotADirectoryError, w)
  | None => (Raise FileNotFoundError, w)
  end).

Definition shutil_rmtree (p : Path) (ignore_errors : bool) : IO unit :=
  if ignore_errors then try_except (rmtree_strict p) (λ _, pass)
  else rmtree_strict p.

(** [open(p, "w")]: creates or truncates the file. *)
Definition open_w (p : Path) : IO unit :=
  io_point ;; io (λ w,
  let q := absolute p in
  match fs w !! q with
  | Some Dir => (Raise IsADirectoryError, w)
  | _ =>
      match fs w !! parent q with
      | Some Dir => (Ok tt, set_fs <[q := File EmptyString]> w)
      | Some (File _) => (Raise NotADirectoryError, w)
      | None => (Raise FileNotFoundError, w)
      end
  end).

(** [f.write(s)] on the handle opened at [p], flushed when the [with] block
    closes it. *)
Definition file_write (p : Path) (s : string) : IO unit :=
  io_point ;; io (λ w, (Ok tt, set_fs <[absolute p := File s]> w)).

(** Lines 20 to 32: the statements executed when the module is loaded. *)
Definition module_level (args : Args) : IO Globals :=
  let COMPILER_PATH := compiler args in
  let NUMBER_OF_SOURCES := sources args in
  let NUMBER_OF_HEADERS := headers args in
  let SUBDIR_COUNT := subdirs args in
  let PROJECT_NAME :=
    str_or (name args)
      ("BigProject_" +:+ str NUMBER_OF_SOURCES +:+ "_" +:+ str NUMBER_OF_HEADERS) in
  SOURCES_PER_DIR ← lift (py_floordiv (NUMBER_OF_SOURCES + SUBDIR_COUNT - 1) SUBDIR_COUNT);
  HEADERS_PER_DIR ← lift (py_floordiv (NUMBER_OF_HEADERS + SUBDIR_COUNT - 1) SUBDIR_COUNT);
  ROOT_DIR ← match output args with
             | Some o => mret (path_of_string o)
             | None => Path_cwd
             end;
  let PROJECT_DIR := path_div ROOT_DIR PROJECT_NAME in
  let SOURCES_DIR := path_div PROJECT_DIR "sources" in
  let INCLUDES_DIR := path_div PROJECT_DIR "includes" in
  mret (mkGlobals COMPILER_PATH NUMBER_OF_SOURCES NUMBER_OF_HEADERS SUBDIR_COUNT
          PROJECT_NAME SOURCES_PER_DIR HEADERS_PER_DIR
          ROOT_DIR PROJECT_DIR SOURCES_DIR INCLUDES_DIR).

Section Generator.

Variable G : Globals.

Definition get_source_subdir (i : Z) : result string :=
  q ← py_floordiv i (SOURCES_PER_DIR G);
  mret ("subdir_" +:+ str q).

Definition get_include_subdir (i : Z) : result string :=
  q ← py_floordiv i (HEADERS_PER_DIR G);
  mret ("subdir_" +:+ str q).

Definition get_source_template (i : Z) : result string :=
  header_i ← py_mod i (NUMBER_OF_HEADERS G);
  mret (strip (newline
    +:+ "#include <file_" +:+ str header_i +:+ ".h>" +:+ newline
    +:+ newline
    +:+ "static void test_" +:+ str i +:+ "(int a, int b) {" +:+ newline
    +:+ "  foo_" +:+ str header_i +:+ "(b, a);" +:+ newline
    +:+ "}" +:+ newline
    +:+ newline
    +:+ "    ")).

Definition get_header_template (i : Z) : string :=
  strip (newline
    +:+ "#pragma once" +:+ newline
    +:+ newline
    +:+ "// Some function" +:+ newline
    +:+ "void foo_" +:+ str i +:+ "(int a, int b);" +:+ newline
    +:+ newline
    +:+ "    ").

Definition generate_sources : IO (list Path) :=
  os_makedirs (SOURCES_DIR G) false ;;
  for_each (range (NUMBER_OF_SOURCES G)) (λ all_sources i,
    sd ← lift (get_source_subdir i);
    let subdir := path_div (SOURCES_DIR G) sd in
    os_makedirs subdir true ;;
    let source_path := path_div subdir ("file_" +:+ str i +:+ ".cpp") in
    open_w source_path ;;
    text ← lift (get_source_template i);
    file_write source_path text ;;
    mret (all_sources ++ [source_path])) [].

Definition generate_headers : IO (list Path) :=
  os_makedirs (INCLUDES_DIR G) false ;;
  all_include_dirs ←
    for_each (range (NUMBER_OF_HEADERS G)) (λ (all_include_dirs : gset Path) i,
      sd ← lift (get_include_subdir i);
      let subdir := path_div (INCLUDES_DIR G) sd in
      os_makedirs subdir true ;;
      let all_include_dirs := all_include_dirs ∪ {[subdir]} in
      let header_path := path_div subdir ("file_" +:+ str i +:+ ".h") in
      open_w header_path ;;
      file_write header_path (get_header_template i) ;;
      mret all_include_dirs) ∅;
  mret (sorted (elements all_include_dirs)).

(** [source.relative_to(PROJECT_DIR).as_posix()] *)
Definition rel_posix (p : Path) : result string :=
  r ← relative_to p (PROJECT_DIR G);
  mret (as_posix r).

(** The argument vector built for one source, lines 101 to 111. *)
Definition compile_argv (include_flags : list string) (source : Path) : result (list string) :=
  let command := [COMPILER_PATH G] in
  if endswith (COMPILER_PATH G) "clang-cl.exe" then
    let command := command ++ ["--driver-mode=cl"] in
    let command := command ++ ["/c"] in
    fo ← rel_posix source;
    let command := command ++ ["/Foobj/" +:+ removesuffix fo ".cpp" +:+ ".obj"] in
    fd ← rel_posix source;
    let command := command ++ ["/Fdobj/" +:+ removesuffix fd ".cpp" +:+ ".pdb"] in
    mret (command ++ include_flags)
  else
    c ← rel_posix source;
    let command := command ++ ["-c"; c] in
    mret (command ++ include_flags).

(** One record of the compile database, lines 113 to 117. *)
Definition compile_entry (include_flags : list string) (source : Path) : IO json :=
  command ← lift (compile_argv include_flags source);
  file ← lift (rel_posix source);
  mret (JObject [("directory", JString (as_posix (absolute (PROJECT_DIR G))));
                 ("command", JString (list2cmdline command));
                 ("file", JString file)]).

Definition generate_compile_commands (sources headers : list Path) : IO unit :=
  include_flags ←
    lift (mapM (λ include_dir, r ← rel_posix include_dir; mret ("-I" +:+ r))
            (sorted headers));
  let file := path_div (PROJECT_DIR G) "compile_commands.json" in
  open_w file ;;
  compile_commands ←
    for_each sources (λ compile_commands source,
      entry ← compile_entry include_flags source;
      mret (compile_commands ++ [entry])) [];
  file_write file (json_dumps_indent4 (JArray compile_commands)).

(** The body of the [try] statement of [generate_project]. *)
Definition generate_project_try : IO unit :=
  b ← os_path_exists (PROJECT_DIR G);
  (if (b : bool) then
     print "Removing existing project" ;;
     shutil_rmtree (PROJECT_DIR G) false
   else pass) ;;
  os_makedirs (PROJECT_DIR G) true ;;
  all_sources ← generate_sources;
  all_include_dirs ← generate_headers;
  generate_compile_commands all_sources all_include_dirs.

(** The [except:] clause: report, best-effort removal, re-raise. *)
Definition generate_project_except (e : exn) : IO unit :=
  print "Project generation failed, cleaning up..." ;;
  shutil_rmtree (PROJECT_DIR G) true ;;
  raise e.

Definition generate_project : IO unit :=
  print ("Generating project at " +:+ as_posix (PROJECT_DIR G)) ;;
  try_except generate_project_try generate_project_except.

Definition main : IO Z :=
  b ← os_path_isfile (path_of_string (COMPILER_PATH G));
  if negb b then
    print ("No compiler at " +:+ COMPILER_PATH G) ;;
    mret 1
  else
    generate_project ;;
    mret 0.

End Generator.

(** The process: load the module, then call [main]. *)
Definition program (args : Args) : IO Z :=
  G ← module_level args; main G.

(** [sys.exit(main())]: the status is what [main] returned; an exception
    that reaches the top level ends the interpreter with status 1. *)
Definition script (args : Args) : World → Z * World := λ w,
  match program args w with
  | (Ok status, w') => (status, w')
  | (Raise _, w') => (1, w')
  end.

(** * Specification-level definitions *)

Definition is_digit (c : ascii) : bool :=
  let n := nat_of_ascii c in ((48 <=? n) && (n <=? 57))%nat.

(** The characters [str] can produce. *)
Definition is_str_char (c : ascii) : bool := Ascii.eqb c "-" || is_digit c.

(** The text of source [i] once the template is stripped; [h] is the header
    count. *)
Definition source_text (h i : Z) : string :=
  "#include <file_" +:+ str (i mod h) +:+ ".h>" +:+ newline
  +:+ newline
  +:+ "static void test_" +:+ str i +:+ "(int a, int b) {" +:+ newline
  +:+ "  foo_" +:+ str (i mod h) +:+ "(b, a);" +:+ newline
  +:+ "}".

(** The text of header [j]. *)
Definition header_text (j : Z) : string :=
  "#pragma once" +:+ newline
  +:+ newline
  +:+ "// Some function" +:+ newline
  +:+ "void foo_" +:+ str j +:+ "(int a, int b);".

Definition no_char (c : ascii) (s : string) : bool :=
  forallb (λ x, negb (Ascii.eqb x c)) (chars s).

(** What a call did to the filesystem when it raised: nothing, and the
    exception is an [OSError]. *)
Definition failed_clean {A} (r : result A) (w w' : World) : Prop :=
  ∃ e, r = Raise e ∧ is_OSError e = true ∧ fs w' = fs w.


(** How the directory names of a loaded module relate to each other. *)
Definition layout (G : Globals) : Prop :=
  SOURCES_DIR G = PROJECT_DIR G ++ ["sources"]
  ∧ INCLUDES_DIR G = PROJECT_DIR G ++ ["includes"].

Definition source_subdir (G : Globals) (i : Z) : string :=
  "subdir_" +:+ str (i / SOURCES_PER_DIR G).

Definition include_subdir (G : Globals) (i : Z) : string :=
  "subdir_" +:+ str (i / HEADERS_PER_DIR G).

Definition source_file (i : Z) : string := "file_" +:+ str i +:+ ".cpp".
Definition header_file (i : Z) : string := "file_" +:+ str i +:+ ".h".

(** Project-relative locations of source [i] and header [i]. *)
Definition source_rel (G : Globals) (i : Z) : Path :=
  ["sources"; source_subdir G i; source_file i].

Definition header_rel (G : Globals) (i : Z) : Path :=
  ["includes"; include_subdir G i; header_file i].

(** The effect on the filesystem of one successful iteration of each loop;
    [P] is the absolute project directory. *)
Definition put_source (G : Globals) (P : Path) (m : gmap Path node) (i : Z) :=
  <[P ++ source_rel G i := File (source_text (NUMBER_OF_HEADERS G) i)]>
    (<[P ++ ["sources"; source_subdir G i] := Dir]> m).

Definition put_header (G : Globals) (P : Path) (m : gmap Path node) (i : Z) :=
  <[P ++ header_rel G i := File (header_text i)]>
    (<[P ++ ["includes"; include_subdir G i] := Dir]> m).

(** Where the generated files and directories live, as the script names
    them (relative to the working directory when [PROJECT_DIR] is). *)
Definition source_path (G : Globals) (i : Z) : Path :=
  PROJECT_DIR G ++ source_rel G i.

Definition include_dir (G : Globals) (i : Z) : Path :=
  PROJECT_DIR G ++ ["includes"; include_subdir G i].

(** The set collected by [generate_headers]. *)
Definition include_dir_set (G : Globals) : gset Path :=
  list_to_set (include_dir G <$> range (NUMBER_OF_HEADERS G)).

(** [p.relative_to(PROJECT_DIR)] when it does not raise. *)
Definition rel (G : Globals) (p : Path) : Path := drop (length (PROJECT_DIR G)) p.

(** The include flags computed at the top of [generate_compile_commands]. *)
Definition include_flags_of (G : Globals) (headers : list Path) : list string :=
  (λ d, "-I" +:+ as_posix (rel G d)) <$> sorted headers.

(** The argument vector and the record built for one source. *)
Definition argv_of (G : Globals) (flags : list string) (source : Path) : list string :=
  if endswith (COMPILER_PATH G) "clang-cl.exe" then
    [COMPILER_PATH G; "--driver-mode=cl"; "/c";
     "/Foobj/" +:+ removesuffix (as_posix (rel G source)) ".cpp" +:+ ".obj";
     "/Fdobj/" +:+ removesuffix (as_posix (rel G source)) ".cpp" +:+ ".pdb"]
    ++ flags
  else [COMPILER_PATH G; "-c"; as_posix (rel G source)] ++ flags.

Definition entry_of (G : Globals) (flags : list string) (source : Path) : json :=
  JObject [("directory", JString (as_posix (absolute (PROJECT_DIR G))));
           ("command", JString (list2cmdline (argv_of G flags source)));
           ("file", JString (as_posix (rel G source)))].

(** The records of the compile database of a complete run, in order. *)
Definition manifest_flags (G : Globals) : list string :=
  include_flags_of G (sorted (elements (include_dir_set G))).

Definition manifest_entries (G : Globals) : list json :=
  entry_of G (manifest_flags G) <$> (source_path G <$> range (NUMBER_OF_SOURCES G)).

Definition manifest_text (G : Globals) : string :=
  json_dumps_indent4 (JArray (manifest_entries G)).

(** The filesystem after a complete run, built on the map [m0] left by the
    creation of the project directory. *)
Definition project_tree (G : Globals) (P : Path) (m0 : gmap Path node) : gmap Path node :=
  <[P ++ ["compile_commands.json"] := File (manifest_text G)]>
    (foldl (put_header G P)
       (<[P ++ ["includes"] := Dir]>
          (foldl (put_source G P) (<[P ++ ["sources"] := Dir]> m0)
             (range (NUMBER_OF_SOURCES G))))
       (range (NUMBER_OF_HEADERS G))).

(** What [generate_project] starts from: the target removed if it existed. *)
Definition cleared (P : Path) (m : gmap Path node) : gmap Path node :=
  if decide (is_Some (m !! P)) then filter (λ kv, ¬ P `prefix_of` kv.1) m else m.

(** The names bound by loading the module with arguments [args], when
    [SUBDIR_COUNT] is not zero. *)
Definition loaded (args : Args) (G : Globals) : Prop :=
  COMPILER_PATH G = compiler args
  ∧ NUMBER_OF_SOURCES G = sources args
  ∧ NUMBER_OF_HEADERS G = headers args
  ∧ SUBDIR_COUNT G = subdirs args
  ∧ SOURCES_PER_DIR G = (sources args + subdirs args - 1) / subdirs args
  ∧ HEADERS_PER_DIR G = (headers args + subdirs args - 1) / subdirs args
  ∧ SOURCES_DIR G = PROJECT_DIR G ++ ["sources"]
  ∧ INCLUDES_DIR G = PROJECT_DIR G ++ ["includes"].

(** The entries of the generated tree, by project-relative path. *)
Definition tree_spec (G : Globals) (r : Path) (n : node) : Prop :=
  (r = ["sources"] ∧ n = Dir)
  ∨ (∃ i, i ∈ range (NUMBER_OF_SOURCES G)
          ∧ r = ["sources"; source_subdir G i] ∧ n = Dir)
  ∨ (∃ i, i ∈ range (NUMBER_OF_SOURCES G)
          ∧ r = source_rel G i ∧ n = File (source_text (NUMBER_OF_HEADERS G) i))
  ∨ (r = ["includes"] ∧ n = Dir)
  ∨ (∃ i, i ∈ range (NUMBER_OF_HEADERS G)
          ∧ r = ["includes"; include_subdir G i] ∧ n = Dir)
  ∨ (∃ i, i ∈ range (NUMBER_OF_HEADERS G)
          ∧ r = header_rel G i ∧ n = File (header_text i))
  ∨ (r = ["compile_commands.json"] ∧ n = File (manifest_text G)).

Definition ins (m : gmap Path node) (kv : Path * node) : gmap Path node :=
  <[kv.1 := kv.2]> m.

Definition source_items (G : Globals) (P : Path) (i : Z) : list (Path * node) :=
  [(P ++ ["sources"; source_subdir G i], Dir);
   (P ++ source_rel G i, File (source_text (NUMBER_OF_HEADERS G) i))].

Definition header_items (G : Globals) (P : Path) (i : Z) : list (Path * node) :=
  [(P ++ ["includes"; include_subdir G i], Dir);
   (P ++ header_rel G i, File (header_text i))].

(** The insertions of a complete run, in the order they happen. *)
Definition tree_items (G : Globals) (P : Path) : list (Path * node) :=
  [(P ++ ["sources"], Dir)]
  ++ (range (NUMBER_OF_SOURCES G) ≫= source_items G P)
  ++ [(P ++ ["includes"], Dir)]
  ++ (range (NUMBER_OF_HEADERS G) ≫= header_items G P)
  ++ [(P ++ ["compile_commands.json"], File (manifest_text G))].

(** Each key is bound to one value only. *)
Definition functional (l : list (Path * node)) : Prop :=
  ∀ k v v', (k, v) ∈ l → (k, v') ∈ l → v = v'.

(** A filesystem in which every entry lies below existing entries. *)
Definition fs_closed (m : gmap Path node) : Prop :=
  ∀ q p, is_Some (m !! q) → p `prefix_of` q → p ≠ [] → is_Some (m !! p).

(** What a complete run leaves at and below the project directory [P]. *)
Definition in_project (G : Globals) (P q : Path) (n : node) : Prop :=
  (q = P ∧ n = Dir) ∨ (∃ r, q = P ++ r ∧ tree_spec G r n).

(** [ceil(a / b)] for a positive [b]. *)
Definition ceil_div (a b : Z) : Z := - ((- a) / b).

Definition is_file (n : node) : Prop :=
  match n with File _ => True | Dir => False end.

Global Instance is_file_dec n : Decision (is_file n).
Proof. destruct n; apply _. Defined.

(** The regular files found at or below directory [d]. *)
Definition files_under (m : gmap Path node) (d : Path) : gset Path :=
  dom (filter (λ kv, d `prefix_of` kv.1 ∧ is_file kv.2) m).

(** An executable check of [fs_closed]. *)
Definition fs_closedb (m : gmap Path node) : bool :=
  bool_decide (map_Forall (λ q _,
    Forall (λ k, is_Some (m !! take k q)) (seq 1 (length q))) m).

(** Characters that [subprocess.list2cmdline] copies unchanged, and arguments
    made only of them. *)
Definition plain_char (c : ascii) : bool :=
  negb (Ascii.eqb c " " || Ascii.eqb c tab || Ascii.eqb c dquote
        || Ascii.eqb c backslash).

Definition plain (s : string) : bool :=
  negb (String.eqb s EmptyString) && forallb plain_char (chars s).

(** Arguments written one after the other, each after one space. *)
Definition spaced (args : list string) : string :=
  foldr (λ a acc, " " +:+ a +:+ acc) EmptyString args.

(** The list returned by [generate_headers]. *)
Definition include_dirs (G : Globals) : list Path :=
  sorted (elements (include_dir_set G)).

(** The leading arguments of the command for source [i], before the include
    flags; [stem] is the project-relative path without its extension. *)
Definition command_head (G : Globals) (i : Z) : list string :=
  let stem := "sources/subdir_" +:+ str (i / SOURCES_PER_DIR G)
              +:+ "/file_" +:+ str i in
  if endswith (COMPILER_PATH G) "clang-cl.exe" then
    [COMPILER_PATH G; "--driver-mode=cl"; "/c";
     "/Foobj/" +:+ stem +:+ ".obj"; "/Fdobj/" +:+ stem +:+ ".pdb"]
  else [COMPILER_PATH G; "-c"; stem +:+ ".cpp"].

(** Lines 125 to 129: the target removed if it exists, then created. *)
Definition prepare (G : Globals) : IO unit :=
  b ← os_path_exists (PROJECT_DIR G);
  (if (b : bool) then
     print "Removing existing project" ;;
     shutil_rmtree (PROJECT_DIR G) false
   else pass) ;;
  os_makedirs (PROJECT_DIR G) true.

(** An action that never ends in [ZeroDivisionError]. *)
Definition never_zde {A} (c : IO A) : Prop :=
  ∀ w e w', c w = (Raise e, w') → e ≠ ZeroDivisionError.

(** ** Sample inputs

    A small machine: a compiler under [/bin], an empty working directory,
    and the example of four sources, two headers and two subdirectories. *)

Definition demo_cwd : Path := ["/"; "work"].

Definition demo_fs : gmap Path node :=
  list_to_map [(["/"], Dir);
               (["/"; "bin"], Dir);
               (["/"; "bin"; "cc"], File "ELF");
               (["/"; "bin"; "clang-cl.exe"], File "MZ");
               (["/"; "work"], Dir)].

Definition demo_world : World := mkWorld demo_fs [] [].

Definition demo_args : Args := mkArgs "/bin/cc" 4 2 2 None None.

(** The same with the MSVC-compatible front end, five sources in four
    requested subdirectories, an output directory and a name. *)
Definition demo_args_cl : Args :=
  mkArgs "/bin/clang-cl.exe" 5 3 4 (Some "out") (Some "p").

(** No compiler at the given path. *)
Definition demo_args_missing : Args := mkArgs "/bin/gcc" 4 2 2 None None.

(** No header. *)
Definition demo_args_no_header : Args := mkArgs "/bin/cc" 4 0 2 None None.

(** A disk error at the twenty-first system call: the write of header 1. *)
Definition demo_world_faulty : World :=
  mkWorld demo_fs (replicate 20 false ++ [true]) [].

(** The module-level names for [demo_args] in [demo_cwd]. *)
Definition demo_globals : Globals :=
  mkGlobals "/bin/cc" 4 2 2 "BigProject_4_2" 2 1
    ["/"; "work"]
    ["/"; "work"; "BigProject_4_2"]
    ["/"; "work"; "BigProject_4_2"; "sources"]
    ["/"; "work"; "BigProject_4_2"; "includes"].

(** ** Relations between the world before and the world after an action *)

(** Every outcome of the action, normal or exceptional, relates the two
    worlds by [R]. *)
Definition respects (R : World → World → Prop) {A} (c : IO A) : Prop :=
  ∀ w r w', c w = (r, w') → R w w'.

(** Away from [P] nothing is lost and nothing is planted: an entry that is
    not at or below [P] is still there, unchanged, and an entry that was not
    there before is a directory on the way down to [P]. *)
Definition kept_outside (P : Path) (w w' : World) : Prop :=
  ∀ q n, ¬ P `prefix_of` q →
    (fs w !! q = Some n → fs w' !! q = Some n)
    ∧ (fs w' !! q = Some n → fs w !! q = Some n ∨ (n = Dir ∧ q `prefix_of` P)).

(** The same, and nothing was printed. *)
Definition undisturbed (P : Path) (w w' : World) : Prop :=
  stdout w' = stdout w ∧ kept_outside P w w'.

(** A path on the line through [P]: an ancestor of [P], [P] itself, or
    something below it. *)
Definition near (P q : Path) : Prop := q `prefix_of` P ∨ P `prefix_of` q.

(** ** More sample inputs *)

(** The target of [demo_args] occupied by a regular file. *)
Definition demo_world_blocked : World :=
  mkWorld (<[["/"; "work"; "BigProject_4_2"] := File "notes"]> demo_fs) [] [].

(** No source and no header. *)
Definition demo_args_empty : Args := mkArgs "/bin/cc" 0 0 3 None None.



(** Whether [subprocess.list2cmdline] wraps an argument in double quotes. *)
Definition needquote (arg : string) : bool :=
  bool_decide (" "%char ∈ chars arg) || bool_decide (tab ∈ chars arg)
  || String.eqb arg EmptyString.

(** A compiler whose path has a space in it. *)
Definition demo_fs_spaced : gmap Path node :=
  <[["/"; "opt"; "my tools"; "cc"] := File "ELF"]>
    (<[["/"; "opt"; "my tools"] := Dir]> (<[["/"; "opt"] := Dir]> demo_fs)).

Definition demo_args_spaced : Args :=
  mkArgs "/opt/my tools/cc" 4 2 2 None None.

(** ** Well-formed paths *)

(** A name that [pathlib] keeps as one component. *)
Definition component (s : string) : Prop :=
  ("/"%char ∉ chars s) ∧ s ≠ EmptyString ∧ s ≠ ".".

(** A path whose components, after the anchor if it has one, are all of
    that kind. *)
Definition tidy (p : Path) : Prop :=
  Forall component (if is_absolute p then tail p else p).



(** * Properties *)

(** ** Strings *)

Lemma chars_app s t : chars (s +:+ t) = chars s ++ chars t.
Proof. induction s as [|c s IH]; simpl; [done|]. unfold chars in *. simpl. by rewrite IH. Qed.

Lemma of_chars_chars s : of_chars (chars s) = s.
Proof. apply string_of_list_ascii_of_string. Qed.

Lemma chars_of_chars l : chars (of_chars l) = l.
Proof. apply list_ascii_of_string_of_list_ascii. Qed.

Lemma chars_inj s t : chars s = chars t → s = t.
Proof. intros H. by rewrite <-(of_chars_chars s), <-(of_chars_chars t), H. Qed.

Lemma of_chars_app l k : of_chars (l ++ k) = of_chars l +:+ of_chars k.
Proof. apply chars_inj. by rewrite chars_app, !chars_of_chars. Qed.

Lemma length_chars s : length (chars s) = String.length s.
Proof. induction s; simpl; [done|]. unfold chars in *. simpl. by f_equal. Qed.

Lemma string_app_assoc (a b c : string) : (a +:+ b) +:+ c = a +:+ (b +:+ c).
Proof. apply chars_inj. by rewrite !chars_app, app_assoc. Qed.

Lemma string_app_inv_head (a b c : string) : a +:+ b = a +:+ c → b = c.
Proof.
  intros H. apply chars_inj. apply (f_equal chars) in H.
  rewrite !chars_app in H. by apply app_inv_head in H.
Qed.

Lemma string_app_inv_tail (a b c : string) : a +:+ c = b +:+ c → a = b.
Proof.
  intros H. apply chars_inj. apply (f_equal chars) in H.
  rewrite !chars_app in H. by apply app_inv_tail in H.
Qed.

(** *** [str] *)

Lemma string_of_uint_chars d :
  Forall (λ c, is_digit c = true) (chars (NilEmpty.string_of_uint d)).
Proof. induction d; simpl; constructor; done. Qed.

Lemma str_chars z : Forall (λ c, is_str_char c = true) (chars (str z)).
Proof.
  unfold str. destruct (Z.to_int z) as [d|d]; simpl.
  - eapply Forall_impl; [apply string_of_uint_chars|].
    intros c Hc. unfold is_str_char. by rewrite Hc, orb_true_r.
  - constructor; [done|].
    eapply Forall_impl; [apply string_of_uint_chars|].
    intros c Hc. unfold is_str_char. by rewrite Hc, orb_true_r.
Qed.

Lemma str_inj z1 z2 : str z1 = str z2 → z1 = z2.
Proof.
  unfold str. intros H.
  assert (Some (Z.to_int z1) = Some (Z.to_int z2)) as [= Hi].
  { by rewrite <-!NilEmpty.isi, H. }
  by rewrite <-(DecimalZ.of_to z1), <-(DecimalZ.of_to z2), Hi.
Qed.

Lemma str_nonempty z : str z ≠ EmptyString.
Proof.
  intros H.
  assert (Some (Z.to_int z) = Some (Decimal.Pos Decimal.Nil)) as [= Hi].
  { rewrite <-NilEmpty.isi. unfold str in H. by rewrite H. }
  assert (z = 0) as -> by (by rewrite <-(DecimalZ.of_to z), Hi).
  discriminate H.
Qed.

Lemma str_no_char z c : is_str_char c = false → c ∉ chars (str z).
Proof.
  intros Hc Hin. pose proof (str_chars z) as H.
  rewrite Forall_forall in H. apply H in Hin. congruence.
Qed.

(** *** [strip] on the two templates *)

Lemma lstrip_app a b :
  lstrip_chars a ≠ [] → lstrip_chars (a ++ b) = lstrip_chars a ++ b.
Proof.
  induction a as [|c a IH]; simpl; [done|].
  destruct (py_isspace c); [apply IH | done].
Qed.

Lemma lstrip_lead lead c l :
  Forall (λ x, py_isspace x = true) lead → py_isspace c = false →
  lstrip_chars (lead ++ c :: l) = c :: l.
Proof.
  intros Hl Hc. induction Hl as [|x lead Hx _ IH]; simpl.
  - by rewrite Hc.
  - by rewrite Hx.
Qed.

Lemma strip_spec (lead : list ascii) (c : ascii) (l t t' : list ascii) s :
  chars s = lead ++ c :: l ++ t →
  Forall (λ x, py_isspace x = true) lead → py_isspace c = false →
  lstrip_chars (reverse t) = reverse t' → t' ≠ [] →
  strip s = of_chars (c :: l ++ t').
Proof.
  intros Hs Hlead Hc Ht Hne. unfold strip. rewrite Hs.
  rewrite lstrip_lead by done.
  rewrite app_comm_cons, reverse_app, lstrip_app.
  - by rewrite Ht, <-reverse_app, reverse_involutive.
  - rewrite Ht. intros H. apply Hne.
    apply (f_equal reverse) in H. by rewrite reverse_involutive in H.
Qed.

Ltac norm_chars :=
  rewrite ?chars_of_chars, ?chars_app; simpl;
  repeat (progress (rewrite <-?app_assoc, <-?app_comm_cons; simpl)).

Lemma get_header_template_eq i : get_header_template i = header_text i.
Proof.
  unfold get_header_template, header_text.
  erewrite (strip_spec [ascii_of_nat 10] "#"%char
              (chars "pragma once" ++ chars newline ++ chars newline
               ++ chars "// Some function" ++ chars newline
               ++ chars "void foo_" ++ chars (str i))
              (chars ("(int a, int b);" +:+ newline +:+ newline +:+ "    "))
              (chars "(int a, int b);")).
  - apply chars_inj. by norm_chars.
  - by norm_chars.
  - by repeat constructor.
  - done.
  - done.
  - done.
Qed.

Lemma get_source_template_eq G i :
  NUMBER_OF_HEADERS G ≠ 0 →
  get_source_template G i = Ok (source_text (NUMBER_OF_HEADERS G) i).
Proof.
  intros Hh. unfold get_source_template, py_mod, source_text.
  rewrite decide_False by done. simpl. f_equal.
  set (h := str (i mod NUMBER_OF_HEADERS G)).
  erewrite (strip_spec [ascii_of_nat 10] "#"%char
              (chars "include <file_" ++ chars h ++ chars ".h>" ++ chars newline
               ++ chars newline ++ chars "static void test_" ++ chars (str i)
               ++ chars "(int a, int b) {" ++ chars newline
               ++ chars "  foo_" ++ chars h)
              (chars ("(b, a);" +:+ newline +:+ "}" +:+ newline +:+ newline +:+ "    "))
              (chars ("(b, a);" +:+ newline +:+ "}"))).
  - apply chars_inj. by norm_chars.
  - by norm_chars.
  - by repeat constructor.
  - done.
  - done.
  - done.
Qed.

(** *** Path components *)

Lemma no_char_spec c s : no_char c s = true → c ∉ chars s.
Proof.
  unfold no_char. rewrite forallb_forall. intros H Hin.
  apply list_elem_of_In, H in Hin.
  by rewrite Ascii.eqb_refl in Hin.
Qed.

Lemma notin_chars_app c s t : c ∉ chars s → c ∉ chars t → c ∉ chars (s +:+ t).
Proof. rewrite chars_app, elem_of_app. tauto. Qed.

Lemma split_on_none sep cs cur :
  sep ∉ cs → split_on sep cs cur = [reverse cur ++ cs].
Proof.
  revert cur. induction cs as [|c cs IH]; intros cur Hn; simpl.
  - by rewrite app_nil_r.
  - destruct (Ascii.eqb_spec c sep) as [->|Hne].
    + exfalso. apply Hn. by left.
    + rewrite IH by (intros ?; apply Hn; by right).
      by rewrite reverse_cons, <-app_assoc.
Qed.

Lemma path_of_string_component s :
  "/"%char ∉ chars s → s ≠ EmptyString → s ≠ "." → path_of_string s = [s].
Proof.
  intros Hs Hne Hdot. unfold path_of_string.
  rewrite split_on_none by done. simpl. rewrite of_chars_chars.
  unfold filter. simpl. rewrite decide_True by done.
  destruct (chars s) as [|c r] eqn:Hc; [done|].
  destruct (Ascii.eqb_spec c "/") as [->|]; [|done].
  exfalso. apply Hs. by left.
Qed.

Lemma path_div_component p s :
  "/"%char ∉ chars s → s ≠ EmptyString → s ≠ "." → path_div p s = p ++ [s].
Proof.
  intros Hs Hne Hdot. unfold path_div.
  rewrite path_of_string_component by done. simpl.
  destruct (String.eqb_spec s "/") as [->|]; [|done].
  exfalso. apply Hs. by left.
Qed.

Lemma subdir_component q :
  ("/"%char ∉ chars ("subdir_" +:+ str q))
  ∧ ("subdir_" +:+ str q ≠ EmptyString) ∧ ("subdir_" +:+ str q ≠ ".").
Proof.
  split; [|done].
  apply notin_chars_app; [by apply no_char_spec | by apply str_no_char].
Qed.

Lemma file_component i ext :
  no_char "/" ext = true →
  ("/"%char ∉ chars ("file_" +:+ str i +:+ ext))
  ∧ ("file_" +:+ str i +:+ ext ≠ EmptyString) ∧ ("file_" +:+ str i +:+ ext ≠ ".").
Proof.
  intros Hext. split; [|done].
  apply notin_chars_app; [by apply no_char_spec|].
  apply notin_chars_app; [by apply str_no_char | by apply no_char_spec].
Qed.

Lemma path_div_subdir p q :
  path_div p ("subdir_" +:+ str q) = p ++ ["subdir_" +:+ str q].
Proof. apply path_div_component; apply subdir_component. Qed.

Lemma path_div_file p i ext :
  no_char "/" ext = true →
  path_div p ("file_" +:+ str i +:+ ext) = p ++ ["file_" +:+ str i +:+ ext].
Proof. intros H. apply path_div_component; by apply file_component. Qed.

Lemma absolute_app p x :
  is_absolute x = false → absolute (p ++ x) = absolute p ++ x.
Proof.
  intros Hx. unfold absolute. destruct p as [|c p]; simpl.
  - by rewrite Hx, app_nil_r.
  - destruct (String.eqb c "/"); [done|]. by rewrite <-app_assoc.
Qed.

Lemma absolute_snoc p c : p ≠ [] → absolute (p ++ [c]) = absolute p ++ [c].
Proof.
  intros Hp. unfold absolute. destruct p as [|d p]; [done|]. simpl.
  destruct (String.eqb d "/"); [done|]. by rewrite <-app_assoc.
Qed.

Lemma parent_snoc (q : Path) c : parent (q ++ [c]) = q.
Proof.
  unfold parent. rewrite length_app. simpl.
  replace (length q + 1 - 1)%nat with (length q) by lia.
  by rewrite take_app_length.
Qed.

(** *** [endswith], [removesuffix], [as_posix] *)

Lemma endswith_app s suffix : endswith (s +:+ suffix) suffix = true.
Proof.
  unfold endswith. apply bool_decide_eq_true_2.
  rewrite chars_app. by apply suffix_app_r.
Qed.

Lemma removesuffix_app s suffix :
  suffix ≠ EmptyString → removesuffix (s +:+ suffix) suffix = s.
Proof.
  intros Hne. unfold removesuffix. rewrite endswith_app.
  destruct (String.eqb_spec suffix EmptyString) as [->|_]; [done|]. simpl.
  rewrite chars_app, <-!length_chars, chars_app, length_app.
  replace (length (chars s) + length (chars suffix) - length (chars suffix))%nat
    with (length (chars s)) by lia.
  by rewrite take_app_length, of_chars_chars.
Qed.

Lemma as_posix_source_rel G i :
  as_posix (source_rel G i)
  = "sources/" +:+ source_subdir G i +:+ "/" +:+ source_file i.
Proof. done. Qed.

Lemma as_posix_include_dir G i :
  as_posix ["includes"; include_subdir G i] = "includes/" +:+ include_subdir G i.
Proof. done. Qed.

Lemma split_at_sep (c : ascii) a b x y :
  c ∉ a → c ∉ b → a ++ c :: x = b ++ c :: y → a = b ∧ x = y.
Proof.
  revert b. induction a as [|d a IH]; intros [|e b] Ha Hb H; simpl in H.
  - by injection H as ->.
  - injection H as <- _. exfalso. apply Hb. by left.
  - injection H as -> _. exfalso. apply Ha. by left.
  - injection H as -> H. apply IH in H as [-> ->]; [done| |].
    + intros ?. apply Ha. by right.
    + intros ?. apply Hb. by right.
Qed.

Lemma as_posix_source_rel_inj G i j :
  as_posix (source_rel G i) = as_posix (source_rel G j) → i = j.
Proof.
  rewrite !as_posix_source_rel. unfold source_subdir, source_file. intros H.
  apply (f_equal chars) in H. rewrite !chars_app in H. simpl in H.
  injection H as H. rewrite <-?app_assoc in H. simpl in H.
  apply split_at_sep in H as [_ H]; [|by apply str_no_char..].
  injection H as H. apply app_inv_tail in H. by apply str_inj, chars_inj.
Qed.

(** *** [list2cmdline] on arguments that need no quoting *)

Lemma plain_spec s :
  plain s = true ↔ s ≠ EmptyString ∧ Forall (λ c, plain_char c = true) (chars s).
Proof.
  unfold plain. rewrite andb_true_iff, negb_true_iff, forallb_forall, Forall_forall.
  setoid_rewrite list_elem_of_In.
  destruct (String.eqb_spec s EmptyString) as [->|Hne]; split; intros [? ?]; done.
Qed.

Lemma plain_app s t : plain s = true → plain t = true → plain (s +:+ t) = true.
Proof.
  rewrite !plain_spec, chars_app, Forall_app. intros [Hs ?] [_ ?].
  split; [|done]. destruct s; [done|]. done.
Qed.

Lemma plain_str z : plain (str z) = true.
Proof.
  apply plain_spec. split; [apply str_nonempty|].
  eapply Forall_impl; [apply str_chars|]. intros c Hc.
  unfold is_str_char, is_digit in Hc. unfold plain_char.
  destruct (Ascii.eqb_spec c " ") as [->|]; [done|].
  destruct (Ascii.eqb_spec c tab) as [->|]; [done|].
  destruct (Ascii.eqb_spec c dquote) as [->|]; [done|].
  destruct (Ascii.eqb_spec c backslash) as [->|]; done.
Qed.

Lemma quote_arg_plain cs :
  Forall (λ c, plain_char c = true) cs → quote_arg cs 0 false = cs.
Proof.
  induction 1 as [|c cs Hc _ IH]; simpl; [done|].
  unfold plain_char in Hc. apply negb_true_iff in Hc.
  apply orb_false_elim in Hc as [Hc Hbs].
  apply orb_false_elim in Hc as [_ Hdq].
  by rewrite Hbs, Hdq, IH.
Qed.

Lemma list2cmdline_step_plain res arg :
  res ≠ [] → plain arg = true →
  list2cmdline_step res arg = res ++ " "%char :: chars arg.
Proof.
  intros Hres [Hne Hpl]%plain_spec. unfold list2cmdline_step.
  rewrite decide_False by done.
  assert (plain_char " " = false) as Hsp by done.
  assert (plain_char tab = false) as Htab by done.
  rewrite !bool_decide_false; last first.
  { intros Hin. rewrite Forall_forall in Hpl. apply Hpl in Hin. congruence. }
  { intros Hin. rewrite Forall_forall in Hpl. apply Hpl in Hin. congruence. }
  destruct (String.eqb_spec arg EmptyString); [done|]. simpl.
  by rewrite quote_arg_plain, <-app_assoc.
Qed.

Lemma quote_arg_nonempty cs n nq : quote_arg cs (S n) nq ≠ [].
Proof.
  revert n. induction cs as [|c cs IH]; intros n; simpl; [done|].
  destruct (Ascii.eqb c backslash); [apply IH|].
  destruct (Ascii.eqb c dquote); done.
Qed.

Lemma list2cmdline_step_nonempty arg : list2cmdline_step [] arg ≠ [].
Proof.
  unfold list2cmdline_step. simpl.
  destruct (_ || _ || _) eqn:Hq; [done|]. simpl.
  apply orb_false_elim in Hq as [_ Hne].
  destruct arg as [|c arg]; [done|]. simpl.
  destruct (Ascii.eqb c backslash); [apply quote_arg_nonempty|].
  destruct (Ascii.eqb c dquote); done.
Qed.

Lemma foldl_step_plain res args :
  res ≠ [] → Forall (λ a, plain a = true) args →
  foldl list2cmdline_step res args
  = res ++ (args ≫= λ a, " "%char :: chars a).
Proof.
  intros Hres Hargs. revert res Hres.
  induction Hargs as [|a args Ha _ IH]; intros res Hres; simpl.
  - by rewrite app_nil_r.
  - rewrite list2cmdline_step_plain by done.
    rewrite IH by (by destruct res). by rewrite <-app_assoc.
Qed.

(** The command line of a compiler followed by plain arguments: the quoted
    compiler path, then each argument after one space. *)
Lemma list2cmdline_plain c args :
  Forall (λ a, plain a = true) args →
  list2cmdline (c :: args) = list2cmdline [c] +:+ spaced args.
Proof.
  intros Hargs. unfold list2cmdline. simpl.
  rewrite foldl_step_plain by (done || apply list2cmdline_step_nonempty).
  rewrite of_chars_app. f_equal. clear Hargs.
  induction args as [|a args IH]; [done|]. simpl.
  change (of_chars (" "%char :: chars a ++ (args ≫= λ a, " "%char :: chars a))
          = " " +:+ a +:+ spaced args).
  change (" "%char :: chars a ++ (args ≫= λ a, " "%char :: chars a))
    with ([" "%char] ++ chars a ++ (args ≫= λ a, " "%char :: chars a)).
  by rewrite !of_chars_app, IH, of_chars_chars.
Qed.

(** *** The order on paths *)

Lemma ascii_compare_refl a : Ascii.compare a a = Eq.
Proof. unfold Ascii.compare. apply N.compare_refl. Qed.

Lemma ascii_compare_lt_trans a b c :
  Ascii.compare a b = Lt → Ascii.compare b c = Lt → Ascii.compare a c = Lt.
Proof. unfold Ascii.compare. rewrite !N.compare_lt_iff. lia. Qed.

Lemma string_compare_refl s : String.compare s s = Eq.
Proof. induction s as [|a s IH]; simpl; [done|]. by rewrite ascii_compare_refl. Qed.

Lemma string_compare_lt_trans s1 s2 s3 :
  String.compare s1 s2 = Lt → String.compare s2 s3 = Lt → String.compare s1 s3 = Lt.
Proof.
  revert s2 s3. induction s1 as [|a s1 IH]; intros [|b s2] [|c s3]; simpl; try done.
  destruct (Ascii.compare a b) eqn:Hab; [|clear IH|done];
    destruct (Ascii.compare b c) eqn:Hbc; try done.
  - apply Ascii.compare_eq_iff in Hab as ->. rewrite Hbc. apply IH.
  - apply Ascii.compare_eq_iff in Hab as ->. by rewrite Hbc.
  - apply Ascii.compare_eq_iff in Hbc as ->. by rewrite Hab.
  - by rewrite (ascii_compare_lt_trans a b c).
Qed.

Lemma path_compare_antisym p q : path_compare q p = CompOpp (path_compare p q).
Proof.
  revert q. induction p as [|a p IH]; intros [|b q]; simpl; try done.
  rewrite String.compare_antisym. destruct (String.compare a b); simpl; auto.
Qed.

Lemma path_compare_refl p : path_compare p p = Eq.
Proof. induction p as [|a p IH]; simpl; [done|]. by rewrite string_compare_refl. Qed.

Lemma path_compare_eq p q : path_compare p q = Eq → p = q.
Proof.
  revert q. induction p as [|a p IH]; intros [|b q]; simpl; try done.
  destruct (String.compare a b) eqn:Hab; try done.
  apply String.compare_eq_iff in Hab as ->. by intros ->%IH.
Qed.

Lemma path_compare_lt_trans p q r :
  path_compare p q = Lt → path_compare q r = Lt → path_compare p r = Lt.
Proof.
  revert q r. induction p as [|a p IH]; intros [|b q] [|c r]; simpl; try done.
  destruct (String.compare a b) eqn:Hab; [|clear IH|done];
    destruct (String.compare b c) eqn:Hbc; try done.
  - apply String.compare_eq_iff in Hab as ->. rewrite Hbc. apply IH.
  - apply String.compare_eq_iff in Hab as ->. by rewrite Hbc.
  - apply String.compare_eq_iff in Hbc as ->. by rewrite Hab.
  - by rewrite (string_compare_lt_trans a b c).
Qed.

Lemma path_le_total : Total path_le.
Proof.
  intros p q. unfold path_le. rewrite (path_compare_antisym p q).
  destruct (path_compare p q); simpl; auto.
Qed.
#[global] Existing Instance path_le_total.

Lemma path_le_trans : Transitive path_le.
Proof.
  intros p q r. unfold path_le. intros Hpq Hqr.
  destruct (path_compare p q) eqn:H1; [|clear Hpq|done].
  - by apply path_compare_eq in H1 as ->.
  - destruct (path_compare q r) eqn:H2; [| |done].
    + apply path_compare_eq in H2 as <-. by rewrite H1.
    + by rewrite (path_compare_lt_trans p q r).
Qed.
#[global] Existing Instance path_le_trans.

Lemma path_le_antisym : AntiSymm (=) path_le.
Proof.
  intros p q. unfold path_le. rewrite (path_compare_antisym p q).
  destruct (path_compare p q) eqn:H; simpl; intros ? ?; try done.
  by apply path_compare_eq.
Qed.
#[global] Existing Instance path_le_antisym.

Lemma sorted_Permutation l : sorted l ≡ₚ l.
Proof. apply merge_sort_Permutation. Qed.

Lemma sorted_StronglySorted l : StronglySorted path_le (sorted l).
Proof. apply StronglySorted_merge_sort; apply _. Qed.

(** Sorting what is sorted already changes nothing. *)
Lemma sorted_idemp l : sorted (sorted l) = sorted l.
Proof.
  apply (StronglySorted_unique path_le).
  - apply sorted_StronglySorted.
  - apply sorted_StronglySorted.
  - apply sorted_Permutation.
Qed.

(** ** The monad and the system calls *)

Lemma bind_inv {A B} (c : IO A) (k : A → IO B) w r w' :
  (c ≫= k) w = (r, w') →
  (∃ a w1, c w = (Ok a, w1) ∧ k a w1 = (r, w'))
  ∨ (∃ e, c w = (Raise e, w') ∧ r = Raise e).
Proof.
  unfold mbind, IO_bind. destruct (c w) as [[a|e] w1]; intros H.
  - left. eauto.
  - right. injection H as <- <-. eauto.
Qed.

Lemma bind_ok {A B} (c : IO A) (k : A → IO B) w b w' :
  (c ≫= k) w = (Ok b, w') → ∃ a w1, c w = (Ok a, w1) ∧ k a w1 = (Ok b, w').
Proof. intros H. apply bind_inv in H as [H|(e & _ & [=])]. done. Qed.

Lemma bind_step {A B} (c : IO A) (k : A → IO B) w a w1 :
  c w = (Ok a, w1) → (c ≫= k) w = k a w1.
Proof. intros H. unfold mbind, IO_bind. by rewrite H. Qed.

Lemma bind_raise {A B} (c : IO A) (k : A → IO B) w e w1 :
  c w = (Raise e, w1) → (c ≫= k) w = (Raise e, w1).
Proof. intros H. unfold mbind, IO_bind. by rewrite H. Qed.

Lemma try_except_inv {A} (c : IO A) h w r w' :
  try_except c h w = (r, w') →
  (∃ a, c w = (Ok a, w') ∧ r = Ok a)
  ∨ (∃ e w1, c w = (Raise e, w1) ∧ h e w1 = (r, w')).
Proof.
  unfold try_except. destruct (c w) as [[a|e] w1]; intros H.
  - left. injection H as <- <-. eauto.
  - right. eauto.
Qed.

Lemma lift_inv {A} (x : result A) w r w' : lift x w = (r, w') → r = x ∧ w' = w.
Proof. by intros [= <- <-]. Qed.

Lemma mret_inv {A} (x : A) w r w' : (mret x : IO A) w = (r, w') → r = Ok x ∧ w' = w.
Proof. by intros [= <- <-]. Qed.

Lemma print_inv s w r w' :
  print s w = (r, w') → r = Ok tt ∧ fs w' = fs w ∧ faults w' = faults w.
Proof. by intros [= <- <-]. Qed.

Lemma io_point_inv w r w' :
  io_point w = (r, w') → fs w' = fs w ∧ (r = Ok tt ∨ r = Raise OSError).
Proof.
  unfold io_point. destruct (faults w) as [|[] l]; intros [= <- <-]; auto.
Qed.

Lemma io_point_quiet w : faults w = [] → io_point w = (Ok tt, w).
Proof. unfold io_point. by intros ->. Qed.

Lemma os_path_exists_inv p w r w' :
  os_path_exists p w = (r, w') →
  w' = w ∧ r = Ok (bool_decide (is_Some (fs w !! absolute p))).
Proof. by intros [= <- <-]. Qed.

Lemma os_mkdir_inv p w r w' :
  os_mkdir p w = (r, w') →
  (r = Ok tt ∧ fs w !! absolute p = None
   ∧ fs w !! parent (absolute p) = Some Dir
   ∧ fs w' = <[absolute p := Dir]> (fs w))
  ∨ failed_clean r w w'.
Proof.
  unfold os_mkdir. intros H.
  apply bind_inv in H as [(a & w1 & Hp & H)|(e & Hp & ->)];
    apply io_point_inv in Hp as [Hfs Hr].
  - unfold io in H. rewrite <-Hfs.
    destruct (fs w1 !! absolute p) as [n|] eqn:Hq.
    { injection H as <- <-. right. by exists FileExistsError. }
    destruct (fs w1 !! parent (absolute p)) as [[|d]|] eqn:Hpar;
      injection H as <- <-.
    + left. done.
    + right. by exists NotADirectoryError.
    + right. by exists FileNotFoundError.
  - right. destruct Hr as [[=]|[= ->]]. by exists OSError.
Qed.

Lemma mkdir_or_exists_inv p eo w r w' :
  mkdir_or_exists p eo w = (r, w') →
  (r = Ok tt ∧ fs w' = <[absolute p := Dir]> (fs w)
   ∧ ((fs w !! absolute p = None ∧ fs w !! parent (absolute p) = Some Dir)
      ∨ (eo = true ∧ fs w !! absolute p = Some Dir)))
  ∨ failed_clean r w w'.
Proof.
  unfold mkdir_or_exists. intros H.
  apply try_except_inv in H as [(a & H & ->)|(e & w1 & H & Hh)];
    apply os_mkdir_inv in H as [(Hr & Hq & Hpar & Hfs)|(e' & He & Hos & Hfs)];
    try done.
  - left. destruct a. eauto.
  - injection He as <-. rewrite Hos in Hh.
    apply bind_inv in Hh as [(isd & w2 & Hd & Hh)|(? & [=] & _)].
    injection Hd as <- <-.
    destruct eo; simpl in Hh.
    + case_bool_decide as Hdir; simpl in Hh; injection Hh as <- <-.
      * left. rewrite Hfs in *. split; [done|]. split; [|by right].
        by rewrite insert_id.
      * right. by exists e.
    + injection Hh as <- <-. right. by exists e.
Qed.

Lemma pass_bind {A} (k : unit → IO A) w : (pass ≫= k) w = k tt w.
Proof. done. Qed.

(** [os.makedirs] when the parent is already there: only the final [mkdir]
    runs. *)
Lemma os_makedirs_inv p0 c eo w r w' :
  (p0 ≠ [] → is_Some (fs w !! absolute p0)) →
  os_makedirs (p0 ++ [c]) eo w = (r, w') →
  (r = Ok tt ∧ fs w' = <[absolute (p0 ++ [c]) := Dir]> (fs w)
   ∧ ((fs w !! absolute (p0 ++ [c]) = None
       ∧ fs w !! parent (absolute (p0 ++ [c])) = Some Dir)
      ∨ (eo = true ∧ fs w !! absolute (p0 ++ [c]) = Some Dir)))
  ∨ failed_clean r w w'.
Proof.
  intros Hp0. unfold os_makedirs. rewrite reverse_app. simpl.
  destruct (reverse p0) as [|d l] eqn:Hrev.
  - rewrite pass_bind. simpl.
    assert (p0 = []) as -> by (by apply (inj reverse)).
    apply mkdir_or_exists_inv.
  - assert (p0 ≠ []) as Hne by (by intros ->).
    rewrite <-Hrev, reverse_involutive.
    erewrite bind_step; last first.
    { erewrite bind_step by reflexivity.
      by rewrite bool_decide_true by auto. }
    rewrite reverse_cons, reverse_involutive.
    apply mkdir_or_exists_inv.
Qed.

(** [os.makedirs] in general: it only ever touches the target and its
    ancestors, leaves a directory at the target when it returns, and raises
    nothing but [OSError]s. *)
Lemma makedirs_rev_frame rname eo w r w' :
  makedirs_rev rname eo w = (r, w') →
  (∀ q, ¬ q `prefix_of` absolute (reverse rname) → fs w' !! q = fs w !! q)
  ∧ (r = Ok tt → fs w' !! absolute (reverse rname) = Some Dir)
  ∧ (∀ e, r = Raise e → is_OSError e = true).
Proof.
  revert w r w'. induction rname as [|c rhead IH]; intros w r w' H.
  { simpl in H. rewrite pass_bind in H.
    apply mkdir_or_exists_inv in H as [(-> & Hfs & _)|(e & -> & Hos & Hfs)].
    - rewrite Hfs. split_and!; [|by rewrite lookup_insert_eq|done].
      intros q Hq. rewrite lookup_insert_ne; [done|]. by intros <-.
    - rewrite Hfs. split_and!; [done|done|]. by intros ? [= <-]. }
  assert (∀ w1, (∀ q, ¬ q `prefix_of` absolute (reverse (c :: rhead)) →
                      fs w1 !! q = fs w !! q) →
                mkdir_or_exists (reverse (c :: rhead)) eo w1 = (r, w') →
    (∀ q, ¬ q `prefix_of` absolute (reverse (c :: rhead)) → fs w' !! q = fs w !! q)
    ∧ (r = Ok tt → fs w' !! absolute (reverse (c :: rhead)) = Some Dir)
    ∧ (∀ e, r = Raise e → is_OSError e = true)) as Hlast.
  { intros w1 Hfr H1.
    apply mkdir_or_exists_inv in H1 as [(-> & Hfs & _)|(e & -> & Hos & Hfs)].
    - rewrite Hfs. split_and!; [|by rewrite lookup_insert_eq|done].
      intros q Hq. rewrite lookup_insert_ne; [by apply Hfr|]. by intros <-.
    - rewrite Hfs. split_and!; [done|done|]. by intros ? [= <-]. }
  destruct rhead as [|d l].
  { simpl in H. rewrite pass_bind in H. by apply Hlast in H. }
  assert (absolute (reverse (c :: d :: l))
          = absolute (reverse (d :: l)) ++ [c]) as Habs.
  { rewrite (reverse_cons _ c). apply absolute_snoc.
    intros Hnil. apply (f_equal reverse) in Hnil.
    by rewrite reverse_involutive in Hnil. }
  assert (∀ q, ¬ q `prefix_of` absolute (reverse (c :: d :: l)) →
               ¬ q `prefix_of` absolute (reverse (d :: l))) as Hpre.
  { intros q Hq Hq'. apply Hq. rewrite Habs. by apply prefix_app_r. }
  change (makedirs_rev (c :: d :: l) eo) with
    ((b ← os_path_exists (reverse (d :: l));
      if (b : bool) then pass
      else try_except (makedirs_rev (d :: l) eo)
             (λ e, if decide (e = FileExistsError) then pass else raise e)) ;;
     mkdir_or_exists (reverse (c :: d :: l)) eo) in H.
  apply bind_inv in H as [([] & w1 & Hhead & H)|(e & Hhead & ->)].
  - apply Hlast in H; [done|].
    apply bind_inv in Hhead as [(b & w0 & [= <- <-] & Hhead)|(? & [=] & _)].
    destruct (bool_decide _); [by injection Hhead as <-|].
    apply try_except_inv in Hhead as [(a & Hrec & _)|(e & w2 & Hrec & Hh)].
    + apply IH in Hrec as (Hfr & _). intros q Hq. by apply Hfr, Hpre.
    + apply IH in Hrec as (Hfr & _). destruct (decide _); [|done].
      injection Hh as <-. intros q Hq. by apply Hfr, Hpre.
  - apply bind_inv in Hhead as [(b & w0 & [= <- <-] & Hhead)|(? & [=] & _)].
    destruct (bool_decide _); [done|].
    apply try_except_inv in Hhead as [(a & Hrec & [=])|(e0 & w2 & Hrec & Hh)].
    apply IH in Hrec as (Hfr & _ & Hos). destruct (decide _); [done|].
    injection Hh as <- <-. split_and!; [|done|].
    + intros q Hq. by apply Hfr, Hpre.
    + intros ? [= <-]. by apply Hos.
Qed.

Lemma os_makedirs_frame p eo w r w' :
  os_makedirs p eo w = (r, w') →
  (∀ q, ¬ q `prefix_of` absolute p → fs w' !! q = fs w !! q)
  ∧ (r = Ok tt → fs w' !! absolute p = Some Dir)
  ∧ (∀ e, r = Raise e → is_OSError e = true).
Proof.
  intros H. apply makedirs_rev_frame in H. by rewrite reverse_involutive in H.
Qed.

Lemma rmtree_strict_inv p w r w' :
  rmtree_strict p w = (r, w') →
  (r = Ok tt ∧ fs w !! absolute p = Some Dir
   ∧ fs w' = filter (λ kv, ¬ absolute p `prefix_of` kv.1) (fs w))
  ∨ failed_clean r w w'.
Proof.
  unfold rmtree_strict. intros H.
  apply bind_inv in H as [(a & w1 & Hp & H)|(e & Hp & ->)];
    apply io_point_inv in Hp as [Hfs Hr].
  - unfold io in H. rewrite <-Hfs.
    destruct (fs w1 !! absolute p) as [[|d]|] eqn:Hq; injection H as <- <-.
    + left. done.
    + right. by exists NotADirectoryError.
    + right. by exists FileNotFoundError.
  - right. destruct Hr as [[=]|[= ->]]. by exists OSError.
Qed.

Lemma open_w_inv p w r w' :
  open_w p w = (r, w') →
  (r = Ok tt ∧ fs w !! absolute p ≠ Some Dir
   ∧ fs w !! parent (absolute p) = Some Dir
   ∧ fs w' = <[absolute p := File EmptyString]> (fs w))
  ∨ failed_clean r w w'.
Proof.
  unfold open_w. intros H.
  apply bind_inv in H as [(a & w1 & Hp & H)|(e & Hp & ->)];
    apply io_point_inv in Hp as [Hfs Hr].
  - unfold io in H. rewrite <-Hfs.
    destruct (fs w1 !! absolute p) as [[|d]|] eqn:Hq.
    { injection H as <- <-. right. by exists IsADirectoryError. }
    all: destruct (fs w1 !! parent (absolute p)) as [[|d']|] eqn:Hpar;
      injection H as <- <-;
      [ by left
      | right; by exists NotADirectoryError
      | right; by exists FileNotFoundError ].
  - right. destruct Hr as [[=]|[= ->]]. by exists OSError.
Qed.

Lemma file_write_inv p s w r w' :
  file_write p s w = (r, w') →
  (r = Ok tt ∧ fs w' = <[absolute p := File s]> (fs w))
  ∨ failed_clean r w w'.
Proof.
  unfold file_write. intros H.
  apply bind_inv in H as [(a & w1 & Hp & H)|(e & Hp & ->)];
    apply io_point_inv in Hp as [Hfs Hr].
  - injection H as <- <-. left. simpl. by rewrite Hfs.
  - right. destruct Hr as [[=]|[= ->]]. by exists OSError.
Qed.

(** ** The two generator loops *)

Lemma for_each_ok_ind {A S} (I : list A → S → World → Prop)
    (body : S → A → IO S) xs acc w r w' :
  I [] acc w →
  (∀ done x acc w acc' w',
      I done acc w → body acc x w = (Ok acc', w') → I (done ++ [x]) acc' w') →
  for_each xs body acc w = (Ok r, w') → I xs r w'.
Proof.
  intros H0 Hstep.
  enough (∀ done acc w, I done acc w →
            for_each xs body acc w = (Ok r, w') → I (done ++ xs) r w') as Hgen.
  { intros H. by apply (Hgen [] acc w). }
  induction xs as [|x xs IH]; intros done acc0 w0 HI H; simpl in H.
  - injection H as <- <-. by rewrite app_nil_r.
  - apply bind_ok in H as (acc1 & w1 & Hb & H).
    rewrite (cons_middle x), app_assoc. eapply IH; [|done].
    by eapply Hstep.
Qed.

Lemma get_source_subdir_inv G i r :
  get_source_subdir G i = r →
  (SOURCES_PER_DIR G = 0 ∧ r = Raise ZeroDivisionError)
  ∨ (SOURCES_PER_DIR G ≠ 0 ∧ r = Ok (source_subdir G i)).
Proof.
  unfold get_source_subdir, py_floordiv. intros <-.
  destruct (decide _); [left|right]; done.
Qed.

Lemma get_include_subdir_inv G i r :
  get_include_subdir G i = r →
  (HEADERS_PER_DIR G = 0 ∧ r = Raise ZeroDivisionError)
  ∨ (HEADERS_PER_DIR G ≠ 0 ∧ r = Ok (include_subdir G i)).
Proof.
  unfold get_include_subdir, py_floordiv. intros <-.
  destruct (decide _); [left|right]; done.
Qed.

Lemma get_source_template_inv G i r :
  get_source_template G i = r →
  (NUMBER_OF_HEADERS G = 0 ∧ r = Raise ZeroDivisionError)
  ∨ (NUMBER_OF_HEADERS G ≠ 0 ∧ r = Ok (source_text (NUMBER_OF_HEADERS G) i)).
Proof.
  intros <-. destruct (decide (NUMBER_OF_HEADERS G = 0)) as [H0|H0].
  - left. split; [done|]. unfold get_source_template, py_mod.
    by rewrite decide_True.
  - right. split; [done|]. by apply get_source_template_eq.
Qed.

Lemma foldl_put_is_Some {A} (put : gmap Path node → A → gmap Path node) l m k :
  (∀ m x, is_Some (m !! k) → is_Some (put m x !! k)) →
  is_Some (m !! k) → is_Some (foldl put m l !! k).
Proof.
  intros Hput. revert m. induction l as [|x l IH]; intros m Hm; simpl; [done|].
  by apply IH, Hput.
Qed.

Lemma put_source_is_Some G P m i k :
  is_Some (m !! k) → is_Some (put_source G P m i !! k).
Proof. intros H. unfold put_source. rewrite !lookup_insert_is_Some'. auto. Qed.

Lemma put_header_is_Some G P m i k :
  is_Some (m !! k) → is_Some (put_header G P m i !! k).
Proof. intros H. unfold put_header. rewrite !lookup_insert_is_Some'. auto. Qed.

(** One successful iteration of the source loop. *)
Lemma source_iteration_ok G (acc : list Path) i w acc' w' :
  layout G →
  is_Some (fs w !! (absolute (PROJECT_DIR G) ++ ["sources"])) →
  (sd ← lift (get_source_subdir G i);
   let subdir := path_div (SOURCES_DIR G) sd in
   os_makedirs subdir true ;;
   let source_path := path_div subdir ("file_" +:+ str i +:+ ".cpp") in
   open_w source_path ;;
   text ← lift (get_source_template G i);
   file_write source_path text ;;
   mret (acc ++ [source_path])) w = (Ok acc', w') →
  acc' = acc ++ [PROJECT_DIR G ++ source_rel G i]
  ∧ fs w' = put_source G (absolute (PROJECT_DIR G)) (fs w) i
  ∧ SOURCES_PER_DIR G ≠ 0 ∧ NUMBER_OF_HEADERS G ≠ 0.
Proof.
  intros [Hsrc _] Hdir H. rewrite Hsrc in H.
  apply bind_ok in H as (sd & w1 & Hsd & H). apply lift_inv in Hsd as [Hsd ->].
  symmetry in Hsd. apply get_source_subdir_inv in Hsd as [[_ [=]]|[Hspd [= ->]]].
  simpl in H. unfold source_subdir in H. rewrite path_div_subdir in H.
  fold (source_subdir G i) in H.
  change ("file_" +:+ str i +:+ ".cpp") with (source_file i) in H.
  unfold source_file in H. rewrite path_div_file in H by done.
  fold (source_file i) in H.
  assert (∀ x, is_absolute ("sources" :: x) = false) as Hrel by done.
  apply bind_ok in H as ([] & w1 & Hmk & H).
  apply os_makedirs_inv in Hmk as [(_ & Hfs1 & _)|(? & [=] & _)]; last first.
  { intros _. by rewrite absolute_app. }
  apply bind_ok in H as ([] & w2 & Hop & H).
  apply open_w_inv in Hop as [(_ & _ & _ & Hfs2)|(? & [=] & _)].
  apply bind_ok in H as (text & w3 & Htx & H). apply lift_inv in Htx as [Htx ->].
  symmetry in Htx. apply get_source_template_inv in Htx as [[_ [=]]|[Hh [= ->]]].
  apply bind_ok in H as ([] & w4 & Hwr & H).
  apply file_write_inv in Hwr as [(_ & Hfs4)|(? & [=] & _)].
  injection H as <- <-.
  rewrite <-!app_assoc in *. simpl in *.
  rewrite !absolute_app in * by done.
  split_and!; [done| |done|done].
  rewrite Hfs4, Hfs2, Hfs1, insert_insert_eq. done.
Qed.

Lemma generate_sources_ok G w srcs w' :
  layout G →
  (PROJECT_DIR G ≠ [] → is_Some (fs w !! absolute (PROJECT_DIR G))) →
  generate_sources G w = (Ok srcs, w') →
  let P := absolute (PROJECT_DIR G) in
  srcs = source_path G <$> range (NUMBER_OF_SOURCES G)
  ∧ fs w !! (P ++ ["sources"]) = None
  ∧ fs w' = foldl (put_source G P) (<[P ++ ["sources"] := Dir]> (fs w))
              (range (NUMBER_OF_SOURCES G))
  ∧ (range (NUMBER_OF_SOURCES G) ≠ [] →
     SOURCES_PER_DIR G ≠ 0 ∧ NUMBER_OF_HEADERS G ≠ 0).
Proof.
  intros Hlay Hproj H P. unfold generate_sources in H.
  apply bind_ok in H as ([] & w1 & Hmk & H).
  pose proof Hlay as [Hsrc _]. rewrite Hsrc in Hmk.
  apply os_makedirs_inv in Hmk as [(_ & Hfs1 & Hnew)|(? & [=] & _)]; [|done].
  rewrite absolute_app in Hfs1, Hnew by done. fold P in Hfs1, Hnew.
  destruct Hnew as [[Hnone _]|[[=] _]].
  eapply (for_each_ok_ind (λ done acc w,
      acc = source_path G <$> done
      ∧ fs w = foldl (put_source G P) (<[P ++ ["sources"] := Dir]> (fs w1)) done
      ∧ (done ≠ [] → SOURCES_PER_DIR G ≠ 0 ∧ NUMBER_OF_HEADERS G ≠ 0))) in H.
  - destruct H as (-> & Hfs & Hne). rewrite Hfs, Hfs1 in *.
    rewrite insert_insert_eq. done.
  - rewrite Hfs1. by rewrite insert_insert_eq.
  - intros done i acc w0 acc' w0' (-> & Hfs & _) Hbody.
    apply source_iteration_ok in Hbody as (-> & Hfs' & Hspd & Hh); [|done|].
    + rewrite fmap_app, foldl_snoc, <-Hfs. done.
    + fold P. rewrite Hfs. apply foldl_put_is_Some.
      * intros. by apply put_source_is_Some.
      * by rewrite lookup_insert_eq.
Qed.

(** One successful iteration of the header loop. *)
Lemma header_iteration_ok (G : Globals) (acc : gset Path) (i : Z) w acc' w' :
  layout G →
  is_Some (fs w !! (absolute (PROJECT_DIR G) ++ ["includes"])) →
  (sd ← lift (get_include_subdir G i);
   let subdir := path_div (INCLUDES_DIR G) sd in
   os_makedirs subdir true ;;
   let all_include_dirs := acc ∪ {[subdir]} in
   let header_path := path_div subdir ("file_" +:+ str i +:+ ".h") in
   open_w header_path ;;
   file_write header_path (get_header_template i) ;;
   mret all_include_dirs) w = (Ok acc', w') →
  acc' = acc ∪ {[include_dir G i]}
  ∧ fs w' = put_header G (absolute (PROJECT_DIR G)) (fs w) i
  ∧ HEADERS_PER_DIR G ≠ 0.
Proof.
  intros [_ Hinc] Hdir H. rewrite Hinc in H.
  apply bind_ok in H as (sd & w1 & Hsd & H). apply lift_inv in Hsd as [Hsd ->].
  symmetry in Hsd. apply get_include_subdir_inv in Hsd as [[_ [=]]|[Hhpd [= ->]]].
  simpl in H. unfold include_subdir in H. rewrite path_div_subdir in H.
  fold (include_subdir G i) in H.
  rewrite path_div_file in H by done.
  assert (∀ x, is_absolute ("includes" :: x) = false) as Hrel by done.
  apply bind_ok in H as ([] & w1 & Hmk & H).
  apply os_makedirs_inv in Hmk as [(_ & Hfs1 & _)|(? & [=] & _)]; last first.
  { intros _. by rewrite absolute_app. }
  apply bind_ok in H as ([] & w2 & Hop & H).
  apply open_w_inv in Hop as [(_ & _ & _ & Hfs2)|(? & [=] & _)].
  apply bind_ok in H as ([] & w4 & Hwr & H).
  apply file_write_inv in Hwr as [(_ & Hfs4)|(? & [=] & _)].
  injection H as <- <-.
  rewrite <-!app_assoc in *. simpl in *.
  rewrite !absolute_app in * by done.
  split_and!; [done| |done].
  rewrite Hfs4, Hfs2, Hfs1, insert_insert_eq, get_header_template_eq. done.
Qed.

Lemma generate_headers_ok G w dirs w' :
  layout G →
  (PROJECT_DIR G ≠ [] → is_Some (fs w !! absolute (PROJECT_DIR G))) →
  generate_headers G w = (Ok dirs, w') →
  let P := absolute (PROJECT_DIR G) in
  dirs = sorted (elements (include_dir_set G))
  ∧ fs w !! (P ++ ["includes"]) = None
  ∧ fs w' = foldl (put_header G P) (<[P ++ ["includes"] := Dir]> (fs w))
              (range (NUMBER_OF_HEADERS G))
  ∧ (range (NUMBER_OF_HEADERS G) ≠ [] → HEADERS_PER_DIR G ≠ 0).
Proof.
  intros Hlay Hproj H P. unfold generate_headers in H.
  apply bind_ok in H as ([] & w1 & Hmk & H).
  pose proof Hlay as [_ Hinc]. rewrite Hinc in Hmk.
  apply os_makedirs_inv in Hmk as [(_ & Hfs1 & Hnew)|(? & [=] & _)]; [|done].
  rewrite absolute_app in Hfs1, Hnew by done. fold P in Hfs1, Hnew.
  destruct Hnew as [[Hnone _]|[[=] _]].
  apply bind_ok in H as (acc & w2 & H & Hret). injection Hret as <- <-.
  eapply (for_each_ok_ind (λ done (acc : gset Path) w,
      acc = list_to_set (include_dir G <$> done)
      ∧ fs w = foldl (put_header G P) (<[P ++ ["includes"] := Dir]> (fs w1)) done
      ∧ (done ≠ [] → HEADERS_PER_DIR G ≠ 0))) in H.
  - destruct H as (-> & Hfs & Hne). rewrite Hfs, Hfs1 in *.
    rewrite insert_insert_eq. done.
  - rewrite Hfs1. by rewrite insert_insert_eq.
  - intros done i acc0 w0 acc' w0' (-> & Hfs & _) Hbody.
    apply header_iteration_ok in Hbody as (-> & Hfs' & Hhpd); [|done|].
    + rewrite fmap_app, foldl_snoc, <-Hfs. simpl.
      by rewrite list_to_set_snoc_L.
    + fold P. rewrite Hfs. apply foldl_put_is_Some.
      * intros. by apply put_header_is_Some.
      * by rewrite lookup_insert_eq.
Qed.

(** ** The compile database writer *)

Lemma mapM_ok {A B} (f : A → result B) (g : A → B) l ys :
  (∀ x y, f x = Ok y → y = g x) → mapM f l = Ok ys → ys = g <$> l.
Proof.
  intros Hf. revert ys. induction l as [|x l IH]; intros ys H; simpl in H.
  - by injection H as <-.
  - destruct (f x) as [y|] eqn:Hx; [|done]. simpl in H.
    destruct (mapM f l) as [ys'|] eqn:Hl; [|done]. simpl in H.
    injection H as <-. simpl. f_equal; [by apply Hf | by apply IH].
Qed.

Lemma rel_posix_ok G p s : rel_posix G p = Ok s → s = as_posix (rel G p).
Proof.
  unfold rel_posix, relative_to. destruct (decide _); [|done].
  by intros [= <-].
Qed.

Lemma compile_argv_ok G flags source argv :
  compile_argv G flags source = Ok argv → argv = argv_of G flags source.
Proof.
  unfold compile_argv, argv_of. destruct (endswith _ _).
  - destruct (rel_posix G source) as [s|] eqn:Hs; [|done]. simpl.
    apply rel_posix_ok in Hs as ->. by intros [= <-].
  - destruct (rel_posix G source) as [s|] eqn:Hs; [|done]. simpl.
    apply rel_posix_ok in Hs as ->. by intros [= <-].
Qed.

Lemma compile_entry_ok G flags source w e w' :
  compile_entry G flags source w = (Ok e, w') →
  e = entry_of G flags source ∧ w' = w.
Proof.
  unfold compile_entry. intros H.
  apply bind_ok in H as (argv & w1 & Ha & H). apply lift_inv in Ha as [Ha ->].
  symmetry in Ha. apply compile_argv_ok in Ha as ->.
  apply bind_ok in H as (file & w1 & Hf & H). apply lift_inv in Hf as [Hf ->].
  symmetry in Hf. apply rel_posix_ok in Hf as ->.
  by injection H as <- <-.
Qed.

Lemma manifest_component :
  ("/"%char ∉ chars "compile_commands.json")
  ∧ ("compile_commands.json" ≠ EmptyString) ∧ ("compile_commands.json" ≠ ".").
Proof. split; [|done]. by apply no_char_spec. Qed.

Lemma generate_compile_commands_ok G srcs dirs w w' :
  generate_compile_commands G srcs dirs w = (Ok tt, w') →
  fs w' = <[absolute (PROJECT_DIR G) ++ ["compile_commands.json"] :=
              File (json_dumps_indent4
                      (JArray (entry_of G (include_flags_of G dirs) <$> srcs)))]>
            (fs w).
Proof.
  unfold generate_compile_commands. intros H.
  apply bind_ok in H as (flags & w1 & Hfl & H). apply lift_inv in Hfl as [Hfl ->].
  symmetry in Hfl.
  apply (mapM_ok _ (λ d, "-I" +:+ as_posix (rel G d))) in Hfl; last first.
  { intros d y Hy. destruct (rel_posix G d) as [s|] eqn:Hs; [|done].
    apply rel_posix_ok in Hs as ->. by injection Hy as <-. }
  fold (include_flags_of G dirs) in Hfl. subst flags.
  rewrite path_div_component in H by apply manifest_component.
  apply bind_ok in H as ([] & w2 & Hop & H).
  apply open_w_inv in Hop as [(_ & _ & _ & Hfs2)|(? & [=] & _)].
  rewrite absolute_app in Hfs2 by done.
  apply bind_ok in H as (cc & w3 & Hloop & H).
  eapply (for_each_ok_ind (λ done acc w,
      acc = entry_of G (include_flags_of G dirs) <$> done ∧ w = w2)) in Hloop.
  - destruct Hloop as [-> ->].
    apply file_write_inv in H as [(_ & Hfs4)|(? & [=] & _)].
    rewrite absolute_app in Hfs4 by done.
    by rewrite Hfs4, Hfs2, insert_insert_eq.
  - done.
  - intros done x acc w0 acc' w0' [-> ->] Hbody.
    apply bind_ok in Hbody as (e & w5 & He & Hbody).
    apply compile_entry_ok in He as [-> ->]. injection Hbody as <- <-.
    by rewrite fmap_app.
Qed.

(** ** The orchestrator on its success path *)

Lemma generate_project_try_ok G w w' :
  layout G →
  generate_project_try G w = (Ok tt, w') →
  let P := absolute (PROJECT_DIR G) in
  ∃ m0, fs w' = project_tree G P m0
    ∧ m0 !! P = Some Dir
    ∧ (∀ q, ¬ q `prefix_of` P → m0 !! q = cleared P (fs w) !! q)
    ∧ (range (NUMBER_OF_SOURCES G) ≠ [] →
       SOURCES_PER_DIR G ≠ 0 ∧ NUMBER_OF_HEADERS G ≠ 0)
    ∧ (range (NUMBER_OF_HEADERS G) ≠ [] → HEADERS_PER_DIR G ≠ 0).
Proof.
  intros Hlay H P. unfold generate_project_try in H.
  apply bind_ok in H as (b & w0 & Hex & H).
  apply os_path_exists_inv in Hex as [-> [= ->]]. fold P in H.
  apply bind_ok in H as ([] & w1 & Hrm & H).
  assert (fs w1 = cleared P (fs w)) as Hclr.
  { unfold cleared. case_bool_decide as Hsome.
    - rewrite decide_True by done.
      apply bind_ok in Hrm as ([] & wp & Hpr & Hrm).
      apply print_inv in Hpr as (_ & Hfsp & _).
      apply rmtree_strict_inv in Hrm as [(_ & _ & Hfs)|(? & [=] & _)].
      by rewrite Hfs, Hfsp.
    - rewrite decide_False by done. by injection Hrm as <-. }
  apply bind_ok in H as ([] & w2 & Hmk & H).
  apply os_makedirs_frame in Hmk as (Hframe & Hdir & _).
  specialize (Hdir eq_refl). fold P in Hframe, Hdir.
  apply bind_ok in H as (srcs & w3 & Hsrc & H).
  apply generate_sources_ok in Hsrc as (-> & _ & Hfs3 & Hne3); [|done|by eauto].
  apply bind_ok in H as (dirs & w4 & Hhdr & H).
  apply generate_headers_ok in Hhdr as (-> & _ & Hfs4 & Hne4); [|done|]; last first.
  { intros _. rewrite Hfs3. apply foldl_put_is_Some.
    - intros. by apply put_source_is_Some.
    - rewrite lookup_insert_is_Some'. right. by eauto. }
  apply generate_compile_commands_ok in H.
  exists (fs w2). split_and!; [|done| |done|done].
  - rewrite H, Hfs4, Hfs3. done.
  - intros q Hq. by rewrite Hframe, Hclr.
Qed.

Lemma path_div_sources p : path_div p "sources" = p ++ ["sources"].
Proof. apply path_div_component; [by apply no_char_spec|done|done]. Qed.

Lemma path_div_includes p : path_div p "includes" = p ++ ["includes"].
Proof. apply path_div_component; [by apply no_char_spec|done|done]. Qed.

Lemma module_level_inv args w r w' :
  module_level args w = (r, w') →
  w' = w
  ∧ ((subdirs args = 0 ∧ r = Raise ZeroDivisionError)
     ∨ (subdirs args ≠ 0 ∧ ∃ G, r = Ok G ∧ loaded args G)).
Proof.
  unfold module_level, py_floordiv. intros H.
  destruct (decide (subdirs args = 0)) as [Hd|Hd].
  - injection H as <- <-. auto.
  - unfold loaded. destruct (output args) as [o|];
      injection H as <- <-; (split; [done|]); right; (split; [done|]);
      eexists; (split; [done|]); simpl;
      rewrite !path_div_sources, !path_div_includes; done.
Qed.

Lemma loaded_layout args G : loaded args G → layout G.
Proof. intros H. unfold loaded in H. unfold layout. tauto. Qed.

Lemma main_ok G w status w' :
  main G w = (Ok status, w') →
  (status = 1 ∧ fs w' = fs w
   ∧ ∀ d, fs w !! absolute (path_of_string (COMPILER_PATH G)) ≠ Some (File d))
  ∨ (status = 0
     ∧ (∃ d, fs w !! absolute (path_of_string (COMPILER_PATH G)) = Some (File d))
     ∧ ∃ w0, fs w0 = fs w ∧ generate_project_try G w0 = (Ok tt, w')).
Proof.
  unfold main. intros H.
  apply bind_ok in H as (b & w0 & Hb & H). injection Hb as <- <-.
  destruct (fs w !! absolute (path_of_string (COMPILER_PATH G))) as [[|d]|] eqn:Hc;
    simpl in H.
  1,3: apply bind_ok in H as ([] & w1 & Hp & H); apply print_inv in Hp as (_ & Hfs & _);
       injection H as <- <-; left; done.
  right. apply bind_ok in H as ([] & w1 & Hg & H). injection H as <- <-.
  split; [done|]. split; [by eauto|].
  unfold generate_project in Hg.
  apply bind_ok in Hg as ([] & wp & Hp & Hg). apply print_inv in Hp as (_ & Hfs & _).
  apply try_except_inv in Hg as [(a & Hg & _)|(e & w2 & _ & Hh)].
  - destruct a. by exists wp.
  - unfold generate_project_except in Hh.
    apply bind_ok in Hh as ([] & w3 & _ & Hh).
    apply bind_ok in Hh as ([] & w4 & _ & Hh). done.
Qed.

(** ** The generated tree, entry by entry *)

Lemma foldl_ins_lookup l b q n :
  functional l →
  foldl ins b l !! q = Some n ↔ (q, n) ∈ l ∨ ((q ∉ l.*1) ∧ b !! q = Some n).
Proof.
  revert q n. induction l as [|[k v] l IH] using rev_ind; intros q n Hfun.
  { simpl. split; [intros H; right; split; [(by intros ?%elem_of_nil)|done]|].
    by intros [?%elem_of_nil|[_ ?]]. }
  assert (functional l) as Hfun'.
  { intros k0 v0 v0' H1 H2. apply (Hfun k0); apply elem_of_app; by left. }
  rewrite foldl_snoc. unfold ins at 1. simpl.
  rewrite lookup_insert_Some, (IH _ _ Hfun'), fmap_app, !elem_of_app. simpl.
  rewrite !list_elem_of_singleton. split.
  - intros [[-> ->]|[Hne [H|[Hk Hb]]]]; [by left; right|by left; left|].
    right. split; [|done]. intros [?|?]; [done|]. by apply Hne.
  - intros [[H|[= -> ->]]|[Hk Hb]]; [|by left|].
    + destruct (decide (k = q)) as [->|Hne]; [|by right; split; [|left]].
      left. split; [done|]. apply (Hfun q); apply elem_of_app; [by right; left|by left].
    + right. split; [by intros ->; apply Hk; right|].
      right. split; [|done]. intros ?. apply Hk. by left.
Qed.

Lemma foldl_bind {A B C} (f : A → B → A) (g : C → list B) (l : list C) a :
  foldl f a (l ≫= g) = foldl (λ a x, foldl f a (g x)) a l.
Proof.
  revert a. induction l as [|x l IH]; intros a; simpl; [done|].
  by rewrite foldl_app, IH.
Qed.

Lemma project_tree_items G P m0 :
  project_tree G P m0 = foldl ins m0 (tree_items G P).
Proof.
  unfold project_tree, tree_items.
  rewrite !foldl_app, !foldl_bind. simpl. done.
Qed.

Lemma source_file_inj i j : source_file i = source_file j → i = j.
Proof.
  unfold source_file. intros H. apply string_app_inv_head in H.
  apply string_app_inv_tail in H. by apply str_inj.
Qed.

Lemma header_file_inj i j : header_file i = header_file j → i = j.
Proof.
  unfold header_file. intros H. apply string_app_inv_head in H.
  apply string_app_inv_tail in H. by apply str_inj.
Qed.

Lemma elem_of_tree_items G P k v :
  (k, v) ∈ tree_items G P ↔ ∃ r, k = P ++ r ∧ tree_spec G r v.
Proof.
  unfold tree_items, tree_spec.
  rewrite !elem_of_app, !list_elem_of_singleton, !list_elem_of_bind.
  unfold source_items, header_items. split.
  - intros [[= -> ->]|[(i & Hi & Hin)|[[= -> ->]|[(i & Hi & Hin)|[= -> ->]]]]];
      try (apply elem_of_cons in Hi as [[= -> ->]|Hi];
           [|apply list_elem_of_singleton in Hi as [= -> ->]]);
      eexists; (split; [reflexivity|]); naive_solver.
  - intros (r & -> & Hr).
    destruct Hr as [[-> ->]|[(i & Hi & -> & ->)|[(i & Hi & -> & ->)|[[-> ->]|
                   [(i & Hi & -> & ->)|[(i & Hi & -> & ->)|[-> ->]]]]]]].
    + by left.
    + right; left. exists i. split; [|done]. by left.
    + right; left. exists i. split; [|done]. right. by left.
    + do 2 right. by left.
    + do 3 right. left. exists i. split; [|done]. by left.
    + do 3 right. left. exists i. split; [|done]. right. by left.
    + by do 4 right.
Qed.

Lemma tree_spec_functional G r v v' : tree_spec G r v → tree_spec G r v' → v = v'.
Proof.
  unfold tree_spec, source_rel, header_rel. intros H H'.
  destruct H as [[-> ->]|[(i & Hi & -> & ->)|[(i & Hi & -> & ->)|[[-> ->]|
               [(i & Hi & -> & ->)|[(i & Hi & -> & ->)|[-> ->]]]]]]];
  destruct H' as [[Heq ->]|[(j & Hj & Heq & ->)|[(j & Hj & Heq & ->)|[[Heq ->]|
               [(j & Hj & Heq & ->)|[(j & Hj & Heq & ->)|[Heq ->]]]]]]];
  try done; injection Heq as _ Hf.
  - change (str i +:+ ".cpp" = str j +:+ ".cpp") in Hf.
    by apply string_app_inv_tail, str_inj in Hf as ->.
  - change (str i +:+ ".h" = str j +:+ ".h") in Hf.
    by apply string_app_inv_tail, str_inj in Hf as ->.
Qed.

Lemma tree_items_functional G P : functional (tree_items G P).
Proof.
  intros k v v' H H'.
  apply elem_of_tree_items in H as (r & -> & Hr).
  apply elem_of_tree_items in H' as (r' & Heq & Hr').
  apply app_inv_head in Heq as <-. by eapply tree_spec_functional.
Qed.

Lemma tree_spec_nonempty G r v : tree_spec G r v → r ≠ [].
Proof.
  unfold tree_spec, source_rel, header_rel. intros H ->.
  destruct H as [[? _]|[(? & _ & ? & _)|[(? & _ & ? & _)|[[? _]|
               [(? & _ & ? & _)|[(? & _ & ? & _)|[? _]]]]]]]; done.
Qed.

Lemma project_tree_lookup G P m0 q n :
  project_tree G P m0 !! q = Some n ↔
    (∃ r, q = P ++ r ∧ tree_spec G r n)
    ∨ ((∀ r n', tree_spec G r n' → q ≠ P ++ r) ∧ m0 !! q = Some n).
Proof.
  rewrite project_tree_items, foldl_ins_lookup by apply tree_items_functional.
  rewrite elem_of_tree_items. apply or_iff_compat_l, and_iff_compat_r.
  rewrite list_elem_of_fmap. split.
  - intros Hn r n' Hr ->. apply Hn. exists (P ++ r, n'). split; [done|].
    apply elem_of_tree_items. eauto.
  - intros Hn ([k v] & -> & Hin). apply elem_of_tree_items in Hin as (r & -> & Hr).
    by eapply Hn.
Qed.

(** ** A run that exits with status 0 *)

Lemma script_ok args w w' :
  script args w = (0, w') →
  ∃ G w0, module_level args w = (Ok G, w) ∧ loaded args G
    ∧ subdirs args ≠ 0
    ∧ (∃ d, fs w !! absolute (path_of_string (compiler args)) = Some (File d))
    ∧ fs w0 = fs w ∧ generate_project_try G w0 = (Ok tt, w').
Proof.
  unfold script. destruct (program args w) as [[st|e] w1] eqn:Hp; [|done].
  intros [= -> ->]. unfold program in Hp.
  apply bind_ok in Hp as (G & w1 & Hm & Hmain).
  pose proof Hm as Hm'.
  apply module_level_inv in Hm' as [-> [[_ [=]]|(Hd & G' & [= <-] & Hl)]].
  apply main_ok in Hmain as [([=] & _)|(_ & Hc & w0 & Hfs & Hgen)].
  exists G, w0. split_and!; try done.
  destruct Hl as (<- & _). done.
Qed.

Lemma absolute_nonempty p : is_absolute cwd = true → absolute p ≠ [].
Proof.
  intros Hcwd. unfold absolute. destruct (is_absolute p) eqn:Hp.
  - by destruct p.
  - destruct cwd; [done|]. done.
Qed.

Lemma cleared_under_dir P m q :
  is_Some (m !! P) → P `prefix_of` q → cleared P m !! q = None.
Proof.
  intros Hs Hq. unfold cleared. rewrite decide_True by done.
  apply map_lookup_filter_None. right. intros n _. simpl. tauto.
Qed.

Lemma cleared_under P m q :
  P ≠ [] → fs_closed m → P `prefix_of` q → cleared P m !! q = None.
Proof.
  intros HP Hcl Hq. destruct (decide (is_Some (m !! P))) as [Hs|Hs].
  { by apply cleared_under_dir. }
  unfold cleared. rewrite decide_False by done.
  destruct (m !! q) as [n|] eqn:Hn; [|done].
  exfalso. apply Hs. apply (Hcl q); eauto.
Qed.

Lemma fs_closedb_spec m : fs_closedb m = true → fs_closed m.
Proof.
  unfold fs_closedb. intros H%bool_decide_eq_true_1 q p [n Hn] [k ->] Hp.
  apply (H _ _) in Hn. rewrite Forall_forall in Hn.
  specialize (Hn (length p)). rewrite take_app_length in Hn. apply Hn.
  apply elem_of_seq. rewrite length_app. destruct p; [done|]. simpl. lia.
Qed.

(** The project directory of a complete run: what is at and below it, given
    that nothing was below it once it had been (re)created. *)
Lemma project_tree_in_project G P m0 q n :
  m0 !! P = Some Dir →
  (∀ q, P `prefix_of` q → q ≠ P → m0 !! q = None) →
  P `prefix_of` q →
  project_tree G P m0 !! q = Some n ↔ in_project G P q n.
Proof.
  intros HP Hbelow Hq. rewrite project_tree_lookup. unfold in_project. split.
  - intros [H|[Hn Hm]]; [by right|]. left.
    destruct (decide (q = P)) as [->|Hne]; [by simplify_eq|].
    by rewrite Hbelow in Hm.
  - intros [[-> ->]|H]; [|by left]. right. split; [|done].
    intros r n' Hr Heq. apply tree_spec_nonempty in Hr.
    rewrite <-(app_nil_r P) in Heq at 1. by apply app_inv_head in Heq.
Qed.

Lemma run_in_project args w w' :
  is_absolute cwd = true → fs_closed (fs w) →
  script args w = (0, w') →
  ∃ G, module_level args w = (Ok G, w) ∧ loaded args G
    ∧ subdirs args ≠ 0
    ∧ (0 < sources args → NUMBER_OF_HEADERS G ≠ 0)
    ∧ ∀ q n, absolute (PROJECT_DIR G) `prefix_of` q →
        fs w' !! q = Some n ↔ in_project G (absolute (PROJECT_DIR G)) q n.
Proof.
  intros Hcwd Hcl H.
  apply script_ok in H as (G & w0 & Hm & Hl & Hd & _ & Hfs & Hgen).
  exists G. split_and!; try done.
  - apply generate_project_try_ok in Hgen as (m0 & _ & _ & _ & Hne & _);
      [|by eapply loaded_layout].
    intros Hs. apply Hne.
    destruct Hl as (_ & -> & _). unfold range.
    destruct (Z.to_nat (sources args)) eqn:Hn; [lia|done].
  - apply generate_project_try_ok in Hgen as (m0 & -> & HP & Hframe & _);
      [|by eapply loaded_layout].
    intros q n Hq. apply project_tree_in_project; [done| |done].
    intros q' Hq' Hne. rewrite Hframe, Hfs.
    + apply cleared_under; [by apply absolute_nonempty|done|done].
    + intros Hq''. apply Hne. by apply (anti_symm prefix).
Qed.

(** ** Buckets *)

Lemma elem_of_range i n : i ∈ range n ↔ 0 ≤ i < n.
Proof.
  unfold range. rewrite list_elem_of_fmap. split.
  - intros (k & -> & Hk%elem_of_seq). lia.
  - intros Hi. exists (Z.to_nat i). split; [lia|]. apply elem_of_seq. lia.
Qed.

Lemma NoDup_range n : NoDup (range n).
Proof. unfold range. apply NoDup_fmap; [apply _|]. apply NoDup_seq. Qed.

Lemma length_range n : length (range n) = Z.to_nat n.
Proof. unfold range. by rewrite length_fmap, length_seq. Qed.

Lemma range_cons n : 0 < n → ∃ l, range n = 0 :: l.
Proof.
  intros Hn. unfold range. destruct (Z.to_nat n) eqn:Hk; [lia|].
  simpl. eauto.
Qed.

Lemma ceil_div_eq a b : 0 < b → (a + b - 1) / b = ceil_div a b.
Proof.
  intros Hb. unfold ceil_div.
  pose proof (Z.div_mod (a + b - 1) b ltac:(lia)) as H1.
  pose proof (Z.mod_pos_bound (a + b - 1) b Hb) as H2.
  pose proof (Z.div_mod (- a) b ltac:(lia)) as H3.
  pose proof (Z.mod_pos_bound (- a) b Hb) as H4.
  nia.
Qed.

Lemma ceil_div_spec a b :
  0 < b → (ceil_div a b - 1) * b < a ∧ a ≤ ceil_div a b * b.
Proof.
  intros Hb. unfold ceil_div.
  pose proof (Z.div_mod (- a) b ltac:(lia)) as H3.
  pose proof (Z.mod_pos_bound (- a) b Hb) as H4.
  nia.
Qed.

Lemma ceil_div_pos a b : 0 < b → 0 < a → 0 < ceil_div a b.
Proof. intros Hb Ha. pose proof (ceil_div_spec a b Hb). nia. Qed.

Lemma bucket_bound s d i :
  0 < d → 0 ≤ i < s → 0 ≤ i / ceil_div s d ∧ i / ceil_div s d ≤ d - 1.
Proof.
  intros Hd Hi.
  pose proof (ceil_div_spec s d Hd) as [_ Hs].
  pose proof (ceil_div_pos s d Hd ltac:(lia)) as Hc.
  split; [apply Z.div_pos; lia|].
  enough (i / ceil_div s d < d) by lia.
  apply Z.div_lt_upper_bound; nia.
Qed.

(** The buckets that receive at least one of [s] indices when each holds
    [per]: exactly the first [ceil(s / per)]. *)
Lemma populated_buckets s per k :
  0 < per → 0 < s →
  (∃ i, 0 ≤ i < s ∧ k = i / per) ↔ 0 ≤ k < ceil_div s per.
Proof.
  intros Hper Hs. pose proof (ceil_div_spec s per Hper) as [Hlo Hhi]. split.
  - intros (i & Hi & ->). split; [apply Z.div_pos; lia|].
    apply Z.div_lt_upper_bound; nia.
  - intros Hk. exists (k * per). split; [nia|].
    by rewrite Z.div_mul by lia.
Qed.

Lemma size_list_to_set_range (f : Z → Path) n :
  Inj (=) (=) f →
  size (list_to_set (f <$> range n) : gset Path) = Z.to_nat n.
Proof.
  intros Hf. rewrite size_list_to_set.
  - by rewrite length_fmap, length_range.
  - apply NoDup_fmap; [done|]. apply NoDup_range.
Qed.

(** ** Files created by a complete run *)

Lemma source_rel_inj G P : Inj (=) (=) (λ i, P ++ source_rel G i).
Proof.
  intros i j H. apply app_inv_head in H. unfold source_rel in H.
  injection H as _ H. change (str i +:+ ".cpp" = str j +:+ ".cpp") in H.
  by apply string_app_inv_tail, str_inj in H.
Qed.

Lemma header_rel_inj G P : Inj (=) (=) (λ i, P ++ header_rel G i).
Proof.
  intros i j H. apply app_inv_head in H. unfold header_rel in H.
  injection H as _ H. change (str i +:+ ".h" = str j +:+ ".h") in H.
  by apply string_app_inv_tail, str_inj in H.
Qed.

Lemma elem_of_files_under m d q :
  q ∈ files_under m d ↔ d `prefix_of` q ∧ ∃ s, m !! q = Some (File s).
Proof.
  unfold files_under. rewrite elem_of_dom. unfold is_Some.
  setoid_rewrite map_lookup_filter_Some. simpl. split.
  - intros (n & Hn & Hd & Hf). split; [done|]. destruct n; [done|]. eauto.
  - intros (Hd & s & Hs). exists (File s). done.
Qed.

Lemma in_project_source_file G P q s :
  P ++ ["sources"] `prefix_of` q → in_project G P q (File s) →
  ∃ i, i ∈ range (NUMBER_OF_SOURCES G) ∧ q = P ++ source_rel G i
       ∧ s = source_text (NUMBER_OF_HEADERS G) i.
Proof.
  intros [t Ht] [[_ [=]]|(r & -> & Hr)].
  rewrite <-app_assoc in Ht. apply app_inv_head in Ht. subst r.
  unfold tree_spec, header_rel in Hr.
  destruct Hr as [[_ [=]]|[(i & _ & _ & [=])|[(i & Hi & Hr & [= ->])|[[_ [=]]|
                 [(i & _ & _ & [=])|[(i & _ & [=] & _)|[[=] _]]]]]]].
  exists i. by rewrite Hr.
Qed.

Lemma in_project_header_file G P q s :
  P ++ ["includes"] `prefix_of` q → in_project G P q (File s) →
  ∃ i, i ∈ range (NUMBER_OF_HEADERS G) ∧ q = P ++ header_rel G i
       ∧ s = header_text i.
Proof.
  intros [t Ht] [[_ [=]]|(r & -> & Hr)].
  rewrite <-app_assoc in Ht. apply app_inv_head in Ht. subst r.
  unfold tree_spec, source_rel in Hr.
  destruct Hr as [[_ [=]]|[(i & _ & _ & [=])|[(i & _ & [=] & _)|[[_ [=]]|
                 [(i & _ & _ & [=])|[(i & Hi & Hr & [= ->])|[[=] _]]]]]]].
  exists i. by rewrite Hr.
Qed.

Lemma in_project_source G P i :
  i ∈ range (NUMBER_OF_SOURCES G) →
  in_project G P (P ++ source_rel G i) (File (source_text (NUMBER_OF_HEADERS G) i)).
Proof.
  intros Hi. right. exists (source_rel G i). split; [done|].
  unfold tree_spec. do 2 right. left. eauto.
Qed.

Lemma in_project_header G P i :
  i ∈ range (NUMBER_OF_HEADERS G) →
  in_project G P (P ++ header_rel G i) (File (header_text i)).
Proof.
  intros Hi. right. exists (header_rel G i). split; [done|].
  unfold tree_spec. do 5 right. left. eauto.
Qed.

Lemma source_files_under G P m :
  (∀ q n, P `prefix_of` q → m !! q = Some n ↔ in_project G P q n) →
  files_under m (P ++ ["sources"])
  = list_to_set ((λ i, P ++ source_rel G i) <$> range (NUMBER_OF_SOURCES G)).
Proof.
  intros Hm. apply set_eq. intros q.
  rewrite elem_of_files_under, elem_of_list_to_set, list_elem_of_fmap. split.
  - intros (Hq & s & Hs). apply Hm in Hs; [|by eapply prefix_app_l].
    apply in_project_source_file in Hs as (i & Hi & -> & _); eauto.
  - intros (i & -> & Hi). split.
    + unfold source_rel. by apply prefix_app, (prefix_cons _ [] (_ :: _)), prefix_nil.
    + eexists. apply Hm; [by apply prefix_app_r|]. by apply in_project_source.
Qed.

Lemma header_files_under G P m :
  (∀ q n, P `prefix_of` q → m !! q = Some n ↔ in_project G P q n) →
  files_under m (P ++ ["includes"])
  = list_to_set ((λ i, P ++ header_rel G i) <$> range (NUMBER_OF_HEADERS G)).
Proof.
  intros Hm. apply set_eq. intros q.
  rewrite elem_of_files_under, elem_of_list_to_set, list_elem_of_fmap. split.
  - intros (Hq & s & Hs). apply Hm in Hs; [|by eapply prefix_app_l].
    apply in_project_header_file in Hs as (i & Hi & -> & _); eauto.
  - intros (i & -> & Hi). split.
    + unfold header_rel. by apply prefix_app, (prefix_cons _ [] (_ :: _)), prefix_nil.
    + eexists. apply Hm; [by apply prefix_app_r|]. by apply in_project_header.
Qed.

(** C1.  With at least one source, one header and one subdirectory, a run
    that exits with status 0 leaves exactly [S] regular files below
    [sources/] and exactly [H] below [includes/]: source [i] is at
    [sources/subdir_{i // ceil(S/D)}/file_{i}.cpp] and header [i] at
    [includes/subdir_{i // ceil(H/D)}/file_{i}.h], the two bucket sizes being
    computed separately from [S] and from [H]. *)
Theorem C1_files_created args w w' :
  1 ≤ sources args → 1 ≤ headers args → 1 ≤ subdirs args →
  is_absolute cwd = true → fs_closed (fs w) →
  script args w = (0, w') →
  ∃ G, module_level args w = (Ok G, w) ∧
    let P := absolute (PROJECT_DIR G) in
    let spd := ceil_div (sources args) (subdirs args) in
    let hpd := ceil_div (headers args) (subdirs args) in
    let source_at i :=
      P ++ ["sources"; "subdir_" +:+ str (i / spd); "file_" +:+ str i +:+ ".cpp"] in
    let header_at i :=
      P ++ ["includes"; "subdir_" +:+ str (i / hpd); "file_" +:+ str i +:+ ".h"] in
    SOURCES_PER_DIR G = spd ∧ HEADERS_PER_DIR G = hpd
    ∧ (∀ i, 0 ≤ i < sources args →
         get_source_subdir G i = Ok ("subdir_" +:+ str (i / spd))
         ∧ fs w' !! source_at i = Some (File (source_text (headers args) i)))
    ∧ (∀ i, 0 ≤ i < headers args →
         get_include_subdir G i = Ok ("subdir_" +:+ str (i / hpd))
         ∧ fs w' !! header_at i = Some (File (header_text i)))
    ∧ files_under (fs w') (P ++ ["sources"])
      = list_to_set (source_at <$> range (sources args))
    ∧ files_under (fs w') (P ++ ["includes"])
      = list_to_set (header_at <$> range (headers args))
    ∧ size (files_under (fs w') (P ++ ["sources"])) = Z.to_nat (sources args)
    ∧ size (files_under (fs w') (P ++ ["includes"])) = Z.to_nat (headers args).
Proof.
  intros Hs Hh Hd Hcwd Hcl Hrun.
  apply run_in_project in Hrun as (G & Hm & Hl & _ & _ & Hfs); [|done|done].
  exists G. split; [done|]. intros P spd hpd source_at header_at.
  destruct Hl as (_ & HS & HH & _ & Hspd & Hhpd & _).
  rewrite ceil_div_eq in Hspd, Hhpd by lia. fold spd in Hspd. fold hpd in Hhpd.
  assert (0 < spd) as Hspd0 by (apply ceil_div_pos; lia).
  assert (0 < hpd) as Hhpd0 by (apply ceil_div_pos; lia).
  assert (∀ i, source_at i = P ++ source_rel G i) as Hsa.
  { intros i. unfold source_at, source_rel, source_subdir, source_file.
    by rewrite Hspd. }
  assert (∀ i, header_at i = P ++ header_rel G i) as Hha.
  { intros i. unfold header_at, header_rel, include_subdir, header_file.
    by rewrite Hhpd. }
  assert (files_under (fs w') (P ++ ["sources"])
          = list_to_set (source_at <$> range (sources args))) as Hsrc.
  { rewrite (source_files_under G) by done. rewrite HS. f_equal.
    apply list_fmap_ext. intros _ i _. by rewrite Hsa. }
  assert (files_under (fs w') (P ++ ["includes"])
          = list_to_set (header_at <$> range (headers args))) as Hhdr.
  { rewrite (header_files_under G) by done. rewrite HH. f_equal.
    apply list_fmap_ext. intros _ i _. by rewrite Hha. }
  split_and!; try done.
  - intros i Hi. split.
    + unfold get_source_subdir, py_floordiv. rewrite Hspd.
      by rewrite decide_False by lia.
    + rewrite Hsa, <-HH. apply Hfs; [by apply prefix_app_r|].
      apply in_project_source. rewrite HS. by apply elem_of_range.
  - intros i Hi. split.
    + unfold get_include_subdir, py_floordiv. rewrite Hhpd.
      by rewrite decide_False by lia.
    + rewrite Hha. apply Hfs; [by apply prefix_app_r|].
      apply in_project_header. rewrite HH. by apply elem_of_range.
  - rewrite Hsrc. apply size_list_to_set_range.
    intros i j. rewrite !Hsa. apply source_rel_inj.
  - rewrite Hhdr. apply size_list_to_set_range.
    intros i j. rewrite !Hha. apply header_rel_inj.
Qed.

(** ** The compile database of a complete run *)

Lemma run_contains args w w' :
  script args w = (0, w') →
  ∃ G, module_level args w = (Ok G, w) ∧ loaded args G
    ∧ subdirs args ≠ 0
    ∧ (0 < sources args → NUMBER_OF_HEADERS G ≠ 0)
    ∧ ∀ r n, tree_spec G r n →
        fs w' !! (absolute (PROJECT_DIR G) ++ r) = Some n.
Proof.
  intros H.
  apply script_ok in H as (G & w0 & Hm & Hl & Hd & _ & Hfs & Hgen).
  exists G. split_and!; try done.
  - apply generate_project_try_ok in Hgen as (m0 & _ & _ & _ & Hne & _);
      [|by eapply loaded_layout].
    intros Hs. apply Hne.
    destruct Hl as (_ & -> & _). unfold range.
    destruct (Z.to_nat (sources args)) eqn:Hn; [lia|done].
  - apply generate_project_try_ok in Hgen as (m0 & -> & _);
      [|by eapply loaded_layout].
    intros r n Hr. apply project_tree_lookup. left. eauto.
Qed.

Lemma lookup_range n i : 0 ≤ i < n → range n !! Z.to_nat i = Some i.
Proof.
  intros Hi. unfold range. rewrite list_lookup_fmap, lookup_seq_lt by lia.
  simpl. f_equal. lia.
Qed.

Lemma rel_app G r : rel G (PROJECT_DIR G ++ r) = r.
Proof. unfold rel. by rewrite drop_app_length. Qed.

Lemma elem_of_include_dirs G d :
  d ∈ include_dirs G ↔ ∃ j, 0 ≤ j < NUMBER_OF_HEADERS G ∧ d = include_dir G j.
Proof.
  unfold include_dirs, include_dir_set.
  rewrite sorted_Permutation, elem_of_elements, elem_of_list_to_set,
    list_elem_of_fmap.
  split; intros (j & Hj & Hd); exists j.
  - by rewrite <-elem_of_range.
  - by rewrite elem_of_range.
Qed.

Lemma NoDup_include_dirs G : NoDup (include_dirs G).
Proof. unfold include_dirs. rewrite sorted_Permutation. apply NoDup_elements. Qed.

Lemma manifest_flags_eq G :
  manifest_flags G = (λ d, "-I" +:+ as_posix (rel G d)) <$> include_dirs G.
Proof.
  unfold manifest_flags, include_flags_of, include_dirs. by rewrite sorted_idemp.
Qed.

Lemma include_flag_eq G j :
  "-I" +:+ as_posix (rel G (include_dir G j))
  = "-Iincludes/subdir_" +:+ str (j / HEADERS_PER_DIR G).
Proof. unfold include_dir. by rewrite rel_app. Qed.

Lemma elem_of_manifest_flags G flag :
  flag ∈ manifest_flags G ↔
  ∃ j, 0 ≤ j < NUMBER_OF_HEADERS G
       ∧ flag = "-Iincludes/subdir_" +:+ str (j / HEADERS_PER_DIR G).
Proof.
  rewrite manifest_flags_eq, list_elem_of_fmap. split.
  - intros (d & -> & (j & Hj & ->)%elem_of_include_dirs).
    exists j. by rewrite include_flag_eq.
  - intros (j & Hj & ->). exists (include_dir G j).
    rewrite include_flag_eq. split; [done|]. apply elem_of_include_dirs. eauto.
Qed.

Lemma NoDup_manifest_flags G : NoDup (manifest_flags G).
Proof.
  rewrite manifest_flags_eq. apply NoDup_fmap_2_strong; [|apply NoDup_include_dirs].
  intros d d' (j & _ & ->)%elem_of_include_dirs (j' & _ & ->)%elem_of_include_dirs.
  rewrite !include_flag_eq. intros H%string_app_inv_head%str_inj.
  unfold include_dir, include_subdir. by rewrite H.
Qed.

Lemma manifest_flags_plain G : Forall (λ a, plain a = true) (manifest_flags G).
Proof.
  apply Forall_forall. intros flag (j & _ & ->)%elem_of_manifest_flags.
  apply plain_app; [done|apply plain_str].
Qed.

Lemma stem_cpp (a b : string) :
  "sources/" +:+ a +:+ "/" +:+ "file_" +:+ b +:+ ".cpp"
  = ("sources/" +:+ a +:+ "/file_" +:+ b) +:+ ".cpp".
Proof. apply chars_inj. by norm_chars. Qed.

Lemma argv_of_source G flags i :
  argv_of G flags (source_path G i) = command_head G i ++ flags.
Proof.
  unfold argv_of, command_head, source_path.
  rewrite rel_app, as_posix_source_rel. unfold source_subdir, source_file.
  rewrite stem_cpp, removesuffix_app by done.
  destruct (endswith _ _); reflexivity.
Qed.

Lemma command_head_plain G i :
  Forall (λ a, plain a = true) (tail (command_head G i)).
Proof.
  unfold command_head.
  assert (plain ("sources/subdir_" +:+ str (i / SOURCES_PER_DIR G)
                 +:+ "/file_" +:+ str i) = true) as Hstem.
  { repeat (apply plain_app; [done || apply plain_str|]). apply plain_str. }
  destruct (endswith _ _); simpl; repeat constructor; try done.
  - apply plain_app; [done|]. by apply plain_app.
  - apply plain_app; [done|]. by apply plain_app.
  - by apply plain_app.
Qed.

Lemma manifest_entry G i :
  0 ≤ i < NUMBER_OF_SOURCES G →
  manifest_entries G !! Z.to_nat i
  = Some (JObject
      [("directory", JString (as_posix (absolute (PROJECT_DIR G))));
       ("command", JString (list2cmdline (command_head G i ++ manifest_flags G)));
       ("file", JString ("sources/subdir_" +:+ str (i / SOURCES_PER_DIR G)
                         +:+ "/file_" +:+ str i +:+ ".cpp"))]).
Proof.
  intros Hi. unfold manifest_entries.
  rewrite !list_lookup_fmap, lookup_range by done. simpl.
  unfold entry_of. rewrite argv_of_source. unfold source_path.
  rewrite rel_app. done.
Qed.

Lemma length_manifest_entries G :
  length (manifest_entries G) = Z.to_nat (NUMBER_OF_SOURCES G).
Proof. unfold manifest_entries. by rewrite !length_fmap, length_range. Qed.

(** C2.  In a run that exits with status 0, the file written for source
    index [i] includes [file_{i mod H}.h] and defines [test_{i}(int a, int b)]
    whose body is the call [foo_{i mod H}(b, a)]: the two arguments in the
    opposite order to the declaration [foo_{i mod H}(int a, int b)] that the
    header template produces for index [i mod H]. *)
Theorem C2_source_content args w w' i :
  script args w = (0, w') → 0 ≤ i < sources args →
  ∃ G, module_level args w = (Ok G, w) ∧
    let h := i mod headers args in
    let text :=
      "#include <file_" +:+ str h +:+ ".h>" +:+ newline
      +:+ newline
      +:+ "static void test_" +:+ str i +:+ "(int a, int b) {" +:+ newline
      +:+ "  foo_" +:+ str h +:+ "(b, a);" +:+ newline
      +:+ "}" in
    get_source_template G i = Ok text
    ∧ fs w' !! (absolute (PROJECT_DIR G)
                ++ ["sources"; "subdir_" +:+ str (i / SOURCES_PER_DIR G);
                    "file_" +:+ str i +:+ ".cpp"]) = Some (File text)
    ∧ get_header_template h
      = "#pragma once" +:+ newline
        +:+ newline
        +:+ "// Some function" +:+ newline
        +:+ "void foo_" +:+ str h +:+ "(int a, int b);"
    ∧ (0 < headers args →
       0 ≤ h < headers args
       ∧ fs w' !! (absolute (PROJECT_DIR G)
                   ++ ["includes"; "subdir_" +:+ str (h / HEADERS_PER_DIR G);
                       "file_" +:+ str h +:+ ".h"])
         = Some (File (get_header_template h))).
Proof.
  intros Hrun Hi.
  apply run_contains in Hrun as (G & Hm & Hl & _ & Hh & Hfs).
  exists G. split; [done|]. intros h text.
  destruct Hl as (_ & HS & HH & _). specialize (Hh ltac:(lia)).
  split_and!.
  - rewrite get_source_template_eq by done. by rewrite HH.
  - apply (Hfs (source_rel G i)). unfold tree_spec. do 2 right. left.
    exists i. rewrite HS, elem_of_range, HH. done.
  - apply get_header_template_eq.
  - intros Hpos. split; [by apply Z.mod_pos_bound|].
    rewrite get_header_template_eq.
    apply (Hfs (header_rel G h)). unfold tree_spec. do 5 right. left.
    exists h. rewrite HH, elem_of_range. split; [|done].
    by apply Z.mod_pos_bound.
Qed.

(** C3.  After a run that exits with status 0, [compile_commands.json] in
    the project directory holds the JSON array of exactly [S] records, the
    record at position [i] being the one of source [i]; its ["file"] is the
    project-relative path of that source, differs from that of every other
    record, and names a file the run created; its ["directory"] is the
    absolute project directory. *)
Theorem C3_compile_database args w w' :
  0 ≤ sources args → script args w = (0, w') →
  ∃ G entries, module_level args w = (Ok G, w) ∧
    let P := absolute (PROJECT_DIR G) in
    let subdir_of i := "subdir_" +:+ str (i / SOURCES_PER_DIR G) in
    let file_of i := "sources/" +:+ subdir_of i +:+ "/file_" +:+ str i +:+ ".cpp" in
    fs w' !! (P ++ ["compile_commands.json"])
      = Some (File (json_dumps_indent4 (JArray entries)))
    ∧ Z.of_nat (length entries) = sources args
    ∧ (∀ i, 0 ≤ i < sources args →
         ∃ command,
           entries !! Z.to_nat i
           = Some (JObject [("directory", JString (as_posix P));
                            ("command", JString command);
                            ("file", JString (file_of i))]))
    ∧ (∀ i j, file_of i = file_of j → i = j)
    ∧ (∀ i, 0 ≤ i < sources args →
         file_of i = as_posix ["sources"; subdir_of i; "file_" +:+ str i +:+ ".cpp"]
         ∧ ∃ text,
             fs w' !! (P ++ ["sources"; subdir_of i; "file_" +:+ str i +:+ ".cpp"])
             = Some (File text))
    ∧ (is_absolute cwd = true → is_absolute P = true).
Proof.
  intros Hs Hrun.
  apply run_contains in Hrun as (G & Hm & Hl & _ & _ & Hfs).
  exists G, (manifest_entries G). split; [done|]. intros P subdir_of file_of.
  destruct Hl as (_ & HS & _).
  split_and!.
  - apply (Hfs ["compile_commands.json"]). unfold tree_spec. by do 6 right.
  - rewrite length_manifest_entries, HS. lia.
  - intros i Hi. eexists. rewrite manifest_entry by (by rewrite HS). done.
  - intros i j Hij. by apply (as_posix_source_rel_inj G).
  - intros i Hi. split; [done|]. eexists.
    apply (Hfs (source_rel G i)). unfold tree_spec. do 2 right. left.
    exists i. by rewrite HS, elem_of_range.
  - intros Hcwd. unfold P, absolute.
    destruct (is_absolute (PROJECT_DIR G)) eqn:Hp; [done|].
    by destruct cwd.
Qed.

(** C4.  In the compile database of a run that exits with status 0, the
    command of source [i] is, when the compiler path ends in
    [clang-cl.exe], the compiler followed by [--driver-mode=cl], [/c], the
    object and debug-database paths [/Foobj/<stem>.obj] and
    [/Fdobj/<stem>.pdb] and the include flags, where [<stem>] is the source's
    project-relative path without [.cpp]; otherwise it is the compiler
    followed by [-c], the project-relative path and the include flags. *)
Theorem C4_compile_command args w w' i :
  script args w = (0, w') → 0 ≤ i < sources args →
  ∃ G entries flags command directory file,
    module_level args w = (Ok G, w)
    ∧ fs w' !! (absolute (PROJECT_DIR G) ++ ["compile_commands.json"])
      = Some (File (json_dumps_indent4 (JArray entries)))
    ∧ entries !! Z.to_nat i
      = Some (JObject [("directory", JString directory);
                       ("command", JString command);
                       ("file", JString file)])
    ∧ let stem := "sources/subdir_" +:+ str (i / SOURCES_PER_DIR G)
                  +:+ "/file_" +:+ str i in
      file = stem +:+ ".cpp"
      ∧ removesuffix file ".cpp" = stem
      ∧ if endswith (compiler args) "clang-cl.exe" then
          command
          = list2cmdline ([compiler args; "--driver-mode=cl"; "/c";
                           "/Foobj/" +:+ stem +:+ ".obj";
                           "/Fdobj/" +:+ stem +:+ ".pdb"] ++ flags)
          ∧ command
            = list2cmdline [compiler args]
              +:+ " --driver-mode=cl" +:+ " /c"
              +:+ " /Foobj/" +:+ stem +:+ ".obj"
              +:+ " /Fdobj/" +:+ stem +:+ ".pdb"
              +:+ spaced flags
        else
          command = list2cmdline ([compiler args; "-c"; file] ++ flags)
          ∧ command
            = list2cmdline [compiler args] +:+ " -c" +:+ " " +:+ file
              +:+ spaced flags.
Proof.
  intros Hrun Hi.
  apply run_contains in Hrun as (G & Hm & Hl & _ & _ & Hfs).
  destruct Hl as (HC & HS & _).
  exists G, (manifest_entries G), (manifest_flags G). do 3 eexists.
  split; [done|]. split.
  { apply (Hfs ["compile_commands.json"]). unfold tree_spec. by do 6 right. }
  split; [by rewrite manifest_entry by (by rewrite HS)|].
  intros stem. split.
  { apply chars_inj. unfold stem. by norm_chars. }
  split.
  { replace ("sources/subdir_" +:+ str (i / SOURCES_PER_DIR G)
             +:+ "/file_" +:+ str i +:+ ".cpp") with (stem +:+ ".cpp").
    - by apply removesuffix_app.
    - apply chars_inj. unfold stem. by norm_chars. }
  pose proof (command_head_plain G i) as Hpl.
  pose proof (manifest_flags_plain G) as Hfl.
  unfold command_head in *. rewrite HC in *. fold stem in Hpl |- *.
  destruct (endswith (compiler args) "clang-cl.exe"); simpl in Hpl.
  - split; [done|]. simpl.
    rewrite list2cmdline_plain by (by apply (Forall_app_2 _ [_; _; _; _])).
    f_equal. all: unfold spaced; simpl.
    all: apply chars_inj; by norm_chars.
  - replace ("sources/subdir_" +:+ str (i / SOURCES_PER_DIR G)
             +:+ "/file_" +:+ str i +:+ ".cpp") with (stem +:+ ".cpp")
      by (apply chars_inj; unfold stem; by norm_chars).
    split; [done|]. simpl.
    rewrite list2cmdline_plain by (by apply (Forall_app_2 _ [_; _])).
    f_equal. all: unfold spaced; simpl.
    all: apply chars_inj; by norm_chars.
Qed.

(** C8.  In the compile database of a run that exits with status 0, every
    command ends with one and the same list of include flags, whatever
    header its source includes: one [-I] flag for each subdirectory of
    [includes/] that received a header, without repetition, in the order of
    the sorted directory paths. *)
Theorem C8_include_flags args w w' :
  script args w = (0, w') →
  ∃ G entries dirs flags, module_level args w = (Ok G, w) ∧
    let P := absolute (PROJECT_DIR G) in
    let subdir_of j := "subdir_" +:+ str (j / HEADERS_PER_DIR G) in
    fs w' !! (P ++ ["compile_commands.json"])
      = Some (File (json_dumps_indent4 (JArray entries)))
    ∧ (∀ w0 ds w1,
         (PROJECT_DIR G ≠ [] → is_Some (fs w0 !! P)) →
         generate_headers G w0 = (Ok ds, w1) → ds = dirs)
    ∧ StronglySorted path_le dirs ∧ NoDup dirs
    ∧ (∀ d, d ∈ dirs ↔
         ∃ j, 0 ≤ j < headers args ∧ d = PROJECT_DIR G ++ ["includes"; subdir_of j])
    ∧ (∀ j, 0 ≤ j < headers args →
         ∃ text,
           fs w' !! (P ++ ["includes"; subdir_of j; "file_" +:+ str j +:+ ".h"])
           = Some (File text))
    ∧ flags = (λ d, "-I" +:+ as_posix (drop (length (PROJECT_DIR G)) d)) <$> dirs
    ∧ NoDup flags
    ∧ (∀ flag, flag ∈ flags ↔
         ∃ j, 0 ≤ j < headers args ∧ flag = "-Iincludes/" +:+ subdir_of j)
    ∧ (∀ i, 0 ≤ i < sources args →
         ∃ directory file,
           entries !! Z.to_nat i
           = Some (JObject
               [("directory", JString directory);
                ("command", JString (list2cmdline (command_head G i ++ flags)));
                ("file", JString file)])).
Proof.
  intros Hrun.
  apply run_contains in Hrun as (G & Hm & Hl & _ & _ & Hfs).
  pose proof Hl as (HC & HS & HH & _).
  exists G, (manifest_entries G), (include_dirs G), (manifest_flags G).
  split; [done|]. intros P subdir_of. split_and!.
  - apply (Hfs ["compile_commands.json"]). unfold tree_spec. by do 6 right.
  - intros w0 ds w1 Hp Hgen.
    by apply generate_headers_ok in Hgen as (-> & _); [|eapply loaded_layout|].
  - apply sorted_StronglySorted.
  - apply NoDup_include_dirs.
  - intros d. rewrite elem_of_include_dirs, HH. done.
  - intros j Hj. eexists.
    apply (Hfs (header_rel G j)). unfold tree_spec. do 5 right. left.
    exists j. by rewrite HH, elem_of_range.
  - apply manifest_flags_eq.
  - apply NoDup_manifest_flags.
  - intros flag. rewrite elem_of_manifest_flags, HH. done.
  - intros i Hi. do 2 eexists. by rewrite manifest_entry by (by rewrite HS).
Qed.

(** ** Failure paths *)

Lemma bind_assoc {A B C} (c : IO A) (f : A → IO B) (g : B → IO C) w :
  ((c ≫= f) ≫= g) w = (c ≫= (λ a, f a ≫= g)) w.
Proof. unfold mbind, IO_bind. by destruct (c w) as [[a|e] w1]. Qed.

Lemma generate_project_try_prepare G w :
  generate_project_try G w
  = (prepare G ;;
     all_sources ← generate_sources G;
     all_include_dirs ← generate_headers G;
     generate_compile_commands G all_sources all_include_dirs) w.
Proof.
  unfold generate_project_try, prepare. rewrite bind_assoc.
  erewrite bind_step by reflexivity. symmetry.
  erewrite bind_step by reflexivity. by rewrite bind_assoc.
Qed.

Lemma script_status args G w r w' :
  module_level args w = (Ok G, w) →
  os_path_isfile (path_of_string (COMPILER_PATH G)) w = (Ok true, w) →
  generate_project G w = (r, w') →
  script args w = (match r with Ok _ => 0 | Raise _ => 1 end, w').
Proof.
  intros Hm Hc Hg. unfold script, program.
  rewrite (bind_step _ _ _ _ _ Hm). unfold main.
  rewrite (bind_step _ _ _ _ _ Hc). simpl.
  unfold mbind, IO_bind. rewrite Hg. by destruct r.
Qed.

(** The [except:] clause: whatever happens to the removal, the exception
    raised is the one that was caught. *)
Lemma generate_project_except_eq G e w1 :
  ∃ w2, generate_project_except G e w1 = (Raise e, w2)
    ∧ fs w2 = if decide (hd false (faults w1) = false
                         ∧ fs w1 !! absolute (PROJECT_DIR G) = Some Dir)
              then filter (λ kv, ¬ absolute (PROJECT_DIR G) `prefix_of` kv.1) (fs w1)
              else fs w1.
Proof.
  unfold generate_project_except, shutil_rmtree, rmtree_strict, try_except,
    io_point, io, print, pass, raise, mbind, IO_bind, mret, IO_ret.
  cbn [fs faults stdout].
  destruct (faults w1) as [|[] l];
    cbn [fs faults stdout set_faults set_fs hd];
    destruct (fs w1 !! absolute (PROJECT_DIR G)) as [[|d]|] eqn:Hp;
    eexists; (split; [reflexivity|]); cbn [fs faults stdout set_faults set_fs];
    case_decide as Hd; try done; try (by destruct Hd);
    exfalso; apply Hd; done.
Qed.

(** C5.  When the compiler path is not an existing file the process exits
    with status 1 and the filesystem is exactly what it was: no project
    directory is created and nothing already at the target is touched. *)
Theorem C5_missing_compiler args w :
  os_path_isfile (path_of_string (compiler args)) w = (Ok false, w) →
  ∃ w', script args w = (1, w') ∧ fs w' = fs w.
Proof.
  intros Hc. unfold script, program.
  destruct (module_level args w) as [r w1] eqn:Hm.
  pose proof Hm as Hm'.
  apply module_level_inv in Hm' as [-> [[_ ->]|(_ & G & -> & Hl)]].
  - rewrite (bind_raise _ _ _ _ _ Hm). eauto.
  - rewrite (bind_step _ _ _ _ _ Hm). unfold main.
    destruct Hl as (-> & _).
    rewrite (bind_step _ _ _ _ _ Hc). simpl. eauto.
Qed.

(** C6.  An error raised by any step of the generation (writing the
    sources, writing the headers, writing the compile database) is caught by
    the orchestrator, which removes the project directory, ignoring whatever
    goes wrong in that removal, and raises the same error again, so that the
    process exits with a non-zero status; when no step raises, the
    orchestrator returns and the process exits with status 0. *)
Theorem C6_failure_cleanup G w wp :
  print ("Generating project at " +:+ as_posix (PROJECT_DIR G)) w = (Ok tt, wp) →
  let P := absolute (PROJECT_DIR G) in
  (∀ wa, prepare G wp = (Ok tt, wa) →
     (∀ e wb,
        generate_sources G wa = (Raise e, wb) →
        generate_project_try G wp = (Raise e, wb))
     ∧ (∀ srcs wb e wc,
        generate_sources G wa = (Ok srcs, wb) →
        generate_headers G wb = (Raise e, wc) →
        generate_project_try G wp = (Raise e, wc))
     ∧ (∀ srcs wb dirs wc e wd,
        generate_sources G wa = (Ok srcs, wb) →
        generate_headers G wb = (Ok dirs, wc) →
        generate_compile_commands G srcs dirs wc = (Raise e, wd) →
        generate_project_try G wp = (Raise e, wd))
     ∧ (∀ srcs wb dirs wc wd,
        generate_sources G wa = (Ok srcs, wb) →
        generate_headers G wb = (Ok dirs, wc) →
        generate_compile_commands G srcs dirs wc = (Ok tt, wd) →
        generate_project_try G wp = (Ok tt, wd)))
  ∧ (∀ e w1,
       generate_project_try G wp = (Raise e, w1) →
       ∃ w2, generate_project G w = (Raise e, w2)
         ∧ fs w2 = (if decide (hd false (faults w1) = false ∧ fs w1 !! P = Some Dir)
                    then filter (λ kv, ¬ P `prefix_of` kv.1) (fs w1)
                    else fs w1)
         ∧ (hd false (faults w1) = false → fs w2 !! P ≠ Some Dir)
         ∧ (∀ args,
              module_level args w = (Ok G, w) →
              os_path_isfile (path_of_string (COMPILER_PATH G)) w = (Ok true, w) →
              script args w = (1, w2)))
  ∧ (∀ w1,
       generate_project_try G wp = (Ok tt, w1) →
       generate_project G w = (Ok tt, w1)
       ∧ (∀ args,
            module_level args w = (Ok G, w) →
            os_path_isfile (path_of_string (COMPILER_PATH G)) w = (Ok true, w) →
            script args w = (0, w1))).
Proof.
  intros Hp P. split_and!.
  - intros wa Hpre. split_and!.
    + intros e wb Hs. rewrite generate_project_try_prepare.
      rewrite (bind_step _ _ _ _ _ Hpre). by rewrite (bind_raise _ _ _ _ _ Hs).
    + intros srcs wb e wc Hs Hh. rewrite generate_project_try_prepare.
      rewrite (bind_step _ _ _ _ _ Hpre), (bind_step _ _ _ _ _ Hs).
      by rewrite (bind_raise _ _ _ _ _ Hh).
    + intros srcs wb dirs wc e wd Hs Hh Hc. rewrite generate_project_try_prepare.
      by rewrite (bind_step _ _ _ _ _ Hpre), (bind_step _ _ _ _ _ Hs),
        (bind_step _ _ _ _ _ Hh).
    + intros srcs wb dirs wc wd Hs Hh Hc. rewrite generate_project_try_prepare.
      by rewrite (bind_step _ _ _ _ _ Hpre), (bind_step _ _ _ _ _ Hs),
        (bind_step _ _ _ _ _ Hh).
  - intros e w1 Htry.
    destruct (generate_project_except_eq G e w1) as (w2 & Hex & Hfs).
    assert (generate_project G w = (Raise e, w2)) as Hg.
    { unfold generate_project. rewrite (bind_step _ _ _ _ _ Hp).
      unfold try_except. by rewrite Htry. }
    exists w2. split_and!; [done|done| |].
    + intros Hq. rewrite Hfs. subst P.
      destruct (decide _) as [Hd|Hd].
      * intros HP. apply map_lookup_filter_Some in HP as [_ HP]. by apply HP.
      * intros HP. apply Hd. done.
    + intros args Hm Hc. by rewrite (script_status args G w _ w2 Hm Hc Hg).
  - intros w1 Htry.
    assert (generate_project G w = (Ok tt, w1)) as Hg.
    { unfold generate_project. rewrite (bind_step _ _ _ _ _ Hp).
      unfold try_except. by rewrite Htry. }
    split; [done|].
    intros args Hm Hc. by rewrite (script_status args G w _ w1 Hm Hc Hg).
Qed.

(** ** Regeneration *)

Lemma prepare_ok G w wa :
  prepare G w = (Ok tt, wa) →
  let P := absolute (PROJECT_DIR G) in
  fs wa !! P = Some Dir
  ∧ ∀ q, ¬ q `prefix_of` P → fs wa !! q = cleared P (fs w) !! q.
Proof.
  intros H P. unfold prepare in H.
  apply bind_ok in H as (b & w0 & Hex & H).
  apply os_path_exists_inv in Hex as [-> [= ->]]. fold P in H.
  apply bind_ok in H as ([] & w1 & Hrm & H).
  assert (fs w1 = cleared P (fs w)) as Hclr.
  { unfold cleared. case_bool_decide as Hsome.
    - rewrite decide_True by done.
      apply bind_ok in Hrm as ([] & wp & Hpr & Hrm).
      apply print_inv in Hpr as (_ & Hfsp & _).
      apply rmtree_strict_inv in Hrm as [(_ & _ & Hfs)|(? & [=] & _)].
      by rewrite Hfs, Hfsp.
    - rewrite decide_False by done. by injection Hrm as <-. }
  apply os_makedirs_frame in H as (Hframe & Hdir & _).
  split; [by apply Hdir|]. intros q Hq. by rewrite Hframe, Hclr.
Qed.

Lemma try_in_project G w w' :
  layout G →
  generate_project_try G w = (Ok tt, w') →
  let P := absolute (PROJECT_DIR G) in
  (∀ q, P `prefix_of` q → cleared P (fs w) !! q = None) →
  ∀ q n, P `prefix_of` q → fs w' !! q = Some n ↔ in_project G P q n.
Proof.
  intros Hlay Hgen P Hclr q n Hq.
  apply generate_project_try_ok in Hgen as (m0 & -> & HP & Hframe & _); [|done].
  apply project_tree_in_project; [done| |done].
  intros q' Hq' Hne. rewrite Hframe; [by apply Hclr|].
  intros Hq''. apply Hne. by apply (anti_symm prefix).
Qed.

Lemma in_project_functional G P q n n' :
  in_project G P q n → in_project G P q n' → n = n'.
Proof.
  intros [[-> ->]|(r & -> & Hr)] [[Hq ->]|(r' & Hq & Hr')].
  - done.
  - apply tree_spec_nonempty in Hr'. rewrite <-(app_nil_r P) in Hq at 1.
    by apply app_inv_head in Hq.
  - apply tree_spec_nonempty in Hr. rewrite <-(app_nil_r P) in Hq at 2.
    by apply app_inv_head in Hq.
  - apply app_inv_head in Hq as <-. by eapply tree_spec_functional.
Qed.

(** Loading the module does not look at the filesystem. *)
Lemma module_level_indep args w r w' w2 :
  module_level args w = (r, w') → module_level args w2 = (r, w2).
Proof.
  unfold module_level, py_floordiv, lift, Path_cwd, mbind, IO_bind, mret, IO_ret.
  destruct (decide (subdirs args = 0)); [by intros [= <- _]|].
  destruct (output args); by intros [= <- _].
Qed.

(** C9.  With at least one subdirectory and at least one source, every
    source index lands in a bucket numbered at most [D - 1]; the buckets used
    are exactly the first [ceil(S / ceil(S/D))], which is at most [D] and can
    be less.  The same holds for headers. *)
Theorem C9_bucket_count args G w w' :
  module_level args w = (Ok G, w') → 1 ≤ subdirs args →
  (1 ≤ sources args →
     let per := SOURCES_PER_DIR G in
     let used := ceil_div (sources args) per in
     per = ceil_div (sources args) (subdirs args)
     ∧ (∀ i, 0 ≤ i < sources args →
          get_source_subdir G i = Ok ("subdir_" +:+ str (i / per))
          ∧ 0 ≤ i / per ≤ subdirs args - 1)
     ∧ (∀ k, (∃ i, 0 ≤ i < sources args ∧ k = i / per) ↔ 0 ≤ k < used)
     ∧ size (list_to_set ((λ i, "subdir_" +:+ str (i / per))
                            <$> range (sources args)) : gset string)
       = Z.to_nat used
     ∧ 1 ≤ used ≤ subdirs args)
  ∧ (1 ≤ headers args →
     let per := HEADERS_PER_DIR G in
     let used := ceil_div (headers args) per in
     per = ceil_div (headers args) (subdirs args)
     ∧ (∀ i, 0 ≤ i < headers args →
          get_include_subdir G i = Ok ("subdir_" +:+ str (i / per))
          ∧ 0 ≤ i / per ≤ subdirs args - 1)
     ∧ (∀ k, (∃ i, 0 ≤ i < headers args ∧ k = i / per) ↔ 0 ≤ k < used)
     ∧ size (list_to_set ((λ i, "subdir_" +:+ str (i / per))
                            <$> range (headers args)) : gset string)
       = Z.to_nat used
     ∧ 1 ≤ used ≤ subdirs args)
  ∧ (∃ s d, 1 ≤ s ∧ 1 ≤ d ∧ ceil_div s (ceil_div s d) < d).
Proof.
  intros Hm Hd.
  apply module_level_inv in Hm as [_ [[? [=]]|(_ & G' & [= <-] & Hl)]].
  destruct Hl as (_ & _ & _ & _ & Hspd & Hhpd & _).
  rewrite ceil_div_eq in Hspd, Hhpd by lia.
  assert (∀ n per, 1 ≤ n → per = ceil_div n (subdirs args) →
    let used := ceil_div n per in
    (∀ i, 0 ≤ i < n → 0 ≤ i / per ≤ subdirs args - 1)
    ∧ (∀ k, (∃ i, 0 ≤ i < n ∧ k = i / per) ↔ 0 ≤ k < used)
    ∧ size (list_to_set ((λ i, "subdir_" +:+ str (i / per)) <$> range n)
              : gset string) = Z.to_nat used
    ∧ 1 ≤ used ≤ subdirs args ∧ per ≠ 0) as Hgen.
  { intros n per Hn -> used.
    set (per := ceil_div n (subdirs args)) in *.
    assert (0 < per) as Hper by (apply ceil_div_pos; lia).
    pose proof (ceil_div_spec n (subdirs args) ltac:(lia)) as [_ Hhi].
    pose proof (ceil_div_spec n per Hper) as [Hlo' Hhi']. fold per in Hhi.
    fold used in Hlo', Hhi'.
    assert (∀ k, (∃ i, 0 ≤ i < n ∧ k = i / per) ↔ 0 ≤ k < used) as Hpop.
    { intros k. apply populated_buckets; lia. }
    split_and!; [|done| |nia|nia|lia].
    - intros i Hi. apply bucket_bound; lia.
    - replace (list_to_set ((λ i, "subdir_" +:+ str (i / per)) <$> range n)
                 : gset string)
        with (list_to_set ((λ k, "subdir_" +:+ str k) <$> range used) : gset string).
      + rewrite size_list_to_set; [by rewrite length_fmap, length_range|].
        apply NoDup_fmap; [|apply NoDup_range].
        intros a b Hab. by apply string_app_inv_head, str_inj in Hab.
      + apply set_eq. intros name.
        rewrite !elem_of_list_to_set, !list_elem_of_fmap. split.
        * intros (k & -> & Hk%elem_of_range). apply Hpop in Hk as (i & Hi & ->).
          exists i. by rewrite elem_of_range.
        * intros (i & -> & Hi%elem_of_range). exists (i / per).
          split; [done|]. apply elem_of_range, Hpop. eauto. }
  split_and!.
  - intros Hs per used.
    destruct (Hgen _ per Hs Hspd) as (Hb & Hpop & Hsz & Hu & Hne).
    split_and!; try done; try (unfold used; lia).
    intros i Hi. split; [|by apply Hb].
    unfold get_source_subdir, py_floordiv. by rewrite decide_False.
  - intros Hh per used.
    destruct (Hgen _ per Hh Hhpd) as (Hb & Hpop & Hsz & Hu & Hne).
    split_and!; try done; try (unfold used; lia).
    intros i Hi. split; [|by apply Hb].
    unfold get_include_subdir, py_floordiv. by rewrite decide_False.
  - exists 5, 4. by vm_compute.
Qed.

(** ** Where a division by zero can and cannot come from *)

Lemma never_zde_bind {A B} (c : IO A) (k : A → IO B) :
  never_zde c → (∀ a, never_zde (k a)) → never_zde (c ≫= k).
Proof.
  intros Hc Hk w e w' H.
  apply bind_inv in H as [(a & w1 & _ & H)|(e' & H & [= <-])].
  - by eapply Hk.
  - by eapply Hc.
Qed.

Lemma never_zde_mret {A} (a : A) : never_zde (mret a).
Proof. by intros w e w' [=]. Qed.

Lemma never_zde_print s : never_zde (print s).
Proof. by intros w e w' [=]. Qed.

Lemma never_zde_lift {A} (r : result A) :
  r ≠ Raise ZeroDivisionError → never_zde (lift r).
Proof. intros Hr w e w' [= -> _]. by intros ->. Qed.

Lemma never_zde_for_each {A S} (xs : list A) (body : S → A → IO S) acc :
  (∀ x acc, x ∈ xs → never_zde (body acc x)) → never_zde (for_each xs body acc).
Proof.
  revert acc. induction xs as [|x xs IH]; intros acc Hb; simpl.
  - apply never_zde_mret.
  - apply never_zde_bind; [apply Hb; by left|].
    intros acc'. apply IH. intros y acc'' Hy. apply Hb. by right.
Qed.

Lemma failed_clean_not_zde {A} (r : result A) w w' e :
  failed_clean r w w' → r = Raise e → e ≠ ZeroDivisionError.
Proof. intros (e' & -> & Hos & _) [= <-]. by intros ->. Qed.

Lemma never_zde_makedirs p eo : never_zde (os_makedirs p eo).
Proof.
  intros w e w' H. apply os_makedirs_frame in H as (_ & _ & Hos).
  specialize (Hos e eq_refl). by intros ->.
Qed.

Lemma never_zde_rmtree_strict p : never_zde (rmtree_strict p).
Proof.
  intros w e w' H. apply rmtree_strict_inv in H as [([=] & _)|H].
  by eapply failed_clean_not_zde.
Qed.

Lemma never_zde_open_w p : never_zde (open_w p).
Proof.
  intros w e w' H. apply open_w_inv in H as [([=] & _)|H].
  by eapply failed_clean_not_zde.
Qed.

Lemma never_zde_file_write p s : never_zde (file_write p s).
Proof.
  intros w e w' H. apply file_write_inv in H as [([=] & _)|H].
  by eapply failed_clean_not_zde.
Qed.

Lemma never_zde_generate_sources G :
  (range (NUMBER_OF_SOURCES G) ≠ [] →
   SOURCES_PER_DIR G ≠ 0 ∧ NUMBER_OF_HEADERS G ≠ 0) →
  never_zde (generate_sources G).
Proof.
  intros Hne. unfold generate_sources.
  apply never_zde_bind; [apply never_zde_makedirs|]. intros _.
  apply never_zde_for_each. intros i acc Hi.
  destruct Hne as [Hspd Hh]; [by intros Hnil; rewrite Hnil in Hi; inv Hi|].
  apply never_zde_bind.
  { apply never_zde_lift. unfold get_source_subdir, py_floordiv.
    by rewrite decide_False. }
  intros sd. apply never_zde_bind; [apply never_zde_makedirs|]. intros _.
  apply never_zde_bind; [apply never_zde_open_w|]. intros _.
  apply never_zde_bind.
  { apply never_zde_lift. by rewrite get_source_template_eq. }
  intros text. apply never_zde_bind; [apply never_zde_file_write|]. intros _.
  apply never_zde_mret.
Qed.

Lemma never_zde_generate_headers G :
  (range (NUMBER_OF_HEADERS G) ≠ [] → HEADERS_PER_DIR G ≠ 0) →
  never_zde (generate_headers G).
Proof.
  intros Hne. unfold generate_headers.
  apply never_zde_bind; [apply never_zde_makedirs|]. intros _.
  apply never_zde_bind; [|intros; apply never_zde_mret].
  apply never_zde_for_each. intros i acc Hi.
  assert (HEADERS_PER_DIR G ≠ 0) as Hhpd.
  { apply Hne. intros Hnil. rewrite Hnil in Hi. inv Hi. }
  apply never_zde_bind.
  { apply never_zde_lift. unfold get_include_subdir, py_floordiv.
    by rewrite decide_False. }
  intros sd. apply never_zde_bind; [apply never_zde_makedirs|]. intros _.
  apply never_zde_bind; [apply never_zde_open_w|]. intros _.
  apply never_zde_bind; [apply never_zde_file_write|]. intros _.
  apply never_zde_mret.
Qed.

Lemma rel_posix_raise G p e : rel_posix G p = Raise e → e = ValueError.
Proof.
  unfold rel_posix, relative_to. destruct (decide _); [done|]. by intros [= <-].
Qed.

Lemma mapM_raise {A B} (f : A → result B) l e :
  mapM f l = Raise e → ∃ x, f x = Raise e.
Proof.
  induction l as [|x l IH]; simpl; [done|].
  destruct (f x) as [y|e'] eqn:Hx; simpl; [|intros [= <-]; eauto].
  destruct (mapM f l) as [ys|e'] eqn:Hl; simpl; [done|].
  intros [= <-]. by apply IH.
Qed.

Lemma compile_argv_raise G flags source e :
  compile_argv G flags source = Raise e → e = ValueError.
Proof.
  unfold compile_argv. destruct (endswith _ _);
    destruct (rel_posix G source) as [s|e'] eqn:Hs; simpl; try done;
    intros [= <-]; by eapply rel_posix_raise.
Qed.

Lemma never_zde_generate_compile_commands G srcs dirs :
  never_zde (generate_compile_commands G srcs dirs).
Proof.
  unfold generate_compile_commands. apply never_zde_bind.
  { intros w e w' [= H _]. apply mapM_raise in H as (d & H).
    destruct (rel_posix G d) as [s|e'] eqn:Hs; simpl in H; [done|].
    injection H as <-. apply rel_posix_raise in Hs as ->. done. }
  intros flags. apply never_zde_bind; [apply never_zde_open_w|]. intros _.
  apply never_zde_bind; [|intros; apply never_zde_file_write].
  apply never_zde_for_each. intros source acc _.
  apply never_zde_bind; [|intros; apply never_zde_mret].
  unfold compile_entry. apply never_zde_bind.
  { intros w e w' [= H _]. apply compile_argv_raise in H as ->. done. }
  intros argv. apply never_zde_bind; [|intros; apply never_zde_mret].
  intros w e w' [= H _]. apply rel_posix_raise in H as ->. done.
Qed.

Lemma never_zde_prepare G : never_zde (prepare G).
Proof.
  unfold prepare. apply never_zde_bind; [by intros w e w' [=]|]. intros b.
  apply never_zde_bind; [|intros; apply never_zde_makedirs].
  destruct b; [|apply never_zde_mret].
  apply never_zde_bind; [apply never_zde_print|]. intros _.
  apply never_zde_rmtree_strict.
Qed.

Lemma never_zde_generate_project G :
  (range (NUMBER_OF_SOURCES G) ≠ [] →
   SOURCES_PER_DIR G ≠ 0 ∧ NUMBER_OF_HEADERS G ≠ 0) →
  (range (NUMBER_OF_HEADERS G) ≠ [] → HEADERS_PER_DIR G ≠ 0) →
  never_zde (generate_project G).
Proof.
  intros Hs Hh.
  assert (never_zde (generate_project_try G)) as Htry.
  { intros w e w' H. rewrite generate_project_try_prepare in H. revert H.
    apply never_zde_bind; [apply never_zde_prepare|]. intros _.
    apply never_zde_bind; [by apply never_zde_generate_sources|]. intros srcs.
    apply never_zde_bind; [by apply never_zde_generate_headers|]. intros dirs.
    apply never_zde_generate_compile_commands. }
  unfold generate_project.
  apply never_zde_bind; [apply never_zde_print|]. intros _.
  intros w e w' H.
  apply try_except_inv in H as [(a & _ & [=])|(e' & w1 & Hraise & Hex)].
  destruct (generate_project_except_eq G e' w1) as (w2 & Hex' & _).
  rewrite Hex' in Hex. injection Hex as <- _. by eapply Htry.
Qed.

Lemma never_zde_main G :
  never_zde (generate_project G) → never_zde (main G).
Proof.
  intros Hg. unfold main. apply never_zde_bind; [by intros w e w' [=]|].
  intros b. destruct (negb b).
  - apply never_zde_bind; [apply never_zde_print|]. intros; apply never_zde_mret.
  - apply never_zde_bind; [done|]. intros; apply never_zde_mret.
Qed.

(** *** System calls when no fault is scheduled *)

Lemma os_mkdir_quiet p w :
  faults w = [] → fs w !! absolute p = None →
  fs w !! parent (absolute p) = Some Dir →
  os_mkdir p w = (Ok tt, set_fs <[absolute p := Dir]> w).
Proof.
  intros Hf Hp Hpar. unfold os_mkdir.
  rewrite (bind_step _ _ _ _ _ (io_point_quiet w Hf)). unfold io.
  by rewrite Hp, Hpar.
Qed.

Lemma mkdir_or_exists_quiet p eo w :
  faults w = [] → fs w !! absolute p = None →
  fs w !! parent (absolute p) = Some Dir →
  mkdir_or_exists p eo w = (Ok tt, set_fs <[absolute p := Dir]> w).
Proof.
  intros Hf Hp Hpar. unfold mkdir_or_exists, try_except.
  by rewrite os_mkdir_quiet.
Qed.

Lemma makedirs_rev_quiet rname eo w :
  faults w = [] → fs w !! absolute (reverse rname) = None →
  fs w !! parent (absolute (reverse rname)) = Some Dir →
  makedirs_rev rname eo w
  = (Ok tt, set_fs <[absolute (reverse rname) := Dir]> w).
Proof.
  intros Hf Hp Hpar. destruct rname as [|c [|d l]].
  - simpl. rewrite pass_bind. by apply mkdir_or_exists_quiet.
  - simpl. rewrite pass_bind. by apply mkdir_or_exists_quiet.
  - assert (absolute (reverse (c :: d :: l))
            = absolute (reverse (d :: l)) ++ [c]) as Habs.
    { rewrite (reverse_cons _ c). apply absolute_snoc.
      intros Hnil. apply (f_equal reverse) in Hnil.
      by rewrite reverse_involutive in Hnil. }
    change (makedirs_rev (c :: d :: l) eo) with
      ((b ← os_path_exists (reverse (d :: l));
        if (b : bool) then pass
        else try_except (makedirs_rev (d :: l) eo)
               (λ e, if decide (e = FileExistsError) then pass else raise e)) ;;
       mkdir_or_exists (reverse (c :: d :: l)) eo).
    erewrite bind_step; last first.
    { erewrite bind_step by reflexivity.
      rewrite Habs, parent_snoc in Hpar.
      rewrite bool_decide_true by (by rewrite Hpar). reflexivity. }
    by apply mkdir_or_exists_quiet.
Qed.

Lemma os_makedirs_quiet p eo w :
  faults w = [] → fs w !! absolute p = None →
  fs w !! parent (absolute p) = Some Dir →
  os_makedirs p eo w = (Ok tt, set_fs <[absolute p := Dir]> w).
Proof.
  intros Hf Hp Hpar. unfold os_makedirs.
  rewrite makedirs_rev_quiet; by rewrite ?reverse_involutive.
Qed.

Lemma rmtree_strict_quiet p w :
  faults w = [] → fs w !! absolute p = Some Dir →
  rmtree_strict p w
  = (Ok tt, set_fs (filter (λ kv, ¬ absolute p `prefix_of` kv.1)) w).
Proof.
  intros Hf Hp. unfold rmtree_strict.
  rewrite (bind_step _ _ _ _ _ (io_point_quiet w Hf)). unfold io.
  by rewrite Hp.
Qed.

Lemma open_w_quiet p w :
  faults w = [] → fs w !! absolute p = None →
  fs w !! parent (absolute p) = Some Dir →
  open_w p w = (Ok tt, set_fs <[absolute p := File EmptyString]> w).
Proof.
  intros Hf Hp Hpar. unfold open_w.
  rewrite (bind_step _ _ _ _ _ (io_point_quiet w Hf)). unfold io.
  by rewrite Hp, Hpar.
Qed.

(** *** No header at all *)

Lemma app_ne_self (P r : Path) : r ≠ [] → P ++ r ≠ P.
Proof.
  intros Hr H. rewrite <-(app_nil_r P) in H at 2. by apply app_inv_head in H.
Qed.

Lemma zero_headers_partial G w r w1 :
  layout G → NUMBER_OF_HEADERS G = 0 → 0 < NUMBER_OF_SOURCES G →
  SOURCES_PER_DIR G ≠ 0 →
  generate_project_try G w = (r, w1) →
  r ≠ Ok tt
  ∧ (r = Raise ZeroDivisionError →
     fs w1 !! absolute (PROJECT_DIR G) = Some Dir
     ∧ fs w1 !! (absolute (PROJECT_DIR G) ++ source_rel G 0)
       = Some (File EmptyString)).
Proof.
  intros Hlay Hh Hs Hspd H. set (P := absolute (PROJECT_DIR G)).
  assert (range (NUMBER_OF_SOURCES G) ≠ []) as Hne.
  { destruct (range_cons _ Hs) as [l ->]. done. }
  rewrite generate_project_try_prepare in H.
  apply bind_inv in H as [([] & wa & Hpre & H)|(e & Hpre & ->)]; last first.
  { split; [done|]. intros [= ->]. by apply never_zde_prepare in Hpre. }
  apply prepare_ok in Hpre as [HP _]. fold P in HP.
  apply bind_inv in H as [(srcs & wb & Hsrc & H)|(e & Hsrc & ->)].
  { apply generate_sources_ok in Hsrc as (_ & _ & _ & Hz); [|done|by eauto].
    by destruct (Hz Hne). }
  split; [done|]. intros [= ->].
  unfold generate_sources in Hsrc. pose proof Hlay as [Hsd _].
  rewrite Hsd in Hsrc.
  apply bind_inv in Hsrc as [([] & w2 & Hmk & Hsrc)|(e & Hmk & [=])]; last first.
  { subst e. by apply never_zde_makedirs in Hmk. }
  apply os_makedirs_inv in Hmk as [(_ & Hfs2 & _)|(? & [=] & _)]; [|by eauto].
  rewrite absolute_app in Hfs2 by done. fold P in Hfs2.
  destruct (range_cons _ Hs) as [l Hl]. rewrite Hl in Hsrc.
  cbn [for_each] in Hsrc.
  apply bind_inv in Hsrc as [(acc & w3 & Hbody & _)|(e & Hbody & [=])].
  { rewrite <-Hsd in Hbody.
    apply source_iteration_ok in Hbody as (_ & _ & _ & Hz); [by exfalso|done|].
    fold P. rewrite Hfs2, lookup_insert_eq. by eexists. }
  subst e.
  apply bind_inv in Hbody as [(sd & w3 & Hsub & Hbody)|(e & [= Hsub _] & _)];
    last first.
  { unfold get_source_subdir, py_floordiv in Hsub.
    by rewrite decide_False in Hsub. }
  apply lift_inv in Hsub as [Hsub ->]. symmetry in Hsub.
  apply get_source_subdir_inv in Hsub as [[? _]|[_ [= ->]]]; [done|].
  cbv beta zeta in Hbody. unfold source_subdir in Hbody.
  rewrite path_div_subdir, path_div_file in Hbody by done.
  fold (source_subdir G 0) in Hbody. fold (source_file 0) in Hbody.
  apply bind_inv in Hbody as [([] & w3 & Hmk & Hbody)|(e & Hmk & [=])]; last first.
  { subst e. by apply never_zde_makedirs in Hmk. }
  apply os_makedirs_inv in Hmk as [(_ & Hfs3 & _)|(? & [=] & _)]; last first.
  { intros _. rewrite absolute_app by done. fold P.
    rewrite Hfs2, lookup_insert_eq. by eauto. }
  apply bind_inv in Hbody as [([] & w4 & Hop & Hbody)|(e & Hop & [=])]; last first.
  { subst e. by apply never_zde_open_w in Hop. }
  apply open_w_inv in Hop as [(_ & _ & _ & Hfs4)|(? & [=] & _)].
  apply bind_inv in Hbody as [(text & w5 & Htx & _)|(e & Htx & _)].
  { apply lift_inv in Htx as [Htx _]. symmetry in Htx.
    apply get_source_template_inv in Htx as [[_ [=]]|[? _]]. done. }
  injection Htx as _ <-.
  rewrite <-?app_assoc in Hfs3. cbn [app] in Hfs3.
  rewrite absolute_app in Hfs3 by done.
  rewrite <-?app_assoc in Hfs4. cbn [app] in Hfs4.
  rewrite absolute_app in Hfs4 by done.
  rewrite <-?app_assoc in Hfs4. cbn [app] in Hfs4.
  fold P in Hfs3, Hfs4.
  rewrite Hfs4, Hfs3, Hfs2. split.
  - rewrite !lookup_insert_ne by (by apply app_ne_self). done.
  - unfold source_rel. by rewrite lookup_insert_eq.
Qed.

Lemma is_prefix_parent (P : Path) q : P ≠ [] → P `prefix_of` q → q ≠ parent P.
Proof.
  intros HP [t ->] Heq. apply (f_equal length) in Heq.
  unfold parent in Heq. rewrite length_app, length_take in Heq.
  destruct P; [done|]. simpl in Heq. lia.
Qed.

Lemma zero_headers_total G w :
  layout G → NUMBER_OF_HEADERS G = 0 → 0 < NUMBER_OF_SOURCES G →
  SOURCES_PER_DIR G ≠ 0 →
  faults w = [] → is_absolute cwd = true → fs_closed (fs w) →
  fs w !! parent (absolute (PROJECT_DIR G)) = Some Dir →
  (∀ d, fs w !! absolute (PROJECT_DIR G) ≠ Some (File d)) →
  ∃ w1, generate_project_try G w = (Raise ZeroDivisionError, w1).
Proof.
  intros [Hsd _] Hh Hs Hspd Hf Hcwd Hcl Hpar Hnf.
  set (P := absolute (PROJECT_DIR G)) in *.
  assert (P ≠ []) as HPne by (by apply absolute_nonempty).
  assert (∃ wa, (if bool_decide (is_Some (fs w !! P))
                 then print "Removing existing project" ;;
                      shutil_rmtree (PROJECT_DIR G) false
                 else pass) w = (Ok tt, wa)
            ∧ faults wa = [] ∧ fs wa = cleared P (fs w)) as (wa & Hif & Hfa & Hfsa).
  { unfold cleared. case_bool_decide as Hsome.
    - rewrite decide_True by done.
      destruct Hsome as [[|d] HP]; [|by apply Hnf in HP].
      eexists. split_and!.
      + erewrite bind_step by reflexivity. unfold shutil_rmtree.
        by apply rmtree_strict_quiet.
      + done.
      + done.
    - rewrite decide_False by done. by exists w. }
  assert (∀ q, P `prefix_of` q → fs wa !! q = None) as Hunder.
  { intros q Hq. rewrite Hfsa. by apply cleared_under. }
  assert (fs wa !! parent P = Some Dir) as Hpara.
  { rewrite Hfsa. unfold cleared. destruct (decide _); [|done].
    apply map_lookup_filter_Some. split; [done|]. simpl. intros Hpre.
    by eapply is_prefix_parent. }
  unfold generate_project_try.
  erewrite bind_step by reflexivity. fold P.
  rewrite (bind_step _ _ _ _ _ Hif).
  rewrite (bind_step _ _ _ _ _
             (os_makedirs_quiet _ _ _ Hfa (Hunder P ltac:(done)) Hpara)).
  fold P. set (w2 := set_fs <[P := Dir]> wa).
  unfold generate_sources. rewrite Hsd.
  assert (∀ x, is_absolute ("sources" :: x) = false) as Hrel by done.
  assert (os_makedirs (PROJECT_DIR G ++ ["sources"]) false w2
          = (Ok tt, set_fs <[P ++ ["sources"] := Dir]> w2)) as Hmk1.
  { rewrite os_makedirs_quiet; rewrite ?absolute_app by done; fold P; try done.
    - cbn [fs set_fs w2]. unfold w2. cbn [fs set_fs].
      rewrite lookup_insert_ne by (symmetry; by apply app_ne_self).
      apply Hunder. by apply prefix_app_r.
    - rewrite parent_snoc. unfold w2. cbn [fs set_fs]. by rewrite lookup_insert_eq. }
  set (w3 := set_fs <[P ++ ["sources"] := Dir]> w2) in *.
  destruct (range_cons _ Hs) as [l Hl]. rewrite Hl. cbn [for_each].
  set (sd := source_subdir G 0).
  assert (os_makedirs ((PROJECT_DIR G ++ ["sources"]) ++ [sd]) true w3
          = (Ok tt, set_fs <[P ++ ["sources"; sd] := Dir]> w3)) as Hmk2.
  { rewrite <-app_assoc. cbn [app].
    rewrite os_makedirs_quiet; rewrite ?absolute_app by done; fold P; try done.
    - unfold w3, w2. cbn [fs set_fs]. rewrite !lookup_insert_ne.
      + apply Hunder. by apply prefix_app_r.
      + symmetry. by apply app_ne_self.
      + intros [=]%app_inv_head.
    - change (P ++ ["sources"; sd]) with (P ++ ["sources"] ++ [sd]).
      rewrite app_assoc, parent_snoc. unfold w3. cbn [fs set_fs].
      by rewrite lookup_insert_eq. }
  set (w4 := set_fs <[P ++ ["sources"; sd] := Dir]> w3) in *.
  assert (open_w (((PROJECT_DIR G ++ ["sources"]) ++ [sd]) ++ [source_file 0]) w4
          = (Ok tt, set_fs <[P ++ source_rel G 0 := File EmptyString]> w4)) as Hop.
  { rewrite <-!app_assoc. cbn [app].
    rewrite open_w_quiet; rewrite ?absolute_app by done; fold P; try done.
    - unfold w4, w3, w2. cbn [fs set_fs]. rewrite !lookup_insert_ne.
      + apply Hunder. by apply prefix_app_r.
      + symmetry. by apply app_ne_self.
      + intros [=]%app_inv_head.
      + intros [=]%app_inv_head.
    - change (P ++ ["sources"; sd; source_file 0])
        with (P ++ ["sources"; sd] ++ [source_file 0]).
      rewrite app_assoc, parent_snoc. unfold w4. cbn [fs set_fs].
      by rewrite lookup_insert_eq. }
  eexists.
  erewrite bind_raise; [reflexivity|].
  rewrite (bind_step _ _ _ _ _ Hmk1).
  erewrite bind_raise; [reflexivity|].
  erewrite bind_step; last first.
  { unfold lift, get_source_subdir, py_floordiv.
    rewrite decide_False by done. reflexivity. }
  cbv beta zeta. fold sd.
  unfold sd at 1, source_subdir. rewrite path_div_subdir. fold (source_subdir G 0).
  fold sd. rewrite path_div_file by done. fold (source_file 0).
  rewrite (bind_step _ _ _ _ _ Hmk2), (bind_step _ _ _ _ _ Hop).
  erewrite bind_raise; [reflexivity|].
  unfold lift, get_source_template, py_mod. by rewrite decide_True.
Qed.

(** C10.  The two divisions of the script are by [SUBDIR_COUNT] (through the
    bucket sizes) and by [NUMBER_OF_HEADERS].  With no subdirectory the
    bucket size raises [ZeroDivisionError] while the module is loaded, before
    anything is touched.  With no header and at least one source the run
    cannot succeed, and the [ZeroDivisionError] comes from the text of
    source 0, once the project directory, [sources/subdir_0] and the still
    empty [file_0.cpp] exist.  With at least one subdirectory, and at least
    one header whenever there is a source, no [ZeroDivisionError] is ever
    raised. *)
Theorem C10_zero_divisors args w :
  (subdirs args = 0 →
     program args w = (Raise ZeroDivisionError, w) ∧ script args w = (1, w))
  ∧ (headers args = 0 → 1 ≤ sources args → 1 ≤ subdirs args →
     ∃ G, module_level args w = (Ok G, w) ∧
       let P := absolute (PROJECT_DIR G) in
       get_source_subdir G 0 = Ok "subdir_0"
       ∧ get_source_template G 0 = Raise ZeroDivisionError
       ∧ (∀ w0 r w1,
            generate_project_try G w0 = (r, w1) →
            r ≠ Ok tt
            ∧ (r = Raise ZeroDivisionError →
               fs w1 !! P = Some Dir
               ∧ fs w1 !! (P ++ ["sources"; "subdir_0"; "file_0.cpp"])
                 = Some (File EmptyString)))
       ∧ (∀ w0,
            faults w0 = [] → is_absolute cwd = true → fs_closed (fs w0) →
            fs w0 !! parent P = Some Dir →
            (∀ d, fs w0 !! P ≠ Some (File d)) →
            ∃ w1, generate_project_try G w0 = (Raise ZeroDivisionError, w1))
       ∧ (∀ w', script args w ≠ (0, w')))
  ∧ (1 ≤ subdirs args → (1 ≤ sources args → 1 ≤ headers args) →
     ∀ e w', program args w = (Raise e, w') → e ≠ ZeroDivisionError).
Proof.
  split_and!.
  - intros Hd.
    assert (program args w = (Raise ZeroDivisionError, w)) as Hp.
    { unfold program. apply bind_raise.
      destruct (module_level args w) as [r w0] eqn:Hm.
      by apply module_level_inv in Hm as [-> [[_ ->]|[? _]]]. }
    split; [done|]. unfold script. by rewrite Hp.
  - intros Hh Hs Hd.
    destruct (module_level args w) as [r w0] eqn:Hm. pose proof Hm as Hm'.
    apply module_level_inv in Hm' as [-> [[? _]|(_ & G & -> & Hl)]]; [lia|].
    exists G. split; [done|]. intros P.
    pose proof (loaded_layout _ _ Hl) as Hlay.
    destruct Hl as (_ & HS & HH & _ & Hspd & _).
    rewrite ceil_div_eq in Hspd by lia.
    assert (0 < SOURCES_PER_DIR G) as Hpos.
    { rewrite Hspd. apply ceil_div_pos; lia. }
    assert (source_rel G 0 = ["sources"; "subdir_0"; "file_0.cpp"]) as Hrel.
    { unfold source_rel, source_subdir, source_file. by rewrite Zdiv_0_l. }
    split_and!.
    + unfold get_source_subdir, py_floordiv.
      rewrite decide_False by lia. by rewrite Zdiv_0_l.
    + unfold get_source_template, py_mod. rewrite decide_True by lia. done.
    + intros w1 r w2 Hgen. rewrite <-Hrel.
      apply (zero_headers_partial G w1 r w2); (done || lia).
    + intros w1 Hf Hcwd Hcl Hpar Hnf.
      apply (zero_headers_total G w1); (done || lia).
    + intros w' Hrun.
      apply script_ok in Hrun as (G' & wp & Hm' & _ & _ & _ & _ & Hgen).
      rewrite Hm in Hm'. injection Hm' as <-.
      apply (zero_headers_partial G) in Hgen as [Hgen _]; (done || lia).
  - intros Hd Hsh e w' Hp. unfold program in Hp.
    apply bind_inv in Hp as [(G & w0 & Hm & Hmain)|(e' & Hm & _)]; last first.
    { apply module_level_inv in Hm as [_ [[? _]|(_ & G & [=] & _)]]. lia. }
    apply module_level_inv in Hm as [-> [[? _]|(_ & G' & [= <-] & Hl)]]; [lia|].
    destruct Hl as (_ & HS & HH & _ & Hspd & Hhpd & _).
    rewrite ceil_div_eq in Hspd, Hhpd by lia.
    revert Hmain. apply never_zde_main, never_zde_generate_project.
    + intros Hne. assert (1 ≤ sources args) as Hs.
      { rewrite <-HS. destruct (decide (1 ≤ NUMBER_OF_SOURCES G)); [done|].
        exfalso. apply Hne. unfold range.
        by replace (Z.to_nat (NUMBER_OF_SOURCES G)) with 0%nat by lia. }
      split; [|lia]. rewrite Hspd.
      pose proof (ceil_div_pos (sources args) (subdirs args)). lia.
    + intros Hne. assert (1 ≤ headers args) as Hh.
      { rewrite <-HH. destruct (decide (1 ≤ NUMBER_OF_HEADERS G)); [done|].
        exfalso. apply Hne. unfold range.
        by replace (Z.to_nat (NUMBER_OF_HEADERS G)) with 0%nat by lia. }
      rewrite Hhpd.
      pose proof (ceil_div_pos (headers args) (subdirs args)). lia.
Qed.

(** ** Runs that cannot fail

    Without scheduled faults, on a filesystem where the parent of the project
    directory is a directory and the target is not a regular file, every
    system call of the run finds what it needs. *)

Lemma set_fs_id (f : gmap Path node → gmap Path node) w :
  f (fs w) = fs w → set_fs f w = w.
Proof. intros H. unfold set_fs. rewrite H. by destruct w. Qed.

Lemma mkdir_or_exists_ensure p w :
  faults w = [] →
  fs w !! parent (absolute p) = Some Dir →
  fs w !! absolute p = None ∨ fs w !! absolute p = Some Dir →
  mkdir_or_exists p true w = (Ok tt, set_fs <[absolute p := Dir]> w).
Proof.
  intros Hf Hpar [Hp|Hp]; [by apply mkdir_or_exists_quiet|].
  rewrite set_fs_id by (by apply insert_id).
  unfold mkdir_or_exists, try_except, os_mkdir.
  rewrite (bind_step _ _ _ _ _ (io_point_quiet w Hf)). unfold io.
  rewrite Hp. cbn [is_OSError].
  erewrite bind_step by reflexivity.
  by rewrite bool_decide_true.
Qed.

Lemma os_makedirs_ensure p w :
  faults w = [] →
  fs w !! parent (absolute p) = Some Dir →
  fs w !! absolute p = None ∨ fs w !! absolute p = Some Dir →
  os_makedirs p true w = (Ok tt, set_fs <[absolute p := Dir]> w).
Proof.
  intros Hf Hpar Hp. unfold os_makedirs.
  destruct (reverse p) as [|c [|d l]] eqn:Hrev.
  - cbn [makedirs_rev]. rewrite pass_bind, <-Hrev, reverse_involutive.
    by apply mkdir_or_exists_ensure.
  - cbn [makedirs_rev]. rewrite pass_bind, <-Hrev, reverse_involutive.
    by apply mkdir_or_exists_ensure.
  - assert (p = reverse (d :: l) ++ [c]) as Hpeq.
    { by rewrite <-(reverse_involutive p), Hrev, reverse_cons. }
    assert (absolute p = absolute (reverse (d :: l)) ++ [c]) as Habs.
    { rewrite Hpeq at 1. apply absolute_snoc.
      intros Hnil. apply (f_equal reverse) in Hnil.
      by rewrite reverse_involutive in Hnil. }
    change (makedirs_rev (c :: d :: l) true) with
      ((b ← os_path_exists (reverse (d :: l));
        if (b : bool) then pass
        else try_except (makedirs_rev (d :: l) true)
               (λ e, if decide (e = FileExistsError) then pass else raise e)) ;;
       mkdir_or_exists (reverse (c :: d :: l)) true).
    erewrite bind_step; last first.
    { erewrite bind_step by reflexivity.
      rewrite Habs, parent_snoc in Hpar.
      rewrite bool_decide_true by (by rewrite Hpar). reflexivity. }
    rewrite <-Hrev, reverse_involutive. by apply mkdir_or_exists_ensure.
Qed.

Lemma open_w_total p w :
  faults w = [] → fs w !! absolute p ≠ Some Dir →
  fs w !! parent (absolute p) = Some Dir →
  open_w p w = (Ok tt, set_fs <[absolute p := File EmptyString]> w).
Proof.
  intros Hf Hp Hpar. unfold open_w.
  rewrite (bind_step _ _ _ _ _ (io_point_quiet w Hf)). unfold io.
  rewrite Hpar. by destruct (fs w !! absolute p) as [[|d]|].
Qed.

Lemma file_write_quiet p s w :
  faults w = [] →
  file_write p s w = (Ok tt, set_fs <[absolute p := File s]> w).
Proof.
  intros Hf. unfold file_write.
  by rewrite (bind_step _ _ _ _ _ (io_point_quiet w Hf)).
Qed.

Lemma for_each_total {A S} (I : list A → S → World → Prop)
    (body : S → A → IO S) xs acc w :
  I [] acc w →
  (∀ done x acc w, x ∈ xs → I done acc w →
     ∃ acc' w', body acc x w = (Ok acc', w') ∧ I (done ++ [x]) acc' w') →
  ∃ r w', for_each xs body acc w = (Ok r, w') ∧ I xs r w'.
Proof.
  intros H0 Hstep.
  enough (∀ done acc w, I done acc w →
            ∃ r w', for_each xs body acc w = (Ok r, w') ∧ I (done ++ xs) r w')
    as Hgen by (by apply (Hgen [] acc w)).
  induction xs as [|x xs IH]; intros done acc0 w0 HI; simpl.
  - exists acc0, w0. by rewrite app_nil_r.
  - destruct (Hstep _ x _ _ ltac:(by left) HI) as (acc1 & w1 & Hb & HI1).
    destruct (IH ltac:(intros; apply Hstep; [by right|done]) _ _ _ HI1)
      as (r & w' & Hr & HI').
    exists r, w'. rewrite (bind_step _ _ _ _ _ Hb).
    by rewrite (cons_middle x), app_assoc.
Qed.

(** What the source loop can have put at a path, and what it leaves alone. *)
Lemma foldl_put_source_lookup G P b l q n :
  foldl (put_source G P) b l !! q = Some n →
  (n = Dir ∧ ∃ i, q = P ++ ["sources"; source_subdir G i])
  ∨ (∃ i s, q = P ++ source_rel G i ∧ n = File s)
  ∨ b !! q = Some n.
Proof.
  revert n. induction l as [|i l IH] using rev_ind; intros n; [by auto|].
  rewrite foldl_snoc. unfold put_source at 1.
  rewrite !lookup_insert_Some.
  intros [[<- <-]|[_ [[<- <-]|[_ H]]]].
  - right; left. eauto.
  - left. eauto.
  - by apply IH.
Qed.

Lemma foldl_put_source_frame G P b l q :
  (∀ x, q ≠ P ++ "sources" :: x) →
  foldl (put_source G P) b l !! q = b !! q.
Proof.
  intros Hq. induction l as [|i l IH] using rev_ind; [done|].
  rewrite foldl_snoc. unfold put_source at 1.
  by rewrite !lookup_insert_ne by (intros <-; by eapply Hq).
Qed.

Lemma foldl_put_header_lookup G P b l q n :
  foldl (put_header G P) b l !! q = Some n →
  (n = Dir ∧ ∃ i, q = P ++ ["includes"; include_subdir G i])
  ∨ (∃ i s, q = P ++ header_rel G i ∧ n = File s)
  ∨ b !! q = Some n.
Proof.
  revert n. induction l as [|i l IH] using rev_ind; intros n; [by auto|].
  rewrite foldl_snoc. unfold put_header at 1.
  rewrite !lookup_insert_Some.
  intros [[<- <-]|[_ [[<- <-]|[_ H]]]].
  - right; left. eauto.
  - left. eauto.
  - by apply IH.
Qed.

Lemma foldl_put_header_frame G P b l q :
  (∀ x, q ≠ P ++ "includes" :: x) →
  foldl (put_header G P) b l !! q = b !! q.
Proof.
  intros Hq. induction l as [|i l IH] using rev_ind; [done|].
  rewrite foldl_snoc. unfold put_header at 1.
  by rewrite !lookup_insert_ne by (intros <-; by eapply Hq).
Qed.

Lemma path_div_source_subdir G p i :
  path_div p (source_subdir G i) = p ++ [source_subdir G i].
Proof. apply path_div_subdir. Qed.

Lemma path_div_include_subdir G p i :
  path_div p (include_subdir G i) = p ++ [include_subdir G i].
Proof. apply path_div_subdir. Qed.

Lemma path_div_source_file p i :
  path_div p ("file_" +:+ str i +:+ ".cpp") = p ++ [source_file i].
Proof. by apply path_div_file. Qed.

Lemma path_div_header_file p i :
  path_div p ("file_" +:+ str i +:+ ".h") = p ++ [header_file i].
Proof. by apply path_div_file. Qed.

Lemma source_iteration_total G (acc : list Path) i w :
  layout G → faults w = [] →
  SOURCES_PER_DIR G ≠ 0 → NUMBER_OF_HEADERS G ≠ 0 →
  let P := absolute (PROJECT_DIR G) in
  fs w !! (P ++ ["sources"]) = Some Dir →
  (∀ n, fs w !! (P ++ ["sources"; source_subdir G i]) = Some n → n = Dir) →
  fs w !! (P ++ source_rel G i) ≠ Some Dir →
  (sd ← lift (get_source_subdir G i);
   let subdir := path_div (SOURCES_DIR G) sd in
   os_makedirs subdir true ;;
   let source_path := path_div subdir ("file_" +:+ str i +:+ ".cpp") in
   open_w source_path ;;
   text ← lift (get_source_template G i);
   file_write source_path text ;;
   mret (acc ++ [source_path])) w
  = (Ok (acc ++ [source_path G i]),
     set_fs (λ m, put_source G P m i) w).
Proof.
  intros [Hsd _] Hf Hspd Hh P Hsrc Hsub Hfile. rewrite Hsd.
  assert (∀ x, is_absolute ("sources" :: x) = false) as Hrel by done.
  assert (lift (get_source_subdir G i) w = (Ok (source_subdir G i), w)) as Hlift.
  { unfold lift, get_source_subdir, py_floordiv.
    by rewrite decide_False by done. }
  rewrite (bind_step _ _ _ _ _ Hlift). cbv beta zeta.
  rewrite path_div_source_subdir, path_div_source_file.
  set (sd := source_subdir G i) in *.
  assert (absolute ((PROJECT_DIR G ++ ["sources"]) ++ [sd]) = P ++ ["sources"; sd])
    as Habs1 by (rewrite <-app_assoc; by rewrite absolute_app).
  assert (absolute (((PROJECT_DIR G ++ ["sources"]) ++ [sd]) ++ [source_file i])
          = P ++ source_rel G i) as Habs2.
  { rewrite <-!app_assoc. by rewrite absolute_app. }
  erewrite bind_step; last first.
  { apply os_makedirs_ensure; [done|rewrite Habs1..].
    - change (P ++ ["sources"; sd]) with (P ++ ["sources"] ++ [sd]).
      by rewrite app_assoc, parent_snoc.
    - destruct (fs w !! (P ++ ["sources"; sd])) as [n|] eqn:Hn; [|by left].
      right. by rewrite (Hsub n). }
  rewrite Habs1.
  erewrite bind_step; last first.
  { apply open_w_total; [done|rewrite Habs2..].
    - cbn [fs set_fs]. rewrite lookup_insert_ne; [done|].
      unfold source_rel. intros [=]%app_inv_head.
    - change (P ++ source_rel G i) with (P ++ ["sources"; sd] ++ [source_file i]).
      rewrite app_assoc, parent_snoc. cbn [fs set_fs].
      by rewrite lookup_insert_eq. }
  rewrite Habs2.
  erewrite bind_step; last first.
  { unfold lift. by rewrite get_source_template_eq. }
  erewrite bind_step; last first.
  { by apply file_write_quiet. }
  rewrite Habs2. unfold mret, IO_ret, set_fs, put_source, source_path.
  cbn [fs faults stdout]. rewrite insert_insert_eq.
  rewrite <-!app_assoc. done.
Qed.

Lemma header_iteration_total (G : Globals) (acc : gset Path) (i : Z) w :
  layout G → faults w = [] → HEADERS_PER_DIR G ≠ 0 →
  let P := absolute (PROJECT_DIR G) in
  fs w !! (P ++ ["includes"]) = Some Dir →
  (∀ n, fs w !! (P ++ ["includes"; include_subdir G i]) = Some n → n = Dir) →
  fs w !! (P ++ header_rel G i) ≠ Some Dir →
  (sd ← lift (get_include_subdir G i);
   let subdir := path_div (INCLUDES_DIR G) sd in
   os_makedirs subdir true ;;
   let all_include_dirs := acc ∪ {[subdir]} in
   let header_path := path_div subdir ("file_" +:+ str i +:+ ".h") in
   open_w header_path ;;
   file_write header_path (get_header_template i) ;;
   mret all_include_dirs) w
  = (Ok (acc ∪ {[include_dir G i]}),
     set_fs (λ m, put_header G P m i) w).
Proof.
  intros [_ Hinc] Hf Hhpd P Hdir Hsub Hfile. rewrite Hinc.
  assert (∀ x, is_absolute ("includes" :: x) = false) as Hrel by done.
  assert (lift (get_include_subdir G i) w = (Ok (include_subdir G i), w)) as Hlift.
  { unfold lift, get_include_subdir, py_floordiv.
    by rewrite decide_False by done. }
  rewrite (bind_step _ _ _ _ _ Hlift). cbv beta zeta.
  rewrite path_div_include_subdir, path_div_header_file.
  set (sd := include_subdir G i) in *.
  assert (absolute ((PROJECT_DIR G ++ ["includes"]) ++ [sd]) = P ++ ["includes"; sd])
    as Habs1 by (rewrite <-app_assoc; by rewrite absolute_app).
  assert (absolute (((PROJECT_DIR G ++ ["includes"]) ++ [sd]) ++ [header_file i])
          = P ++ header_rel G i) as Habs2.
  { rewrite <-!app_assoc. by rewrite absolute_app. }
  erewrite bind_step; last first.
  { apply os_makedirs_ensure; [done|rewrite Habs1..].
    - change (P ++ ["includes"; sd]) with (P ++ ["includes"] ++ [sd]).
      by rewrite app_assoc, parent_snoc.
    - destruct (fs w !! (P ++ ["includes"; sd])) as [n|] eqn:Hn; [|by left].
      right. by rewrite (Hsub n). }
  rewrite Habs1.
  erewrite bind_step; last first.
  { apply open_w_total; [done|rewrite Habs2..].
    - cbn [fs set_fs]. rewrite lookup_insert_ne; [done|].
      unfold header_rel. intros [=]%app_inv_head.
    - change (P ++ header_rel G i) with (P ++ ["includes"; sd] ++ [header_file i]).
      rewrite app_assoc, parent_snoc. cbn [fs set_fs].
      by rewrite lookup_insert_eq. }
  rewrite Habs2.
  erewrite bind_step; last first.
  { by apply file_write_quiet. }
  rewrite Habs2. unfold mret, IO_ret, set_fs, put_header, include_dir.
  cbn [fs faults stdout]. rewrite insert_insert_eq, get_header_template_eq.
  rewrite <-!app_assoc. done.
Qed.

Lemma generate_sources_total G w :
  layout G → faults w = [] →
  let P := absolute (PROJECT_DIR G) in
  fs w !! P = Some Dir →
  (∀ x, fs w !! (P ++ "sources" :: x) = None) →
  (range (NUMBER_OF_SOURCES G) ≠ [] →
   SOURCES_PER_DIR G ≠ 0 ∧ NUMBER_OF_HEADERS G ≠ 0) →
  ∃ w', generate_sources G w
        = (Ok (source_path G <$> range (NUMBER_OF_SOURCES G)), w')
    ∧ faults w' = []
    ∧ fs w' = foldl (put_source G P) (<[P ++ ["sources"] := Dir]> (fs w))
                (range (NUMBER_OF_SOURCES G)).
Proof.
  intros Hlay Hf P HP Hnone Hnz. pose proof Hlay as [Hsd _].
  unfold generate_sources. rewrite Hsd.
  erewrite bind_step; last first.
  { apply os_makedirs_quiet; [done|rewrite absolute_app by done; fold P..].
    - apply Hnone.
    - by rewrite parent_snoc. }
  rewrite absolute_app by done. fold P. rewrite <-Hsd.
  set (base := <[P ++ ["sources"] := Dir]> (fs w)).
  destruct (decide (range (NUMBER_OF_SOURCES G) = [])) as [Hnil|Hne].
  { rewrite Hnil. eexists. split; [reflexivity|]. done. }
  destruct (Hnz Hne) as [Hspd Hh].
  destruct (for_each_total (λ done acc w,
      acc = source_path G <$> done ∧ faults w = []
      ∧ fs w = foldl (put_source G P) base done)
      (λ all_sources i,
        sd ← lift (get_source_subdir G i);
        let subdir := path_div (SOURCES_DIR G) sd in
        os_makedirs subdir true ;;
        let source_path := path_div subdir ("file_" +:+ str i +:+ ".cpp") in
        open_w source_path ;;
        text ← lift (get_source_template G i);
        file_write source_path text ;;
        mret (all_sources ++ [source_path]))
      (range (NUMBER_OF_SOURCES G)) [] (set_fs <[P ++ ["sources"] := Dir]> w))
    as (r & w' & Hloop & -> & Hf' & Hfs').
  - done.
  - intros done i acc w0 _ (-> & Hf0 & Hfs0).
    eexists _, _. split.
    + apply source_iteration_total; try done; fold P; rewrite Hfs0.
      * destruct (foldl_put_is_Some (put_source G P) done base (P ++ ["sources"]))
          as [n Hn].
        { intros. by apply put_source_is_Some. }
        { unfold base. rewrite lookup_insert_eq. by eexists. }
        rewrite Hn. f_equal.
        apply foldl_put_source_lookup in Hn
          as [[-> _]|[(j & s & Hq & _)|Hb]]; [done| |].
        -- apply app_inv_head in Hq. done.
        -- unfold base in Hb. rewrite lookup_insert_eq in Hb. by injection Hb.
      * intros n Hn.
        apply foldl_put_source_lookup in Hn
          as [[-> _]|[(j & s & Hq & _)|Hb]]; [done| |].
        -- apply app_inv_head in Hq. done.
        -- unfold base in Hb. rewrite lookup_insert_ne in Hb.
           ++ by rewrite Hnone in Hb.
           ++ intros [=]%app_inv_head.
      * intros Hn.
        apply foldl_put_source_lookup in Hn
          as [[_ (j & Hq)]|[(j & s & _ & [=])|Hb]].
        -- apply app_inv_head in Hq. done.
        -- unfold base in Hb. rewrite lookup_insert_ne in Hb.
           ++ unfold source_rel in Hb. by rewrite Hnone in Hb.
           ++ intros [=]%app_inv_head.
    + split_and!; [by rewrite fmap_app|done|].
      cbn [fs set_fs]. by rewrite foldl_snoc, Hfs0.
  - exists w'. split_and!; [exact Hloop|done|done].
Qed.

Lemma generate_headers_total G w :
  layout G → faults w = [] →
  let P := absolute (PROJECT_DIR G) in
  fs w !! P = Some Dir →
  (∀ x, fs w !! (P ++ "includes" :: x) = None) →
  (range (NUMBER_OF_HEADERS G) ≠ [] → HEADERS_PER_DIR G ≠ 0) →
  ∃ w', generate_headers G w = (Ok (include_dirs G), w')
    ∧ faults w' = []
    ∧ fs w' = foldl (put_header G P) (<[P ++ ["includes"] := Dir]> (fs w))
                (range (NUMBER_OF_HEADERS G)).
Proof.
  intros Hlay Hf P HP Hnone Hnz. pose proof Hlay as [_ Hinc].
  unfold generate_headers. rewrite Hinc.
  erewrite bind_step; last first.
  { apply os_makedirs_quiet; [done|rewrite absolute_app by done; fold P..].
    - apply Hnone.
    - by rewrite parent_snoc. }
  rewrite absolute_app by done. fold P. rewrite <-Hinc.
  set (base := <[P ++ ["includes"] := Dir]> (fs w)).
  destruct (decide (range (NUMBER_OF_HEADERS G) = [])) as [Hnil|Hne].
  { unfold include_dirs, include_dir_set. rewrite Hnil.
    eexists. split; [reflexivity|]. done. }
  specialize (Hnz Hne).
  destruct (for_each_total (λ done (acc : gset Path) w,
      acc = list_to_set (include_dir G <$> done) ∧ faults w = []
      ∧ fs w = foldl (put_header G P) base done)
      (λ (all_include_dirs : gset Path) i,
        sd ← lift (get_include_subdir G i);
        let subdir := path_div (INCLUDES_DIR G) sd in
        os_makedirs subdir true ;;
        let all_include_dirs := all_include_dirs ∪ {[subdir]} in
        let header_path := path_div subdir ("file_" +:+ str i +:+ ".h") in
        open_w header_path ;;
        file_write header_path (get_header_template i) ;;
        mret all_include_dirs)
      (range (NUMBER_OF_HEADERS G)) ∅ (set_fs <[P ++ ["includes"] := Dir]> w))
    as (r & w' & Hloop & -> & Hf' & Hfs').
  - done.
  - intros done i acc w0 _ (-> & Hf0 & Hfs0).
    eexists _, _. split.
    + apply header_iteration_total; try done; fold P; rewrite Hfs0.
      * destruct (foldl_put_is_Some (put_header G P) done base (P ++ ["includes"]))
          as [n Hn].
        { intros. by apply put_header_is_Some. }
        { unfold base. rewrite lookup_insert_eq. by eexists. }
        rewrite Hn. f_equal.
        apply foldl_put_header_lookup in Hn
          as [[-> _]|[(j & s & Hq & _)|Hb]]; [done| |].
        -- apply app_inv_head in Hq. done.
        -- unfold base in Hb. rewrite lookup_insert_eq in Hb. by injection Hb.
      * intros n Hn.
        apply foldl_put_header_lookup in Hn
          as [[-> _]|[(j & s & Hq & _)|Hb]]; [done| |].
        -- apply app_inv_head in Hq. done.
        -- unfold base in Hb. rewrite lookup_insert_ne in Hb.
           ++ by rewrite Hnone in Hb.
           ++ intros [=]%app_inv_head.
      * intros Hn.
        apply foldl_put_header_lookup in Hn
          as [[_ (j & Hq)]|[(j & s & _ & [=])|Hb]].
        -- apply app_inv_head in Hq. done.
        -- unfold base in Hb. rewrite lookup_insert_ne in Hb.
           ++ unfold header_rel in Hb. by rewrite Hnone in Hb.
           ++ intros [=]%app_inv_head.
    + split_and!; [|done|].
      * rewrite fmap_app. simpl. by rewrite list_to_set_snoc_L.
      * cbn [fs set_fs]. by rewrite foldl_snoc, Hfs0.
  - exists w'. rewrite (bind_step _ _ _ _ _ Hloop). done.
Qed.

Lemma mapM_total {A B} (f : A → result B) (g : A → B) l :
  (∀ x, x ∈ l → f x = Ok (g x)) → mapM f l = Ok (g <$> l).
Proof.
  induction l as [|x l IH]; intros Hf; simpl; [done|].
  rewrite Hf by (by left). simpl.
  rewrite IH by (intros; apply Hf; by right). done.
Qed.

Lemma rel_posix_total G r :
  rel_posix G (PROJECT_DIR G ++ r) = Ok (as_posix (rel G (PROJECT_DIR G ++ r))).
Proof.
  unfold rel_posix, relative_to.
  rewrite decide_True by (by apply prefix_app_r). done.
Qed.

Lemma compile_entry_total G flags r w :
  compile_entry G flags (PROJECT_DIR G ++ r) w
  = (Ok (entry_of G flags (PROJECT_DIR G ++ r)), w).
Proof.
  unfold compile_entry, compile_argv, entry_of, argv_of, lift.
  rewrite !rel_posix_total. by destruct (endswith _ _).
Qed.

Lemma generate_compile_commands_total G w :
  faults w = [] →
  let P := absolute (PROJECT_DIR G) in
  fs w !! P = Some Dir →
  fs w !! (P ++ ["compile_commands.json"]) ≠ Some Dir →
  ∃ w', generate_compile_commands G
          (source_path G <$> range (NUMBER_OF_SOURCES G)) (include_dirs G) w
        = (Ok tt, w')
    ∧ faults w' = []
    ∧ fs w' = <[P ++ ["compile_commands.json"] := File (manifest_text G)]> (fs w).
Proof.
  intros Hf P HP Hman. unfold generate_compile_commands.
  erewrite bind_step; last first.
  { unfold lift.
    rewrite (mapM_total _ (λ d, "-I" +:+ as_posix (rel G d))); [reflexivity|].
    intros d Hd. rewrite sorted_Permutation in Hd.
    apply elem_of_include_dirs in Hd as (j & _ & ->).
    unfold include_dir. by rewrite rel_posix_total. }
  fold (include_flags_of G (include_dirs G)).
  change (include_flags_of G (include_dirs G)) with (manifest_flags G).
  rewrite path_div_component by apply manifest_component.
  assert (absolute (PROJECT_DIR G ++ ["compile_commands.json"])
          = P ++ ["compile_commands.json"]) as Habs by (by rewrite absolute_app).
  erewrite bind_step; last first.
  { apply open_w_total; [done|rewrite Habs..]; [done|].
    by rewrite parent_snoc. }
  rewrite Habs.
  set (w2 := set_fs <[P ++ ["compile_commands.json"] := File EmptyString]> w).
  destruct (for_each_total (λ done acc w',
      acc = entry_of G (manifest_flags G) <$> done ∧ w' = w2)
      (λ compile_commands source,
        entry ← compile_entry G (manifest_flags G) source;
        mret (compile_commands ++ [entry]))
      (source_path G <$> range (NUMBER_OF_SOURCES G)) [] w2)
    as (r & w' & Hloop & -> & ->).
  - done.
  - intros done x acc w0 Hx (-> & ->).
    apply list_elem_of_fmap in Hx as (i & -> & _). unfold source_path.
    eexists _, _. split.
    + erewrite bind_step by apply compile_entry_total. reflexivity.
    + by rewrite fmap_app.
  - rewrite (bind_step _ _ _ _ _ Hloop).
    rewrite file_write_quiet by done. rewrite Habs.
    eexists. split; [reflexivity|]. split; [done|].
    unfold w2. cbn [fs set_fs]. by rewrite insert_insert_eq.
Qed.

Lemma prepare_total G w :
  faults w = [] →
  let P := absolute (PROJECT_DIR G) in
  fs w !! parent P = Some Dir → P ≠ [] →
  (∀ d, fs w !! P ≠ Some (File d)) →
  ∃ wa, prepare G w = (Ok tt, wa) ∧ faults wa = []
    ∧ fs wa = <[P := Dir]> (cleared P (fs w)).
Proof.
  intros Hf P Hpar HPne Hnf.
  assert (∃ wa, (if bool_decide (is_Some (fs w !! P))
                 then print "Removing existing project" ;;
                      shutil_rmtree (PROJECT_DIR G) false
                 else pass) w = (Ok tt, wa)
            ∧ faults wa = [] ∧ fs wa = cleared P (fs w)) as (wa & Hif & Hfa & Hfsa).
  { unfold cleared. case_bool_decide as Hsome.
    - rewrite decide_True by done.
      destruct Hsome as [[|d] HP]; [|by apply Hnf in HP].
      eexists. split_and!.
      + erewrite bind_step by reflexivity. unfold shutil_rmtree.
        by apply rmtree_strict_quiet.
      + done.
      + done.
    - rewrite decide_False by done. by exists w. }
  assert (fs wa !! P = None) as Hnone.
  { rewrite Hfsa. destruct (decide (is_Some (fs w !! P))) as [Hs|Hs].
    - by apply cleared_under_dir.
    - unfold cleared. rewrite decide_False by done. by apply eq_None_not_Some. }
  assert (fs wa !! parent P = Some Dir) as Hpara.
  { rewrite Hfsa. unfold cleared. destruct (decide _); [|done].
    apply map_lookup_filter_Some. split; [done|]. simpl. intros Hpre.
    by eapply is_prefix_parent. }
  unfold prepare. erewrite bind_step by reflexivity. fold P.
  rewrite (bind_step _ _ _ _ _ Hif).
  rewrite (os_makedirs_quiet _ _ _ Hfa Hnone Hpara). fold P.
  eexists. split; [reflexivity|]. split; [done|].
  cbn [fs set_fs]. by rewrite Hfsa.
Qed.

Lemma generate_project_try_total G w :
  layout G → faults w = [] →
  let P := absolute (PROJECT_DIR G) in
  fs w !! parent P = Some Dir → P ≠ [] →
  (∀ d, fs w !! P ≠ Some (File d)) →
  (∀ q, P `prefix_of` q → cleared P (fs w) !! q = None) →
  (range (NUMBER_OF_SOURCES G) ≠ [] →
   SOURCES_PER_DIR G ≠ 0 ∧ NUMBER_OF_HEADERS G ≠ 0) →
  (range (NUMBER_OF_HEADERS G) ≠ [] → HEADERS_PER_DIR G ≠ 0) →
  ∃ w', generate_project_try G w = (Ok tt, w') ∧ faults w' = [].
Proof.
  intros Hlay Hf P Hpar HPne Hnf Hclr Hs Hh.
  destruct (prepare_total G w Hf Hpar HPne Hnf) as (wa & Hpre & Hfa & Hfsa).
  fold P in Hfsa.
  assert (∀ r, r ≠ [] → fs wa !! (P ++ r) = None) as Hbelow.
  { intros r Hr. rewrite Hfsa, lookup_insert_ne by (symmetry; by apply app_ne_self).
    apply Hclr. by apply prefix_app_r. }
  assert (fs wa !! P = Some Dir) as HPa by (by rewrite Hfsa, lookup_insert_eq).
  destruct (generate_sources_total G wa Hlay Hfa HPa
              ltac:(by intros; apply Hbelow) Hs) as (wb & Hsrc & Hfb & Hfsb).
  fold P in Hfsb.
  assert (fs wb !! P = Some Dir) as HPb.
  { rewrite Hfsb, foldl_put_source_frame.
    - by rewrite lookup_insert_ne by (by apply app_ne_self).
    - intros x Hx. symmetry in Hx. by apply app_ne_self in Hx. }
  assert (∀ c x, c ≠ "sources" → fs wb !! (P ++ c :: x) = None) as Hbelowb.
  { intros c x Hc. rewrite Hfsb, foldl_put_source_frame.
    - rewrite lookup_insert_ne; [by apply Hbelow|].
      intros [=]%app_inv_head. by apply Hc.
    - intros y [=]%app_inv_head. by apply Hc. }
  destruct (generate_headers_total G wb Hlay Hfb HPb
              ltac:(by intros; apply Hbelowb) Hh) as (wc & Hhdr & Hfc & Hfsc).
  fold P in Hfsc.
  assert (fs wc !! P = Some Dir) as HPc.
  { rewrite Hfsc, foldl_put_header_frame.
    - by rewrite lookup_insert_ne by (by apply app_ne_self).
    - intros x Hx. symmetry in Hx. by apply app_ne_self in Hx. }
  assert (fs wc !! (P ++ ["compile_commands.json"]) ≠ Some Dir) as Hman.
  { rewrite Hfsc, foldl_put_header_frame by (by intros y [=]%app_inv_head).
    rewrite lookup_insert_ne by (by intros [=]%app_inv_head).
    by rewrite Hbelowb. }
  destruct (generate_compile_commands_total G wc Hfc HPc Hman)
    as (wd & Hcc & Hfd & _).
  exists wd. split; [|done].
  rewrite generate_project_try_prepare.
  by rewrite (bind_step _ _ _ _ _ Hpre), (bind_step _ _ _ _ _ Hsrc),
    (bind_step _ _ _ _ _ Hhdr).
Qed.

(** A successful [os.makedirs] of an absent target leaves its parent a
    directory, and so does a complete run. *)
Lemma parent_ne (P : Path) : P ≠ [] → parent P ≠ P.
Proof. intros HP H. by apply (is_prefix_parent P P). Qed.

Lemma mkdir_or_exists_parent p eo w w' :
  absolute p ≠ [] → fs w !! absolute p = None →
  mkdir_or_exists p eo w = (Ok tt, w') →
  fs w' !! parent (absolute p) = Some Dir.
Proof.
  intros Hne Hnone H.
  apply mkdir_or_exists_inv in H as [(_ & Hfs & [[_ Hpar]|[_ Hd]])|(? & [=] & _)].
  - rewrite Hfs, lookup_insert_ne; [done|]. intros Heq. by eapply parent_ne.
  - by rewrite Hnone in Hd.
Qed.

Lemma makedirs_rev_parent rname eo w w' :
  absolute (reverse rname) ≠ [] → fs w !! absolute (reverse rname) = None →
  makedirs_rev rname eo w = (Ok tt, w') →
  fs w' !! parent (absolute (reverse rname)) = Some Dir.
Proof.
  intros Hne Hnone.
  destruct rname as [|c [|d l]].
  - simpl. rewrite pass_bind. by apply mkdir_or_exists_parent.
  - simpl. rewrite pass_bind. by apply mkdir_or_exists_parent.
  - assert (absolute (reverse (c :: d :: l))
            = absolute (reverse (d :: l)) ++ [c]) as Habs.
    { rewrite (reverse_cons _ c). apply absolute_snoc.
      intros Hnil. apply (f_equal reverse) in Hnil.
      by rewrite reverse_involutive in Hnil. }
    change (makedirs_rev (c :: d :: l) eo) with
      ((b ← os_path_exists (reverse (d :: l));
        if (b : bool) then pass
        else try_except (makedirs_rev (d :: l) eo)
               (λ e, if decide (e = FileExistsError) then pass else raise e)) ;;
       mkdir_or_exists (reverse (c :: d :: l)) eo).
    intros H. apply bind_ok in H as ([] & w1 & Hhead & H).
    apply mkdir_or_exists_parent in H; [done|done|].
    rewrite <-Hnone.
    apply bind_ok in Hhead as (b & w0 & [= <- <-] & Hhead).
    destruct (bool_decide _); [by injection Hhead as <-|].
    assert (¬ absolute (reverse (c :: d :: l))
              `prefix_of` absolute (reverse (d :: l))) as Hnp.
    { rewrite Habs. intros Hp%prefix_length. rewrite length_app in Hp.
      simpl in Hp. lia. }
    apply try_except_inv in Hhead as [(a & Hrec & _)|(e & w2 & Hrec & Hh)].
    + apply makedirs_rev_frame in Hrec as (Hfr & _). by apply Hfr.
    + apply makedirs_rev_frame in Hrec as (Hfr & _). destruct (decide _); [|done].
      injection Hh as <-. by apply Hfr.
Qed.

Lemma os_makedirs_parent p eo w w' :
  absolute p ≠ [] → fs w !! absolute p = None →
  os_makedirs p eo w = (Ok tt, w') →
  fs w' !! parent (absolute p) = Some Dir.
Proof.
  intros Hne Hnone H. unfold os_makedirs in H.
  apply makedirs_rev_parent in H; by rewrite reverse_involutive in *.
Qed.

Lemma prepare_parent G w wa :
  absolute (PROJECT_DIR G) ≠ [] →
  prepare G w = (Ok tt, wa) →
  fs wa !! parent (absolute (PROJECT_DIR G)) = Some Dir.
Proof.
  intros HPne H. set (P := absolute (PROJECT_DIR G)) in *. unfold prepare in H.
  apply bind_ok in H as (b & w0 & Hex & H).
  apply os_path_exists_inv in Hex as [-> [= ->]]. fold P in H.
  apply bind_ok in H as ([] & w1 & Hrm & H).
  apply os_makedirs_parent in H; [done|done|]. fold P.
  case_bool_decide as Hsome.
  - apply bind_ok in Hrm as ([] & wp & Hpr & Hrm).
    apply print_inv in Hpr as (_ & Hfsp & _).
    apply rmtree_strict_inv in Hrm as [(_ & _ & Hfs)|(? & [=] & _)].
    rewrite Hfs. apply map_lookup_filter_None. right. intros n _ Hn.
    by apply Hn.
  - injection Hrm as <-. by apply eq_None_not_Some.
Qed.

Lemma generate_project_try_parent G w w' :
  layout G → absolute (PROJECT_DIR G) ≠ [] →
  generate_project_try G w = (Ok tt, w') →
  fs w' !! parent (absolute (PROJECT_DIR G)) = Some Dir.
Proof.
  intros Hlay HPne H. set (P := absolute (PROJECT_DIR G)) in *.
  assert (∀ r, parent P ≠ P ++ r) as Hout.
  { intros r Heq. eapply (is_prefix_parent P); [done| |done].
    by apply prefix_app_r. }
  rewrite generate_project_try_prepare in H.
  apply bind_ok in H as ([] & wa & Hpre & H).
  pose proof (prepare_parent _ _ _ HPne Hpre) as Hpar. fold P in Hpar.
  apply prepare_ok in Hpre as [HP _]. fold P in HP.
  apply bind_ok in H as (srcs & wb & Hsrc & H).
  apply generate_sources_ok in Hsrc as (-> & _ & Hfsb & _); [|done|by eauto].
  fold P in Hfsb.
  apply bind_ok in H as (dirs & wc & Hhdr & H).
  apply generate_headers_ok in Hhdr as (-> & _ & Hfsc & _); [|done|]; last first.
  { intros _. fold P. rewrite Hfsb, foldl_put_source_frame.
    - rewrite lookup_insert_ne by (by apply app_ne_self). by eauto.
    - intros x Hx. symmetry in Hx. by apply app_ne_self in Hx. }
  fold P in Hfsc.
  apply generate_compile_commands_ok in H. fold P in H.
  rewrite H, lookup_insert_ne by (intros Heq; by eapply Hout).
  rewrite Hfsc, foldl_put_header_frame by (intros x Heq; by eapply Hout).
  rewrite lookup_insert_ne by (intros Heq; by eapply Hout).
  rewrite Hfsb, foldl_put_source_frame by (intros x Heq; by eapply Hout).
  by rewrite lookup_insert_ne by (intros Heq; by eapply Hout).
Qed.

(** The whole script, when nothing can go wrong. *)
Lemma script_total args G w :
  module_level args w = (Ok G, w) → layout G →
  faults w = [] →
  (∃ d, fs w !! absolute (path_of_string (COMPILER_PATH G)) = Some (File d)) →
  let P := absolute (PROJECT_DIR G) in
  fs w !! parent P = Some Dir → P ≠ [] →
  (∀ d, fs w !! P ≠ Some (File d)) →
  (∀ q, P `prefix_of` q → cleared P (fs w) !! q = None) →
  (range (NUMBER_OF_SOURCES G) ≠ [] →
   SOURCES_PER_DIR G ≠ 0 ∧ NUMBER_OF_HEADERS G ≠ 0) →
  (range (NUMBER_OF_HEADERS G) ≠ [] → HEADERS_PER_DIR G ≠ 0) →
  ∃ w', script args w = (0, w') ∧ faults w' = [].
Proof.
  intros Hm Hlay Hf [d Hc] P Hpar HPne Hnf Hclr Hs Hh.
  set (wp := mkWorld (fs w) (faults w)
               (stdout w ++ ["Generating project at " +:+ as_posix (PROJECT_DIR G)])).
  destruct (generate_project_try_total G wp Hlay Hf Hpar HPne Hnf Hclr Hs Hh)
    as (w' & Htry & Hf').
  exists w'. split; [|done].
  apply (script_status args G w (Ok tt) w' Hm).
  - unfold os_path_isfile. by rewrite Hc.
  - unfold generate_project.
    erewrite bind_step by reflexivity. fold wp.
    unfold try_except. by rewrite Htry.
Qed.

(** C7.  After a run that exits with status 0, a second run with the same
    arguments that also exits with status 0 leaves, at and below the project
    directory, the filesystem the first run left: the same entries with the
    same contents, hence the same set of files under every subdirectory.
    The second run starts by removing everything the first one had left
    there; and it does exit with status 0 when no system call fails and the
    compiler is still a file. *)
Theorem C7_rerun_identical args w w1 :
  is_absolute cwd = true → fs_closed (fs w) →
  script args w = (0, w1) →
  ∃ G, module_level args w = (Ok G, w) ∧ module_level args w1 = (Ok G, w1) ∧
    let P := absolute (PROJECT_DIR G) in
    fs w1 !! P = Some Dir
    ∧ (∀ w0 wa, fs w0 = fs w1 → prepare G w0 = (Ok tt, wa) →
         fs wa !! P = Some Dir
         ∧ ∀ q, P `prefix_of` q → q ≠ P → fs wa !! q = None)
    ∧ (∀ w2, script args w1 = (0, w2) →
         (∀ q, P `prefix_of` q → fs w2 !! q = fs w1 !! q)
         ∧ (∀ d, files_under (fs w2) (P ++ d) = files_under (fs w1) (P ++ d)))
    ∧ (faults w1 = [] →
       (∃ d, fs w1 !! absolute (path_of_string (compiler args)) = Some (File d)) →
       ∃ w2, script args w1 = (0, w2)).
Proof.
  intros Hcwd Hcl Hrun1.
  apply script_ok in Hrun1 as (G & wp & Hm & Hl & _ & _ & Hfs & Hgen).
  pose proof (module_level_indep _ _ _ _ w1 Hm) as Hm1.
  exists G. split; [done|]. split; [done|]. intros P.
  pose proof (loaded_layout _ _ Hl) as Hlay.
  assert (P ≠ []) as HPne by (by apply absolute_nonempty).
  pose proof (try_in_project G wp w1 Hlay Hgen) as H1.
  cbn zeta in H1. fold P in H1. rewrite Hfs in H1.
  specialize (H1 (λ q, cleared_under P (fs w) q HPne Hcl)).
  assert (fs w1 !! P = Some Dir) as HP.
  { apply H1; [done|]. by left. }
  split_and!; [done| | |].
  - intros w0 wa Hw0 Hpre. apply prepare_ok in Hpre as [Hdir Hfr].
    split; [done|]. intros q Hq Hne. rewrite Hfr, Hw0.
    + apply cleared_under_dir; [by eauto|done].
    + intros Hq'. apply Hne. by apply (anti_symm prefix).
  - intros w2 Hrun2.
    apply script_ok in Hrun2 as (G' & wp' & Hm' & _ & _ & _ & Hfs' & Hgen').
    rewrite Hm1 in Hm'. injection Hm' as <-.
    pose proof (try_in_project G wp' w2 Hlay Hgen') as H2.
    cbn zeta in H2. fold P in H2. rewrite Hfs' in H2.
    specialize (H2 (λ q, cleared_under_dir P (fs w1) q
                           (ex_intro _ Dir HP))).
    assert (∀ q, P `prefix_of` q → fs w2 !! q = fs w1 !! q) as Heq.
    { intros q Hq. apply option_eq. intros n. by rewrite H1, H2. }
    split; [done|].
    intros d. apply set_eq. intros q. rewrite !elem_of_files_under.
    split; intros [Hd Hs]; (split; [done|]).
    + rewrite <-Heq; [done|]. by eapply prefix_app_l.
    + rewrite Heq; [done|]. by eapply prefix_app_l.
  - intros Hf Hc.
    pose proof (generate_project_try_parent G wp w1 Hlay HPne Hgen) as Hpar.
    apply generate_project_try_ok in Hgen as (_ & _ & _ & _ & Hs & Hh); [|done].
    destruct Hl as (Hcomp & _). rewrite <-Hcomp in Hc.
    assert (∀ d, fs w1 !! P ≠ Some (File d)) as Hnf by (by rewrite HP).
    assert (∀ q, P `prefix_of` q → cleared P (fs w1) !! q = None) as Hclr.
    { intros q Hq. apply cleared_under_dir; [by eauto|done]. }
    destruct (script_total args G w1 Hm1 Hlay Hf Hc Hpar HPne Hnf Hclr Hs Hh)
      as (w2 & Hrun2 & _).
    by exists w2.
Qed.

(** ** What a run leaves alone *)

Lemma kept_outside_refl P : Reflexive (kept_outside P).
Proof. intros w q n _. auto. Qed.

Lemma kept_outside_trans P : Transitive (kept_outside P).
Proof.
  intros w1 w2 w3 H12 H23 q n Hq.
  destruct (H12 q n Hq) as [Ha Hb]. destruct (H23 q n Hq) as [Hc Hd].
  split; [auto|]. intros H3. destruct (Hd H3) as [H2|H2]; auto.
Qed.

#[global] Existing Instance kept_outside_refl.
#[global] Existing Instance kept_outside_trans.

Lemma undisturbed_refl P : Reflexive (undisturbed P).
Proof. intros w. split; [done|reflexivity]. Qed.

Lemma undisturbed_trans P : Transitive (undisturbed P).
Proof.
  intros w1 w2 w3 [Ho12 H12] [Ho23 H23]. split; [congruence|by etrans].
Qed.

#[global] Existing Instance undisturbed_refl.
#[global] Existing Instance undisturbed_trans.

Lemma respects_mret {A} R `{!Reflexive R} (a : A) : respects R (mret a).
Proof. by intros w r w' [= _ <-]. Qed.

Lemma respects_pass R `{!Reflexive R} : respects R pass.
Proof. by intros w r w' [= _ <-]. Qed.

Lemma respects_lift {A} R `{!Reflexive R} (x : result A) : respects R (lift x).
Proof. by intros w r w' [= _ <-]. Qed.

Lemma respects_raise {A} R `{!Reflexive R} e : respects R (raise e : IO A).
Proof. by intros w r w' [= _ <-]. Qed.

Lemma respects_bind {A B} R `{!Transitive R} (c : IO A) (k : A → IO B) :
  respects R c → (∀ a, respects R (k a)) → respects R (c ≫= k).
Proof.
  intros Hc Hk w r w' H.
  apply bind_inv in H as [(a & w1 & Hc1 & H)|(e & Hc1 & ->)].
  - etrans; [by eapply Hc|by eapply Hk].
  - by eapply Hc.
Qed.

Lemma respects_try_except {A} R `{!Transitive R} (c : IO A) h :
  respects R c → (∀ e, respects R (h e)) → respects R (try_except c h).
Proof.
  intros Hc Hh w r w' H.
  apply try_except_inv in H as [(a & Hc1 & _)|(e & w1 & Hc1 & H)].
  - by eapply Hc.
  - etrans; [by eapply Hc|by eapply Hh].
Qed.

Lemma respects_for_each {A S} R `{!PreOrder R} (xs : list A) (body : S → A → IO S) acc :
  (∀ x acc, x ∈ xs → respects R (body acc x)) →
  respects R (for_each xs body acc).
Proof.
  revert acc. induction xs as [|x xs IH]; intros acc Hb; cbn [for_each].
  - apply respects_mret, _.
  - apply respects_bind; [apply _|apply Hb; by left|].
    intros acc'. apply IH. intros y acc'' Hy. apply Hb. by right.
Qed.

Lemma respects_weaken {A} (R R' : World → World → Prop) (c : IO A) :
  (∀ w w', R w w' → R' w w') → respects R c → respects R' c.
Proof. intros HR Hc w r w' H. by eapply HR, Hc. Qed.

Lemma undisturbed_same P w w' :
  stdout w' = stdout w → fs w' = fs w → undisturbed P w w'.
Proof. intros Ho Hfs. split; [done|]. intros q n _. rewrite Hfs. auto. Qed.

(** Writing at or below [P]. *)
Lemma undisturbed_below P k v w w' :
  P `prefix_of` k →
  stdout w' = stdout w → fs w' = <[k := v]> (fs w) → undisturbed P w w'.
Proof.
  intros Hk Ho Hfs. split; [done|]. intros q n Hq. rewrite Hfs.
  rewrite lookup_insert_ne by (by intros <-). auto.
Qed.

(** Creating a directory that was not there. *)
Lemma undisturbed_mkdir P k w w' :
  near P k → fs w !! k = None →
  stdout w' = stdout w → fs w' = <[k := Dir]> (fs w) → undisturbed P w w'.
Proof.
  intros Hk Hnone Ho Hfs. split; [done|]. intros q n Hq. rewrite Hfs.
  destruct (decide (k = q)) as [->|Hne].
  - rewrite lookup_insert_eq, Hnone. split; [done|]. intros [= <-].
    right. split; [done|]. by destruct Hk.
  - rewrite lookup_insert_ne by done. auto.
Qed.

Lemma io_point_same w r w' :
  io_point w = (r, w') → stdout w' = stdout w ∧ fs w' = fs w.
Proof. unfold io_point. by destruct (faults w) as [|[] l]; intros [= <- <-]. Qed.

Lemma respects_os_mkdir P p :
  near P (absolute p) → respects (undisturbed P) (os_mkdir p).
Proof.
  intros Hn w r w' H. unfold os_mkdir in H.
  apply bind_inv in H as [([] & w1 & Hp & H)|(e & Hp & ->)];
    apply io_point_same in Hp as [Ho Hfs]; [|by apply undisturbed_same].
  etrans; [by apply undisturbed_same|]. unfold io in H.
  destruct (fs w1 !! absolute p) as [n|] eqn:Hq.
  { injection H as <- <-. reflexivity. }
  destruct (fs w1 !! parent (absolute p)) as [[|d]|];
    injection H as <- <-; try reflexivity.
  by eapply undisturbed_mkdir.
Qed.

Lemma respects_mkdir_or_exists P name eo :
  near P (absolute name) → respects (undisturbed P) (mkdir_or_exists name eo).
Proof.
  intros Hn. unfold mkdir_or_exists.
  apply respects_try_except; [apply _|by apply respects_os_mkdir|].
  intros e. destruct (is_OSError e); [|by apply respects_raise].
  apply respects_bind; [apply _| |].
  - intros w r w' [= _ <-]. reflexivity.
  - intros isd. destruct (_ || _); [by apply respects_raise|by apply respects_pass].
Qed.

Lemma near_parent P (q : Path) c : near P (q ++ [c]) → near P q.
Proof.
  intros [H|H].
  - left. etrans; [|exact H]. by apply prefix_app_r.
  - destruct (decide (P = q ++ [c])) as [->|Hne].
    + left. by apply prefix_app_r.
    + right. destruct H as [t Ht].
      destruct t as [|x t _] using rev_ind.
      { rewrite app_nil_r in Ht. by subst. }
      rewrite app_assoc in Ht. apply app_inj_tail in Ht as [-> _].
      by apply prefix_app_r.
Qed.

Lemma respects_makedirs_rev P rname eo :
  near P (absolute (reverse rname)) →
  respects (undisturbed P) (makedirs_rev rname eo).
Proof.
  induction rname as [|c rhead IH]; intros Hn.
  { simpl. apply respects_bind; [apply _|by apply respects_pass|].
    intros _. by apply respects_mkdir_or_exists. }
  destruct rhead as [|d l].
  { simpl. apply respects_bind; [apply _|by apply respects_pass|].
    intros _. by apply respects_mkdir_or_exists. }
  assert (absolute (reverse (c :: d :: l))
          = absolute (reverse (d :: l)) ++ [c]) as Habs.
  { rewrite (reverse_cons _ c). apply absolute_snoc.
    intros Hnil. apply (f_equal reverse) in Hnil.
    by rewrite reverse_involutive in Hnil. }
  change (makedirs_rev (c :: d :: l) eo) with
    ((b ← os_path_exists (reverse (d :: l));
      if (b : bool) then pass
      else try_except (makedirs_rev (d :: l) eo)
             (λ e, if decide (e = FileExistsError) then pass else raise e)) ;;
     mkdir_or_exists (reverse (c :: d :: l)) eo).
  apply respects_bind; [apply _| |intros _; by apply respects_mkdir_or_exists].
  apply respects_bind; [apply _| |].
  - intros w r w' [= _ <-]. reflexivity.
  - intros b. destruct b; [by apply respects_pass|].
    apply respects_try_except; [apply _| |].
    + apply IH. rewrite Habs in Hn. by eapply near_parent.
    + intros e. destruct (decide _); [by apply respects_pass|by apply respects_raise].
Qed.

Lemma respects_os_makedirs P p eo :
  near P (absolute p) → respects (undisturbed P) (os_makedirs p eo).
Proof.
  intros Hn. unfold os_makedirs. apply respects_makedirs_rev.
  by rewrite reverse_involutive.
Qed.

Lemma respects_rmtree_strict P p :
  P `prefix_of` absolute p → respects (undisturbed P) (rmtree_strict p).
Proof.
  intros Hp w r w' H. unfold rmtree_strict in H.
  apply bind_inv in H as [([] & w1 & Hio & H)|(e & Hio & ->)];
    apply io_point_same in Hio as [Ho Hfs]; [|by apply undisturbed_same].
  etrans; [by apply undisturbed_same|]. unfold io in H.
  destruct (fs w1 !! absolute p) as [[|d]|]; injection H as <- <-;
    try reflexivity.
  split; [done|]. intros q n Hq. cbn [fs set_fs].
  rewrite map_lookup_filter_Some. simpl. split; [|tauto].
  intros Hn. split; [done|]. intros Hpre. apply Hq. by etrans.
Qed.

Lemma respects_shutil_rmtree P p ie :
  P `prefix_of` absolute p → respects (undisturbed P) (shutil_rmtree p ie).
Proof.
  intros Hp. unfold shutil_rmtree. destruct ie; [|by apply respects_rmtree_strict].
  apply respects_try_except; [apply _|by apply respects_rmtree_strict|].
  intros _. by apply respects_pass.
Qed.

Lemma respects_open_w P p :
  P `prefix_of` absolute p → respects (undisturbed P) (open_w p).
Proof.
  intros Hp w r w' H. unfold open_w in H.
  apply bind_inv in H as [([] & w1 & Hio & H)|(e & Hio & ->)];
    apply io_point_same in Hio as [Ho Hfs]; [|by apply undisturbed_same].
  etrans; [by apply undisturbed_same|]. unfold io in H.
  destruct (fs w1 !! absolute p) as [[|d]|].
  { injection H as <- <-. reflexivity. }
  all: destruct (fs w1 !! parent (absolute p)) as [[|d']|];
    injection H as <- <-; try reflexivity; by eapply undisturbed_below.
Qed.

Lemma respects_file_write P p s :
  P `prefix_of` absolute p → respects (undisturbed P) (file_write p s).
Proof.
  intros Hp w r w' H. unfold file_write in H.
  apply bind_inv in H as [([] & w1 & Hio & H)|(e & Hio & ->)];
    apply io_point_same in Hio as [Ho Hfs]; [|by apply undisturbed_same].
  etrans; [by apply undisturbed_same|]. injection H as <- <-.
  by eapply undisturbed_below.
Qed.

Lemma get_source_subdir_shape G i sd :
  get_source_subdir G i = Ok sd → sd = source_subdir G i.
Proof.
  unfold get_source_subdir, py_floordiv. destruct (decide _); [done|].
  by intros [= <-].
Qed.

Lemma get_include_subdir_shape G i sd :
  get_include_subdir G i = Ok sd → sd = include_subdir G i.
Proof.
  unfold get_include_subdir, py_floordiv. destruct (decide _); [done|].
  by intros [= <-].
Qed.

Lemma respects_lift_bind {A B} R `{!Reflexive R} (x : result A) (k : A → IO B) :
  (∀ a, x = Ok a → respects R (k a)) → respects R (lift x ≫= k).
Proof.
  intros Hk w r w' H. destruct x as [a|e].
  - by eapply Hk.
  - injection H as _ <-. reflexivity.
Qed.

Lemma respects_generate_sources G :
  layout G →
  respects (undisturbed (absolute (PROJECT_DIR G))) (generate_sources G).
Proof.
  intros [Hsd _]. set (P := absolute (PROJECT_DIR G)).
  assert (∀ x, is_absolute ("sources" :: x) = false) as Hrel by done.
  unfold generate_sources. rewrite Hsd.
  apply respects_bind; [apply _| |intros _].
  { apply respects_os_makedirs. right. rewrite absolute_app by done.
    by apply prefix_app_r. }
  apply respects_for_each; [split; apply _|]. intros i acc _.
  apply respects_lift_bind; [apply _|]. intros sd ->%get_source_subdir_shape.
  cbv zeta. rewrite path_div_source_subdir, path_div_source_file.
  rewrite <-!app_assoc. cbn [app].
  apply respects_bind; [apply _| |intros _].
  { apply respects_os_makedirs. right. rewrite absolute_app by done.
    by apply prefix_app_r. }
  apply respects_bind; [apply _| |intros _].
  { apply respects_open_w. rewrite absolute_app by done. by apply prefix_app_r. }
  apply respects_lift_bind; [apply _|]. intros text _.
  apply respects_bind; [apply _| |intros _; by apply respects_mret].
  apply respects_file_write. rewrite absolute_app by done. by apply prefix_app_r.
Qed.

Lemma respects_generate_headers G :
  layout G →
  respects (undisturbed (absolute (PROJECT_DIR G))) (generate_headers G).
Proof.
  intros [_ Hinc]. set (P := absolute (PROJECT_DIR G)).
  assert (∀ x, is_absolute ("includes" :: x) = false) as Hrel by done.
  unfold generate_headers. rewrite Hinc.
  apply respects_bind; [apply _| |intros _].
  { apply respects_os_makedirs. right. rewrite absolute_app by done.
    by apply prefix_app_r. }
  apply respects_bind; [apply _| |intros; by apply respects_mret].
  apply respects_for_each; [split; apply _|]. intros i acc _.
  apply respects_lift_bind; [apply _|]. intros sd ->%get_include_subdir_shape.
  cbv zeta. rewrite path_div_include_subdir, path_div_header_file.
  rewrite <-!app_assoc. cbn [app].
  apply respects_bind; [apply _| |intros _].
  { apply respects_os_makedirs. right. rewrite absolute_app by done.
    by apply prefix_app_r. }
  apply respects_bind; [apply _| |intros _].
  { apply respects_open_w. rewrite absolute_app by done. by apply prefix_app_r. }
  apply respects_bind; [apply _| |intros _; by apply respects_mret].
  apply respects_file_write. rewrite absolute_app by done. by apply prefix_app_r.
Qed.

Lemma respects_generate_compile_commands G srcs dirs :
  respects (undisturbed (absolute (PROJECT_DIR G)))
    (generate_compile_commands G srcs dirs).
Proof.
  set (P := absolute (PROJECT_DIR G)). unfold generate_compile_commands.
  apply respects_lift_bind; [apply _|]. intros flags _. cbv zeta.
  rewrite path_div_component by apply manifest_component.
  assert (P `prefix_of` absolute (PROJECT_DIR G ++ ["compile_commands.json"]))
    as Hpre by (rewrite absolute_app by done; by apply prefix_app_r).
  apply respects_bind; [apply _|by apply respects_open_w|intros _].
  apply respects_bind; [apply _| |intros; by apply respects_file_write].
  apply respects_for_each; [split; apply _|]. intros source acc _.
  apply respects_bind; [apply _| |intros; by apply respects_mret].
  unfold compile_entry.
  apply respects_lift_bind; [apply _|]. intros argv _.
  apply respects_lift_bind; [apply _|]. intros file _.
  by apply respects_mret.
Qed.

(** ** The outcomes of the script *)

Lemma generate_project_eq G w r w1 :
  generate_project_try G
    (mkWorld (fs w) (faults w)
       (stdout w ++ ["Generating project at " +:+ as_posix (PROJECT_DIR G)]))
  = (r, w1) →
  generate_project G w
  = match r with
    | Ok a => (Ok a, w1)
    | Raise e => generate_project_except G e w1
    end.
Proof.
  intros Htry. unfold generate_project.
  erewrite bind_step by reflexivity. unfold try_except. by rewrite Htry.
Qed.

(** The three ways a run can go: the module fails to load, the compiler is
    not there, or the generation is attempted and either completes or is
    undone by the handler. *)
Lemma script_cases args w st w' :
  script args w = (st, w') →
  (subdirs args = 0 ∧ st = 1 ∧ w' = w)
  ∨ ∃ G, module_level args w = (Ok G, w) ∧ loaded args G ∧
      ((os_path_isfile (path_of_string (compiler args)) w = (Ok false, w)
        ∧ st = 1
        ∧ w' = mkWorld (fs w) (faults w)
                 (stdout w ++ ["No compiler at " +:+ compiler args]))
       ∨ (os_path_isfile (path_of_string (compiler args)) w = (Ok true, w)
          ∧ ∃ r w1,
              generate_project_try G
                (mkWorld (fs w) (faults w)
                   (stdout w
                    ++ ["Generating project at " +:+ as_posix (PROJECT_DIR G)]))
              = (r, w1)
              ∧ match r with
                | Ok _ => st = 0 ∧ w' = w1
                | Raise e =>
                    st = 1 ∧ generate_project_except G e w1 = (Raise e, w')
                end)).
Proof.
  unfold script, program. intros H.
  destruct (module_level args w) as [rm wm] eqn:Hm.
  pose proof (module_level_inv _ _ _ _ Hm) as [-> [[Hd ->]|(Hd & G & -> & Hl)]].
  { left. rewrite (bind_raise _ _ _ _ _ Hm) in H. by injection H as <- <-. }
  right. exists G. split; [done|]. split; [done|].
  pose proof Hl as (Hc & _). rewrite <-Hc.
  rewrite (bind_step _ _ _ _ _ Hm) in H. unfold main in H.
  erewrite bind_step in H by reflexivity. unfold os_path_isfile.
  destruct (fs w !! absolute (path_of_string (COMPILER_PATH G)))
    as [[|d]|] eqn:Hfile; cbn [negb] in H.
  1,3: left; erewrite bind_step in H by reflexivity;
       injection H as <- <-; done.
  right. split; [done|].
  destruct (generate_project_try G
              (mkWorld (fs w) (faults w)
                 (stdout w ++ ["Generating project at " +:+ as_posix (PROJECT_DIR G)])))
    as [r w1] eqn:Htry.
  exists r, w1. split; [done|].
  pose proof (generate_project_eq G w r w1 Htry) as Hgp.
  destruct r as [[]|e].
  - rewrite (bind_step _ _ _ _ _ Hgp) in H. by injection H as <- <-.
  - destruct (generate_project_except_eq G e w1) as (w2 & Hex & _).
    rewrite Hex in Hgp. rewrite (bind_raise _ _ _ _ _ Hgp) in H.
    injection H as <- <-. done.
Qed.

Lemma respects_generation G :
  layout G →
  respects (undisturbed (absolute (PROJECT_DIR G)))
    (os_makedirs (PROJECT_DIR G) true ;;
     all_sources ← generate_sources G;
     all_include_dirs ← generate_headers G;
     generate_compile_commands G all_sources all_include_dirs).
Proof.
  intros Hlay.
  apply respects_bind; [apply _| |intros _].
  { apply respects_os_makedirs. by left. }
  apply respects_bind; [apply _|by apply respects_generate_sources|intros srcs].
  apply respects_bind; [apply _|by apply respects_generate_headers|intros dirs].
  apply respects_generate_compile_commands.
Qed.

(** The body of the [try]: what it prints, and that it stays at and below
    the project directory. *)
Lemma generate_project_try_trace G w r w' :
  layout G →
  generate_project_try G w = (r, w') →
  let P := absolute (PROJECT_DIR G) in
  stdout w' = stdout w
              ++ (if bool_decide (is_Some (fs w !! P))
                  then ["Removing existing project"] else [])
  ∧ kept_outside P w w'.
Proof.
  intros Hlay H P. unfold generate_project_try in H.
  erewrite bind_step in H by reflexivity. fold P in H.
  pose proof (respects_generation G Hlay) as Hrest. fold P in Hrest.
  destruct (bool_decide (is_Some (fs w !! P))).
  - rewrite bind_assoc in H. erewrite bind_step in H by reflexivity.
    set (wq := mkWorld (fs w) (faults w)
                 (stdout w ++ ["Removing existing project"])) in H.
    assert (respects (undisturbed P)
              (shutil_rmtree (PROJECT_DIR G) false ;;
               os_makedirs (PROJECT_DIR G) true ;;
               all_sources ← generate_sources G;
               all_include_dirs ← generate_headers G;
               generate_compile_commands G all_sources all_include_dirs))
      as Hall.
    { apply respects_bind; [apply _| |by intros _].
      by apply respects_shutil_rmtree. }
    apply Hall in H as [Ho Hk]. split; [by rewrite Ho|].
    intros q n Hq. by apply Hk.
  - rewrite pass_bind in H. apply Hrest in H as [Ho Hk].
    split; [by rewrite Ho, app_nil_r|done].
Qed.

Lemma generate_project_except_trace G e w1 w2 :
  generate_project_except G e w1 = (Raise e, w2) →
  stdout w2 = stdout w1 ++ ["Project generation failed, cleaning up..."]
  ∧ kept_outside (absolute (PROJECT_DIR G)) w1 w2.
Proof.
  intros H. unfold generate_project_except in H.
  erewrite bind_step in H by reflexivity.
  set (wq := mkWorld (fs w1) (faults w1)
               (stdout w1 ++ ["Project generation failed, cleaning up..."])) in H.
  assert (respects (undisturbed (absolute (PROJECT_DIR G)))
            (shutil_rmtree (PROJECT_DIR G) true ;; (raise e : IO unit))) as Hall.
  { apply respects_bind; [apply _| |intros _; by apply respects_raise].
    by apply respects_shutil_rmtree. }
  apply Hall in H as [Ho Hk]. split; [by rewrite Ho|].
  intros q n Hq. by apply Hk.
Qed.

(** * Further properties of the script *)


(** X3.  What a run prints.  A run that cannot load the module prints
    nothing; without a compiler it prints the one line [No compiler at ...]
    and exits with status 1; otherwise it announces the generation, says so
    when it removes an existing target, and, exactly when it exits with
    status 1, ends with the line of the cleanup handler.  The exit status is
    0 or 1. *)
Theorem X3_console_output args w st w' :
  script args w = (st, w') →
  (subdirs args = 0 ∧ st = 1 ∧ stdout w' = stdout w)
  ∨ ∃ G, module_level args w = (Ok G, w) ∧
      ((os_path_isfile (path_of_string (compiler args)) w = (Ok false, w)
        ∧ st = 1
        ∧ stdout w' = stdout w ++ ["No compiler at " +:+ compiler args])
       ∨ (os_path_isfile (path_of_string (compiler args)) w = (Ok true, w)
          ∧ (st = 0 ∨ st = 1)
          ∧ stdout w'
            = stdout w
              ++ ["Generating project at " +:+ as_posix (PROJECT_DIR G)]
              ++ (if bool_decide (is_Some (fs w !! absolute (PROJECT_DIR G)))
                  then ["Removing existing project"] else [])
              ++ (if decide (st = 0) then []
                  else ["Project generation failed, cleaning up..."]))).
Proof.
  intros H.
  apply script_cases in H
    as [(Hd & -> & ->)|(G & Hm & Hl & [(Hc & -> & ->)|(Hc & r & w1 & Htry & H)])].
  - left. done.
  - right. exists G. split; [done|]. left. done.
  - right. exists G. split; [done|]. right. split; [done|].
    apply generate_project_try_trace in Htry as [Ho _];
      [|by eapply loaded_layout].
    cbn [fs stdout] in Ho.
    destruct r as [[]|e].
    + destruct H as [-> ->]. split; [by left|].
      rewrite Ho, decide_True by done. by rewrite app_nil_r, <-app_assoc.
    + destruct H as [-> Hex]. split; [by right|].
      apply generate_project_except_trace in Hex as [Ho2 _].
      rewrite Ho2, Ho, decide_False by done. by rewrite <-!app_assoc.
Qed.

Lemma module_level_total args w :
  subdirs args ≠ 0 → ∃ G, module_level args w = (Ok G, w) ∧ loaded args G.
Proof.
  intros Hd. destruct (module_level args w) as [r w1] eqn:Hm.
  apply module_level_inv in Hm as [-> [[? _]|(_ & G & -> & Hl)]]; [done|].
  by exists G.
Qed.


(** X4.  When the target path is an existing regular file the run fails:
    the removal of the "existing project" raises, the handler's own removal
    does nothing, and the script exits with status 1 leaving the file, and
    the rest of the filesystem, as they were.  This holds whatever disk
    errors are scheduled. *)
Theorem X4_target_is_file args G w d :
  module_level args w = (Ok G, w) →
  (∃ c, fs w !! absolute (path_of_string (compiler args)) = Some (File c)) →
  fs w !! absolute (PROJECT_DIR G) = Some (File d) →
  ∃ w', script args w = (1, w') ∧ fs w' = fs w.
Proof.
  intros Hm [c Hc] Hfile. set (P := absolute (PROJECT_DIR G)) in *.
  pose proof (module_level_inv _ _ _ _ Hm) as [_ [[_ [=]]|(_ & G' & [= <-] & Hl)]].
  pose proof Hl as (Hcomp & _). rewrite <-Hcomp in Hc.
  set (wp := mkWorld (fs w) (faults w)
               (stdout w ++ ["Generating project at " +:+ as_posix (PROJECT_DIR G)])).
  set (wq := mkWorld (fs wp) (faults wp)
               (stdout wp ++ ["Removing existing project"])).
  destruct (rmtree_strict (PROJECT_DIR G) wq) as [r1 w1] eqn:Hrm.
  pose proof (rmtree_strict_inv _ _ _ _ Hrm) as [(_ & HDir & _)|(e & -> & _ & Hfs1)].
  { fold P in HDir. cbn [fs wq wp] in HDir. congruence. }
  assert (generate_project_try G wp = (Raise e, w1)) as Htry.
  { unfold generate_project_try. erewrite bind_step by reflexivity. fold P.
    rewrite bool_decide_true by (cbn [fs wp]; by rewrite Hfile).
    rewrite bind_assoc. erewrite bind_step by reflexivity. fold wq.
    erewrite bind_raise; [reflexivity|]. exact Hrm. }
  destruct (generate_project_except_eq G e w1) as (w2 & Hex & Hfs2).
  fold P in Hfs2. rewrite decide_False in Hfs2; last first.
  { rewrite Hfs1. cbn [fs wq wp]. rewrite Hfile. by intros [_ [=]]. }
  exists w2. split; [|by rewrite Hfs2, Hfs1].
  apply (script_status args G w (Raise e) w2 Hm).
  - unfold os_path_isfile. by rewrite Hc.
  - rewrite (generate_project_eq G w (Raise e) w1 Htry). exact Hex.
Qed.

(** X5.  With no source and no header (counts zero or negative) a run that
    exits with status 0 leaves, at and below the project directory, exactly
    the directory itself, the two empty directories [sources] and
    [includes], and a [compile_commands.json] holding the empty JSON array:
    no division takes place and no bucket directory is created. *)
Theorem X5_empty_project args w w' :
  sources args ≤ 0 → headers args ≤ 0 →
  is_absolute cwd = true → fs_closed (fs w) →
  script args w = (0, w') →
  ∃ G, module_level args w = (Ok G, w) ∧
    let P := absolute (PROJECT_DIR G) in
    ∀ q n, P `prefix_of` q →
      fs w' !! q = Some n ↔
        (q = P ∧ n = Dir) ∨ (q = P ++ ["sources"] ∧ n = Dir)
        ∨ (q = P ++ ["includes"] ∧ n = Dir)
        ∨ (q = P ++ ["compile_commands.json"] ∧ n = File "[]").
Proof.
  intros Hs Hh Hcwd Hcl H.
  apply run_in_project in H as (G & Hm & Hl & _ & _ & Htree); [|done..].
  exists G. split; [done|]. intros P q n Hq. rewrite (Htree q n Hq).
  destruct Hl as (_ & HS & HH & _).
  assert (∀ i, i ∉ range (NUMBER_OF_SOURCES G)) as HnoS.
  { intros i Hi%elem_of_range. lia. }
  assert (∀ i, i ∉ range (NUMBER_OF_HEADERS G)) as HnoH.
  { intros i Hi%elem_of_range. lia. }
  assert (manifest_text G = "[]") as Hman.
  { unfold manifest_text, manifest_entries, range.
    by replace (Z.to_nat (NUMBER_OF_SOURCES G)) with 0%nat by lia. }
  unfold in_project, tree_spec. fold P. rewrite Hman. split.
  - intros [?|(r & -> & Hr)]; [by left|].
    destruct Hr as [[-> ->]|[(i & Hi & _)|[(i & Hi & _)|[[-> ->]|
                   [(i & Hi & _)|[(i & Hi & _)|[-> ->]]]]]]];
      try (by exfalso; eapply HnoS); try (by exfalso; eapply HnoH); auto.
  - intros [?|[[-> ->]|[[-> ->]|[-> ->]]]]; [by left|right..].
    + exists ["sources"]. auto.
    + exists ["includes"]. split; [done|]. do 3 right. by left.
    + exists ["compile_commands.json"]. split; [done|]. do 6 right. done.
Qed.

(** ** How the files are spread over the subdirectories *)

Lemma block_of_bucket per s k i :
  0 < per → 0 ≤ k →
  (0 ≤ i < s ∧ i / per = k)
  ↔ ∃ j, j ∈ range (Z.min per (s - k * per)) ∧ i = k * per + j.
Proof.
  intros Hper Hk. setoid_rewrite elem_of_range. split.
  - intros [Hi <-]. exists (i mod per).
    pose proof (Z.div_mod i per ltac:(lia)) as Hdm.
    pose proof (Z.mod_pos_bound i per Hper). lia.
  - intros (j & Hj & ->). split; [nia|].
    symmetry. apply (Z.div_unique _ _ _ j); lia.
Qed.

Lemma NoDup_block (f : Z → Path) a n :
  Inj (=) (=) f → NoDup (f <$> (Z.add a <$> range n)).
Proof.
  intros Hf. apply NoDup_fmap; [done|].
  apply NoDup_fmap; [|apply NoDup_range]. intros x y. lia.
Qed.

Lemma source_bucket_files G P m k :
  (∀ q n, P `prefix_of` q → m !! q = Some n ↔ in_project G P q n) →
  0 < SOURCES_PER_DIR G → 0 ≤ k →
  files_under m (P ++ ["sources"; "subdir_" +:+ str k])
  = list_to_set
      ((λ i, P ++ source_rel G i)
         <$> (Z.add (k * SOURCES_PER_DIR G)
                <$> range (Z.min (SOURCES_PER_DIR G)
                             (NUMBER_OF_SOURCES G - k * SOURCES_PER_DIR G)))).
Proof.
  intros Hm Hper Hk. apply set_eq. intros q.
  rewrite elem_of_files_under, elem_of_list_to_set, list_elem_of_fmap.
  setoid_rewrite list_elem_of_fmap. split.
  - intros (Hq & s & Hs).
    assert (P ++ ["sources"] `prefix_of` q) as Hq'.
    { etrans; [|exact Hq]. apply prefix_app, (prefix_cons _ [] [_]), prefix_nil. }
    apply Hm in Hs; [|by eapply prefix_app_l].
    apply in_project_source_file in Hs as (i & Hi & -> & _); [|done].
    apply prefix_app_inv in Hq. unfold source_rel in Hq.
    destruct Hq as [t Ht]. injection Ht as Ht _.
    change (str (i / SOURCES_PER_DIR G) = str k) in Ht. apply str_inj in Ht.
    apply elem_of_range in Hi.
    destruct (proj1 (block_of_bucket _ _ k i Hper Hk) (conj Hi Ht)) as (j & Hj & ->).
    exists (k * SOURCES_PER_DIR G + j). split; [done|]. by exists j.
  - intros (i & -> & j & -> & Hj).
    destruct (proj2 (block_of_bucket _ (NUMBER_OF_SOURCES G) k
                       (k * SOURCES_PER_DIR G + j) Hper Hk)) as [Hi Hb];
      [by exists j|].
    split.
    + unfold source_rel, source_subdir. rewrite Hb.
      apply prefix_app, (prefix_cons _ [_] [_; _]), (prefix_cons _ [] [_]), prefix_nil.
    + eexists. apply Hm; [by apply prefix_app_r|].
      apply in_project_source. by apply elem_of_range.
Qed.

Lemma header_bucket_files G P m k :
  (∀ q n, P `prefix_of` q → m !! q = Some n ↔ in_project G P q n) →
  0 < HEADERS_PER_DIR G → 0 ≤ k →
  files_under m (P ++ ["includes"; "subdir_" +:+ str k])
  = list_to_set
      ((λ i, P ++ header_rel G i)
         <$> (Z.add (k * HEADERS_PER_DIR G)
                <$> range (Z.min (HEADERS_PER_DIR G)
                             (NUMBER_OF_HEADERS G - k * HEADERS_PER_DIR G)))).
Proof.
  intros Hm Hper Hk. apply set_eq. intros q.
  rewrite elem_of_files_under, elem_of_list_to_set, list_elem_of_fmap.
  setoid_rewrite list_elem_of_fmap. split.
  - intros (Hq & s & Hs).
    assert (P ++ ["includes"] `prefix_of` q) as Hq'.
    { etrans; [|exact Hq]. apply prefix_app, (prefix_cons _ [] [_]), prefix_nil. }
    apply Hm in Hs; [|by eapply prefix_app_l].
    apply in_project_header_file in Hs as (i & Hi & -> & _); [|done].
    apply prefix_app_inv in Hq. unfold header_rel in Hq.
    destruct Hq as [t Ht]. injection Ht as Ht _.
    change (str (i / HEADERS_PER_DIR G) = str k) in Ht. apply str_inj in Ht.
    apply elem_of_range in Hi.
    destruct (proj1 (block_of_bucket _ _ k i Hper Hk) (conj Hi Ht)) as (j & Hj & ->).
    exists (k * HEADERS_PER_DIR G + j). split; [done|]. by exists j.
  - intros (i & -> & j & -> & Hj).
    destruct (proj2 (block_of_bucket _ (NUMBER_OF_HEADERS G) k
                       (k * HEADERS_PER_DIR G + j) Hper Hk)) as [Hi Hb];
      [by exists j|].
    split.
    + unfold header_rel, include_subdir. rewrite Hb.
      apply prefix_app, (prefix_cons _ [_] [_; _]), (prefix_cons _ [] [_]), prefix_nil.
    + eexists. apply Hm; [by apply prefix_app_r|].
      apply in_project_header. by apply elem_of_range.
Qed.

(** X6.  After a run that exits with status 0, the files of each kind sit in
    their subdirectories in contiguous blocks of indices: [subdir_k] of
    [sources/] holds exactly the sources [k * ceil(S/D)] up to, but not
    including, [min(S, (k+1) * ceil(S/D))].  Hence no subdirectory holds more
    than [ceil(S/D)] files, and every one before the last used holds exactly
    that many.  The same for the headers, with [H] in place of [S]. *)
Theorem X6_bucket_contents args w w' :
  1 ≤ subdirs args → is_absolute cwd = true → fs_closed (fs w) →
  script args w = (0, w') →
  ∃ G, module_level args w = (Ok G, w) ∧
    let P := absolute (PROJECT_DIR G) in
    let spd := ceil_div (sources args) (subdirs args) in
    let hpd := ceil_div (headers args) (subdirs args) in
    let source_at i :=
      P ++ ["sources"; "subdir_" +:+ str (i / spd); "file_" +:+ str i +:+ ".cpp"] in
    let header_at i :=
      P ++ ["includes"; "subdir_" +:+ str (i / hpd); "file_" +:+ str i +:+ ".h"] in
    (1 ≤ sources args → ∀ k, 0 ≤ k →
       let n := Z.min spd (sources args - k * spd) in
       files_under (fs w') (P ++ ["sources"; "subdir_" +:+ str k])
       = list_to_set (source_at <$> (Z.add (k * spd) <$> range n))
       ∧ size (files_under (fs w') (P ++ ["sources"; "subdir_" +:+ str k]))
         = Z.to_nat n
       ∧ n ≤ spd
       ∧ ((k + 1) * spd ≤ sources args → n = spd))
    ∧ (1 ≤ headers args → ∀ k, 0 ≤ k →
       let n := Z.min hpd (headers args - k * hpd) in
       files_under (fs w') (P ++ ["includes"; "subdir_" +:+ str k])
       = list_to_set (header_at <$> (Z.add (k * hpd) <$> range n))
       ∧ size (files_under (fs w') (P ++ ["includes"; "subdir_" +:+ str k]))
         = Z.to_nat n
       ∧ n ≤ hpd
       ∧ ((k + 1) * hpd ≤ headers args → n = hpd)).
Proof.
  intros Hd Hcwd Hcl Hrun.
  apply run_in_project in Hrun as (G & Hm & Hl & _ & _ & Hfs); [|done|done].
  exists G. split; [done|]. intros P spd hpd source_at header_at.
  destruct Hl as (_ & HS & HH & _ & Hspd & Hhpd & _).
  rewrite ceil_div_eq in Hspd, Hhpd by lia. fold spd in Hspd. fold hpd in Hhpd.
  assert (∀ i, source_at i = P ++ source_rel G i) as Hsa.
  { intros i. unfold source_at, source_rel, source_subdir, source_file.
    by rewrite Hspd. }
  assert (∀ i, header_at i = P ++ header_rel G i) as Hha.
  { intros i. unfold header_at, header_rel, include_subdir, header_file.
    by rewrite Hhpd. }
  split.
  - intros Hs k Hk n.
    assert (0 < spd) as Hspd0 by (apply ceil_div_pos; lia).
    assert (files_under (fs w') (P ++ ["sources"; "subdir_" +:+ str k])
            = list_to_set (source_at <$> (Z.add (k * spd) <$> range n))) as Heq.
    { rewrite (source_bucket_files G) by (done || lia).
      rewrite Hspd, HS. f_equal. apply list_fmap_ext. intros _ i _.
      by rewrite Hsa. }
    split_and!; [done| |lia|lia].
    rewrite Heq, size_list_to_set.
    + by rewrite !length_fmap, length_range.
    + apply NoDup_block. intros i j. rewrite !Hsa. apply source_rel_inj.
  - intros Hh k Hk n.
    assert (0 < hpd) as Hhpd0 by (apply ceil_div_pos; lia).
    assert (files_under (fs w') (P ++ ["includes"; "subdir_" +:+ str k])
            = list_to_set (header_at <$> (Z.add (k * hpd) <$> range n))) as Heq.
    { rewrite (header_bucket_files G) by (done || lia).
      rewrite Hhpd, HH. f_equal. apply list_fmap_ext. intros _ i _.
      by rewrite Hha. }
    split_and!; [done| |lia|lia].
    rewrite Heq, size_list_to_set.
    + by rewrite !length_fmap, length_range.
    + apply NoDup_block. intros i j. rewrite !Hha. apply header_rel_inj.
Qed.

(** ** Which header a source includes, and where it is *)

Lemma include_line_inj h h' rest rest' :
  "#include <file_" +:+ str h +:+ ".h>" +:+ rest
  = "#include <file_" +:+ str h' +:+ ".h>" +:+ rest' →
  h = h'.
Proof.
  intros H. apply string_app_inv_head in H. apply (f_equal chars) in H.
  rewrite !(chars_app (str _)), !(chars_app ".h>") in H.
  change (chars ".h>") with ("."%char :: chars "h>") in H.
  rewrite <-!app_comm_cons in H.
  apply split_at_sep in H as [H _]; [|by apply str_no_char..].
  by apply str_inj, chars_inj.
Qed.

Lemma Ok_inj {A} (x y : A) : Ok x = Ok y → x = y.
Proof. by intros [=]. Qed.

Lemma source_includes G i h :
  NUMBER_OF_HEADERS G ≠ 0 →
  (∃ rest, get_source_template G i
           = Ok ("#include <file_" +:+ str h +:+ ".h>" +:+ rest))
  ↔ i mod NUMBER_OF_HEADERS G = h.
Proof.
  intros Hh. rewrite get_source_template_eq by done. unfold source_text. split.
  - intros (rest & H%Ok_inj). by apply include_line_inj in H.
  - intros <-. eexists. reflexivity.
Qed.

Lemma header_path_in_project G P k h n :
  in_project G P
    (P ++ ["includes"; "subdir_" +:+ str k; "file_" +:+ str h +:+ ".h"]) n →
  h ∈ range (NUMBER_OF_HEADERS G) ∧ k = h / HEADERS_PER_DIR G.
Proof.
  intros [[Heq _]|(r & Heq & Hr)].
  { exfalso. by eapply app_ne_self; [|exact Heq]. }
  apply app_inv_head in Heq. subst r.
  unfold tree_spec, source_rel, header_rel in Hr.
  destruct Hr as [[[=] _]|[(i & _ & [=] & _)|[(i & _ & [=] & _)|[[[=] _]|
                 [(i & _ & [=] & _)|[(i & Hi & Hr & _)|[[=] _]]]]]]].
  assert (Some ("subdir_" +:+ str k) = Some (include_subdir G i)) as Hk
    by exact (f_equal (λ l, l !! 1%nat) Hr).
  assert (Some (header_file h) = Some (header_file i)) as Hf
    by exact (f_equal (λ l, l !! 2%nat) Hr).
  apply (inj Some) in Hk, Hf. apply header_file_inj in Hf. subst i.
  unfold include_subdir in Hk. by apply string_app_inv_head, str_inj in Hk.
Qed.

(** X7.  After a run that exits with status 0, the header that source [i]
    includes, [file_{i mod H}.h], is found in exactly one subdirectory of
    [includes/], the one numbered [(i mod H) // HEADERS_PER_DIR], provided
    the header count is positive; with a negative header count the run
    still exits with status 0 but the included header exists nowhere. *)
Theorem X7_included_header_location args w w' i :
  is_absolute cwd = true → fs_closed (fs w) →
  script args w = (0, w') → 0 ≤ i < sources args →
  ∃ G rest, module_level args w = (Ok G, w) ∧
    let P := absolute (PROJECT_DIR G) in
    let h := i mod headers args in
    get_source_template G i
    = Ok ("#include <file_" +:+ str h +:+ ".h>" +:+ rest)
    ∧ ∀ k, is_Some (fs w' !! (P ++ ["includes"; "subdir_" +:+ str k;
                                   "file_" +:+ str h +:+ ".h"]))
           ↔ 1 ≤ headers args ∧ k = h / HEADERS_PER_DIR G.
Proof.
  intros Hcwd Hcl Hrun Hi.
  apply run_in_project in Hrun as (G & Hm & Hl & _ & Hh0 & Hfs); [|done|done].
  destruct Hl as (_ & HS & HH & _). specialize (Hh0 ltac:(lia)).
  destruct (proj2 (source_includes G i (i mod NUMBER_OF_HEADERS G) Hh0) eq_refl)
    as [rest Hrest].
  exists G, rest. split; [done|]. intros P h. unfold h. rewrite <-HH.
  split; [done|]. intros k. split.
  - intros [n Hn]. apply Hfs in Hn; [|by apply prefix_app_r].
    apply header_path_in_project in Hn as [Hr ->].
    apply elem_of_range in Hr. split; [lia|done].
  - intros [Hpos ->]. eexists. apply Hfs; [by apply prefix_app_r|].
    apply (in_project_header G P (i mod NUMBER_OF_HEADERS G)).
    apply elem_of_range. apply Z.mod_pos_bound. lia.
Qed.

(** X11.  Source [i] includes header [h] exactly when [i mod H = h].  So
    with at least as many sources as headers every header is included by
    some source, and with fewer sources the headers numbered [S] and above
    are written but included by none. *)
Theorem X11_header_coverage args G w h :
  module_level args w = (Ok G, w) →
  1 ≤ headers args → 0 ≤ h < headers args →
  let includes i :=
    ∃ rest, get_source_template G i
            = Ok ("#include <file_" +:+ str h +:+ ".h>" +:+ rest) in
  (∀ i, includes i ↔ i mod headers args = h)
  ∧ ((∃ i, 0 ≤ i < sources args ∧ includes i) ↔ h < sources args).
Proof.
  intros Hm Hpos Hh includes.
  pose proof (module_level_inv _ _ _ _ Hm) as [_ [[_ [=]]|(_ & G' & [= <-] & Hl)]].
  destruct Hl as (_ & _ & HH & _).
  assert (∀ i, includes i ↔ i mod headers args = h) as Hinc.
  { intros i. unfold includes. rewrite <-HH. apply source_includes. lia. }
  split; [done|]. split.
  - intros (i & Hi & Hinci). apply Hinc in Hinci.
    pose proof (Z.mod_le i (headers args) ltac:(lia) ltac:(lia)). lia.
  - intros Hlt. exists h. split; [lia|]. apply Hinc. apply Z.mod_small. lia.
Qed.

(** ** The project name and directory *)

Lemma default_name_inj s h s' h' :
  "BigProject_" +:+ str s +:+ "_" +:+ str h
  = "BigProject_" +:+ str s' +:+ "_" +:+ str h' →
  s = s' ∧ h = h'.
Proof.
  intros H. apply string_app_inv_head in H. apply (f_equal chars) in H.
  rewrite !(chars_app (str _)), !(chars_app "_") in H.
  change (chars "_") with ["_"%char] in H. cbn [app] in H.
  apply split_at_sep in H as [Hs Hh]; [|by apply str_no_char..].
  split; by apply str_inj, chars_inj.
Qed.

Lemma default_name_component s h :
  let n := "BigProject_" +:+ str s +:+ "_" +:+ str h in
  ("/"%char ∉ chars n) ∧ n ≠ EmptyString ∧ n ≠ ".".
Proof.
  split; [|done].
  apply notin_chars_app; [by apply no_char_spec|].
  apply notin_chars_app; [by apply str_no_char|].
  apply notin_chars_app; [by apply no_char_spec|by apply str_no_char].
Qed.

Lemma module_level_names args w G w' :
  module_level args w = (Ok G, w') →
  PROJECT_NAME G
  = str_or (name args)
      ("BigProject_" +:+ str (sources args) +:+ "_" +:+ str (headers args))
  ∧ ROOT_DIR G = match output args with
                 | Some o => path_of_string o
                 | None => cwd
                 end
  ∧ PROJECT_DIR G = path_div (ROOT_DIR G) (PROJECT_NAME G).
Proof.
  unfold module_level, py_floordiv.
  destruct (decide (subdirs args = 0)); [done|].
  destruct (output args); intros H; injection H as <- _; done.
Qed.

Lemma default_name_used args :
  name args = None ∨ name args = Some EmptyString →
  str_or (name args)
    ("BigProject_" +:+ str (sources args) +:+ "_" +:+ str (headers args))
  = "BigProject_" +:+ str (sources args) +:+ "_" +:+ str (headers args).
Proof. by intros [->| ->]. Qed.

(** X8.  Where the project goes.  Without [--name], or with an empty one,
    the project is called [BigProject_<S>_<H>] and its directory is that one
    component under the output directory (the working directory without
    [--output]); two runs with default names share a name only if they have
    the same numbers of sources and headers.  A name that is an absolute
    path replaces the output directory altogether. *)
Theorem X8_project_directory args G w :
  module_level args w = (Ok G, w) →
  ROOT_DIR G = match output args with
               | Some o => path_of_string o
               | None => cwd
               end
  ∧ (name args = None ∨ name args = Some EmptyString →
     PROJECT_NAME G
     = "BigProject_" +:+ str (sources args) +:+ "_" +:+ str (headers args)
     ∧ PROJECT_DIR G = ROOT_DIR G ++ [PROJECT_NAME G]
     ∧ ∀ args' G' w',
         module_level args' w' = (Ok G', w') →
         name args' = None ∨ name args' = Some EmptyString →
         PROJECT_NAME G' = PROJECT_NAME G →
         sources args' = sources args ∧ headers args' = headers args)
  ∧ (∀ n, name args = Some n → is_absolute (path_of_string n) = true →
       PROJECT_DIR G = path_of_string n).
Proof.
  intros Hm. apply module_level_names in Hm as (Hname & Hroot & Hdir).
  split; [done|]. split.
  - intros Hdef. rewrite default_name_used in Hname by done.
    split; [done|]. split.
    + rewrite Hdir, Hname. apply path_div_component; apply default_name_component.
    + intros args' G' w' Hm' Hdef' Heq.
      apply module_level_names in Hm' as (Hname' & _).
      rewrite default_name_used in Hname' by done.
      rewrite Hname, Hname' in Heq. by apply default_name_inj in Heq.
  - intros n Hn Habs. rewrite Hdir, Hname, Hn. unfold str_or, path_div.
    destruct (String.eqb_spec n EmptyString) as [->|_]; [done|].
    by rewrite Habs.
Qed.

(** ** The compile database *)

Lemma sorted_Permutation_eq l l' : l ≡ₚ l' → sorted l = sorted l'.
Proof.
  intros Hp. apply (StronglySorted_unique path_le).
  - apply sorted_StronglySorted.
  - apply sorted_StronglySorted.
  - by rewrite !sorted_Permutation.
Qed.

(** X12.  [generate_compile_commands] does not depend on the order in which
    it is given the include directories: it sorts them itself, so any
    rearrangement of the list, and in particular the sorting already done by
    [generate_headers], leaves its behaviour unchanged. *)
Theorem X12_include_order_irrelevant G srcs dirs dirs' :
  dirs ≡ₚ dirs' →
  generate_compile_commands G srcs dirs = generate_compile_commands G srcs dirs'
  ∧ generate_compile_commands G srcs (sorted dirs)
    = generate_compile_commands G srcs dirs.
Proof.
  intros Hp. unfold generate_compile_commands.
  by rewrite sorted_idemp, (sorted_Permutation_eq dirs dirs').
Qed.

(** *** Quoting of the compiler path *)

Lemma quote_arg_no_dquote cs n b :
  dquote ∉ cs → last cs ≠ Some backslash → (cs = [] → n = 0%nat) →
  quote_arg cs n b
  = replicate n backslash ++ cs ++ (if b then [dquote] else []).
Proof.
  revert n. induction cs as [|c cs IH]; intros n Hdq Hlast Hn.
  { rewrite Hn by done. by destruct b. }
  cbn [quote_arg].
  assert (dquote ∉ cs) as Hdq' by (intros ?; apply Hdq; by right).
  destruct (Ascii.eqb_spec c backslash) as [->|Hbs].
  - destruct cs as [|d cs]; [done|].
    rewrite IH; [|done|by rewrite last_cons_cons in Hlast|done].
    by rewrite replicate_S_end, <-app_assoc.
  - destruct (Ascii.eqb_spec c dquote) as [->|_].
    { exfalso. apply Hdq. by left. }
    rewrite IH; [done|done| |done].
    destruct cs as [|d cs]; [done|]. by rewrite last_cons_cons in Hlast.
Qed.

Lemma list2cmdline_single c :
  dquote ∉ chars c → last (chars c) ≠ Some backslash →
  list2cmdline [c]
  = if needquote c then of_chars [dquote] +:+ c +:+ of_chars [dquote] else c.
Proof.
  intros Hdq Hlast. unfold list2cmdline. cbn [foldl].
  unfold list2cmdline_step. rewrite decide_True by done. fold (needquote c).
  rewrite quote_arg_no_dquote by done.
  destruct (needquote c); cbn [replicate app].
  - change (dquote :: chars c ++ [dquote]) with ([dquote] ++ chars c ++ [dquote]).
    by rewrite !of_chars_app, of_chars_chars.
  - by rewrite app_nil_r, of_chars_chars.
Qed.

(** X9.  How the compiler path appears in the commands of the compile
    database.  For a path without double quote that does not end in a
    backslash, every command starts with the path as given when it has no
    blank, and with the path between double quotes when it contains a space
    or a tab; the remaining arguments follow, each after one space, the
    first being [-c], or [--driver-mode=cl] for [clang-cl.exe]. *)
Theorem X9_compiler_quoting args w w' i :
  script args w = (0, w') → 0 ≤ i < sources args →
  dquote ∉ chars (compiler args) →
  last (chars (compiler args)) ≠ Some backslash →
  ∃ G entries directory command file rest,
    module_level args w = (Ok G, w)
    ∧ fs w' !! (absolute (PROJECT_DIR G) ++ ["compile_commands.json"])
      = Some (File (json_dumps_indent4 (JArray entries)))
    ∧ entries !! Z.to_nat i
      = Some (JObject [("directory", JString directory);
                       ("command", JString command);
                       ("file", JString file)])
    ∧ command
      = (if needquote (compiler args)
         then of_chars [dquote] +:+ compiler args +:+ of_chars [dquote]
         else compiler args) +:+ spaced rest
    ∧ head rest = Some (if endswith (compiler args) "clang-cl.exe"
                        then "--driver-mode=cl" else "-c").
Proof.
  intros Hrun Hi Hdq Hlast.
  apply run_contains in Hrun as (G & Hm & Hl & _ & _ & Hfs).
  destruct Hl as (HC & HS & _).
  exists G, (manifest_entries G). do 3 eexists.
  exists (tail (command_head G i) ++ manifest_flags G).
  split; [done|]. split.
  { apply (Hfs ["compile_commands.json"]). unfold tree_spec. by do 6 right. }
  split; [by rewrite manifest_entry by (by rewrite HS)|].
  pose proof (command_head_plain G i) as Hpl.
  pose proof (manifest_flags_plain G) as Hfl.
  assert (command_head G i = compiler args :: tail (command_head G i)) as Hhead.
  { unfold command_head. rewrite HC. by destruct (endswith _ _). }
  split.
  - rewrite Hhead at 1. rewrite <-app_comm_cons.
    rewrite list2cmdline_plain by (by apply Forall_app_2).
    by rewrite list2cmdline_single.
  - unfold command_head. rewrite HC. by destruct (endswith _ _).
Qed.

(** ** The exceptions of a run *)
















(** ** Paths written to the compile database and read back *)

Lemma split_on_app_nosep sep a b cur :
  sep ∉ a → split_on sep (a ++ b) cur = split_on sep b (reverse a ++ cur).
Proof.
  revert cur. induction a as [|c a IH]; intros cur Hn; [done|]. cbn [app split_on].
  destruct (Ascii.eqb_spec c sep) as [->|_].
  { exfalso. apply Hn. by left. }
  rewrite IH by (intros ?; apply Hn; by right).
  by rewrite reverse_cons, <-app_assoc.
Qed.

Lemma split_on_pieces sep s cur :
  sep ∉ cur → Forall (λ piece, sep ∉ piece) (split_on sep s cur).
Proof.
  revert cur. induction s as [|c s IH]; intros cur Hn; cbn [split_on].
  - constructor; [|done]. by rewrite elem_of_reverse.
  - destruct (Ascii.eqb_spec c sep) as [->|Hne].
    + constructor; [by rewrite elem_of_reverse|]. apply IH. by intros ?%elem_of_nil.
    + apply IH. intros [->|?]%elem_of_cons; done.
Qed.

Lemma component_not_slash c : component c → String.eqb c "/" = false.
Proof.
  intros [Hs _]. destruct (String.eqb_spec c "/") as [->|]; [|done].
  exfalso. apply Hs. by left.
Qed.

Lemma component_first_char x :
  component x → ∃ c r, chars x = c :: r ∧ Ascii.eqb c "/" = false.
Proof.
  intros (Hs & Hne & _). destruct x as [|c x]; [done|]. exists c, (chars x).
  split; [done|]. destruct (Ascii.eqb_spec c "/") as [->|]; [|done].
  exfalso. apply Hs. by left.
Qed.

Lemma join_cons x y l :
  join "/" (x :: y :: l) = x +:+ "/" +:+ join "/" (y :: l).
Proof. done. Qed.

Lemma split_on_join comps :
  Forall component comps → comps ≠ [] →
  split_on "/" (chars (join "/" comps)) [] = chars <$> comps.
Proof.
  intros Hc Hne. induction Hc as [|x comps Hx Hc IH]; [done|].
  destruct comps as [|y l].
  - change (join "/" [x]) with x. rewrite split_on_none; [done|apply Hx].
  - rewrite join_cons, chars_app, split_on_app_nosep by apply Hx.
    rewrite chars_app. change (chars "/") with ["/"%char].
    cbn [app split_on]. rewrite Ascii.eqb_refl, app_nil_r, reverse_involutive.
    rewrite IH by done. done.
Qed.

Lemma filter_components comps :
  Forall component comps →
  filter (λ c, c ≠ EmptyString ∧ c ≠ ".") (of_chars <$> (chars <$> comps)) = comps.
Proof.
  induction 1 as [|x comps Hx _ IH]; [done|]. cbn [fmap list_fmap].
  rewrite filter_cons_True by (rewrite of_chars_chars; split; apply Hx).
  by rewrite of_chars_chars, IH.
Qed.

Lemma path_of_string_join comps :
  Forall component comps → path_of_string (join "/" comps) = comps.
Proof.
  intros Hc. destruct comps as [|x l]; [done|].
  unfold path_of_string. rewrite split_on_join, filter_components by done.
  cbv zeta. apply Forall_cons_1 in Hc as [Hx _].
  destruct (component_first_char x Hx) as (c & r & Hcr & Hslash).
  assert (∃ r', chars (join "/" (x :: l)) = c :: r') as [r' ->].
  { destruct l as [|y l].
    - exists r. exact Hcr.
    - rewrite join_cons, chars_app, Hcr. eauto. }
  by rewrite Hslash.
Qed.

Lemma path_of_string_rooted comps :
  Forall component comps →
  path_of_string ("/" +:+ join "/" comps) = "/" :: comps.
Proof.
  intros Hc. destruct comps as [|x l]; [done|].
  unfold path_of_string. rewrite chars_app. change (chars "/") with ["/"%char].
  cbn [app split_on]. rewrite Ascii.eqb_refl.
  rewrite split_on_join by done. rewrite fmap_cons.
  rewrite filter_cons_False by (by intros [? _]).
  by rewrite filter_components.
Qed.

(** Reading back what [as_posix] wrote. *)
Lemma path_of_string_as_posix p : tidy p → path_of_string (as_posix p) = p.
Proof.
  unfold tidy. destruct p as [|c r]; [done|]. cbn [is_absolute as_posix tail].
  destruct (String.eqb_spec c "/") as [->|Hne]; intros Hc.
  - by apply path_of_string_rooted.
  - by apply path_of_string_join.
Qed.

Lemma tidy_path_of_string s : tidy (path_of_string s).
Proof.
  assert (Forall component
            (filter (λ c, c ≠ EmptyString ∧ c ≠ ".")
               (of_chars <$> split_on "/" (chars s) []))) as Hc.
  { apply Forall_forall. intros c [[Hne Hdot] Hin]%list_elem_of_filter.
    apply list_elem_of_fmap in Hin as (piece & -> & Hin).
    pose proof (split_on_pieces "/" (chars s) [] ltac:(by intros ?%elem_of_nil))
      as Hp.
    rewrite Forall_forall in Hp. split; [|done].
    rewrite chars_of_chars. by apply Hp. }
  unfold path_of_string, tidy.
  set (comps := filter _ _) in *. cbv zeta.
  assert (Forall component (if is_absolute comps then tail comps else comps))
    as Hrel.
  { destruct comps as [|c r]; [done|]. cbn [is_absolute].
    apply Forall_cons_1 in Hc as [Hc1 Hc2].
    rewrite (component_not_slash c Hc1). by constructor. }
  destruct (chars s) as [|c r]; [done|].
  destruct (Ascii.eqb c "/"); done.
Qed.

Lemma tidy_app p q : tidy p → tidy q → is_absolute q = false → tidy (p ++ q).
Proof.
  unfold tidy. intros Hp Hq Hrel. rewrite Hrel in Hq.
  destruct p as [|c r]; cbn [app]; [by rewrite Hrel|].
  cbn [app is_absolute tail] in *.
  destruct (String.eqb c "/"); cbn [tail]; [by apply Forall_app|].
  rewrite app_comm_cons. by apply Forall_app.
Qed.

Lemma tidy_path_div p s : tidy p → tidy (path_div p s).
Proof.
  intros Hp. unfold path_div. pose proof (tidy_path_of_string s) as Hs.
  destruct (is_absolute (path_of_string s)) eqn:Habs; [done|].
  by apply tidy_app.
Qed.

Lemma tidy_absolute p : tidy cwd → tidy p → tidy (absolute p).
Proof.
  intros Hcwd Hp. unfold absolute.
  destruct (is_absolute p) eqn:Habs; [done|]. by apply tidy_app.
Qed.

Lemma tidy_project_dir args w G w' :
  tidy cwd → module_level args w = (Ok G, w') → tidy (absolute (PROJECT_DIR G)).
Proof.
  intros Hcwd Hm. apply module_level_names in Hm as (_ & Hroot & ->).
  apply tidy_absolute, tidy_path_div; [done|]. rewrite Hroot.
  destruct (output args); [apply tidy_path_of_string|done].
Qed.

Lemma tidy_source_rel G i : tidy (source_rel G i) ∧ is_absolute (source_rel G i) = false.
Proof.
  split; [|done]. unfold tidy, source_rel. cbn [is_absolute].
  change (String.eqb "sources" "/") with false. cbv iota.
  apply Forall_cons_2; [split; [by apply no_char_spec|done]|].
  apply Forall_cons_2; [apply subdir_component|].
  apply Forall_cons_2; [by apply file_component|]. constructor.
Qed.

(** X13.  The paths recorded in the compile database lead back to the files
    written: joining the ["directory"] and the ["file"] of the record of
    source [i], as a reader of the database does, gives the absolute path of
    [file_{i}.cpp] in its subdirectory, which is a file the run created.
    The components of the working directory are assumed to be ordinary
    names. *)
Theorem X13_database_paths_resolve args w w' i :
  tidy cwd →
  script args w = (0, w') → 0 ≤ i < sources args →
  ∃ G entries directory command file text,
    module_level args w = (Ok G, w)
    ∧ fs w' !! (absolute (PROJECT_DIR G) ++ ["compile_commands.json"])
      = Some (File (json_dumps_indent4 (JArray entries)))
    ∧ entries !! Z.to_nat i
      = Some (JObject [("directory", JString directory);
                       ("command", JString command);
                       ("file", JString file)])
    ∧ path_of_string directory = absolute (PROJECT_DIR G)
    ∧ path_div (path_of_string directory) file
      = absolute (PROJECT_DIR G)
        ++ ["sources"; "subdir_" +:+ str (i / SOURCES_PER_DIR G);
            "file_" +:+ str i +:+ ".cpp"]
    ∧ fs w' !! path_div (path_of_string directory) file = Some (File text).
Proof.
  intros Htidy Hrun Hi.
  apply run_contains in Hrun as (G & Hm & Hl & _ & _ & Hfs).
  destruct Hl as (_ & HS & _).
  exists G, (manifest_entries G). do 3 eexists.
  exists (source_text (NUMBER_OF_HEADERS G) i).
  split; [done|]. split.
  { apply (Hfs ["compile_commands.json"]). unfold tree_spec. by do 6 right. }
  split; [by rewrite manifest_entry by (by rewrite HS)|].
  assert (path_of_string (as_posix (absolute (PROJECT_DIR G)))
          = absolute (PROJECT_DIR G)) as Hdir.
  { apply path_of_string_as_posix. by eapply tidy_project_dir. }
  assert ("sources/subdir_" +:+ str (i / SOURCES_PER_DIR G)
          +:+ "/file_" +:+ str i +:+ ".cpp" = as_posix (source_rel G i)) as Hfile.
  { rewrite as_posix_source_rel. unfold source_subdir, source_file.
    apply chars_inj. by norm_chars. }
  assert (path_div (path_of_string (as_posix (absolute (PROJECT_DIR G))))
            ("sources/subdir_" +:+ str (i / SOURCES_PER_DIR G)
             +:+ "/file_" +:+ str i +:+ ".cpp")
          = absolute (PROJECT_DIR G) ++ source_rel G i) as Hjoin.
  { rewrite Hdir, Hfile. unfold path_div.
    destruct (tidy_source_rel G i) as [Ht Hrel].
    by rewrite path_of_string_as_posix, Hrel. }
  split; [done|]. split; [exact Hjoin|].
  rewrite Hjoin. apply Hfs. unfold tree_spec. do 2 right. left.
  exists i. split; [|done]. rewrite HS. by apply elem_of_range.
Qed.

(** ** Missing parents of the project directory *)








(** ** The whole project directory *)

(** X15.  After a run that exits with status 0 the project directory holds
    what this run generated and nothing else, whatever was at the target
    before: the directory itself, [sources] and [includes], one subdirectory
    for each bucket in use, one file for each source and each header, and
    the compile database.  In particular no file of an earlier, larger
    project survives, and the [obj] directory named by the object and
    debug-database paths of the [clang-cl.exe] commands is not created. *)
Theorem X15_nothing_else_in_project args w w' :
  is_absolute cwd = true → fs_closed (fs w) →
  script args w = (0, w') →
  ∃ G entries, module_level args w = (Ok G, w) ∧
    let P := absolute (PROJECT_DIR G) in
    let sdir i := "subdir_" +:+ str (i / SOURCES_PER_DIR G) in
    let hdir j := "subdir_" +:+ str (j / HEADERS_PER_DIR G) in
    (∀ q n, P `prefix_of` q →
       fs w' !! q = Some n ↔
         (q = P ∧ n = Dir)
         ∨ (q = P ++ ["sources"] ∧ n = Dir)
         ∨ (∃ i, 0 ≤ i < sources args ∧ q = P ++ ["sources"; sdir i] ∧ n = Dir)
         ∨ (∃ i text, 0 ≤ i < sources args
              ∧ q = P ++ ["sources"; sdir i; "file_" +:+ str i +:+ ".cpp"]
              ∧ get_source_template G i = Ok text ∧ n = File text)
         ∨ (q = P ++ ["includes"] ∧ n = Dir)
         ∨ (∃ j, 0 ≤ j < headers args ∧ q = P ++ ["includes"; hdir j] ∧ n = Dir)
         ∨ (∃ j, 0 ≤ j < headers args
              ∧ q = P ++ ["includes"; hdir j; "file_" +:+ str j +:+ ".h"]
              ∧ n = File (get_header_template j))
         ∨ (q = P ++ ["compile_commands.json"]
            ∧ n = File (json_dumps_indent4 (JArray entries))))
    ∧ (∀ x, fs w' !! (P ++ "obj" :: x) = None).
Proof.
  intros Hcwd Hcl Hrun.
  apply run_in_project in Hrun as (G & Hm & Hl & _ & Hh0 & Hfs); [|done|done].
  exists G, (manifest_entries G). split; [done|]. intros P sdir hdir.
  destruct Hl as (_ & HS & HH & _).
  assert (∀ i, 0 ≤ i < sources args →
            get_source_template G i = Ok (source_text (NUMBER_OF_HEADERS G) i))
    as Htext.
  { intros i Hi. apply get_source_template_eq, Hh0. lia. }
  assert (∀ q n, P `prefix_of` q →
     fs w' !! q = Some n ↔
       (q = P ∧ n = Dir)
       ∨ (q = P ++ ["sources"] ∧ n = Dir)
       ∨ (∃ i, 0 ≤ i < sources args ∧ q = P ++ ["sources"; sdir i] ∧ n = Dir)
       ∨ (∃ i text, 0 ≤ i < sources args
            ∧ q = P ++ ["sources"; sdir i; "file_" +:+ str i +:+ ".cpp"]
            ∧ get_source_template G i = Ok text ∧ n = File text)
       ∨ (q = P ++ ["includes"] ∧ n = Dir)
       ∨ (∃ j, 0 ≤ j < headers args ∧ q = P ++ ["includes"; hdir j] ∧ n = Dir)
       ∨ (∃ j, 0 ≤ j < headers args
            ∧ q = P ++ ["includes"; hdir j; "file_" +:+ str j +:+ ".h"]
            ∧ n = File (get_header_template j))
       ∨ (q = P ++ ["compile_commands.json"]
          ∧ n = File (json_dumps_indent4 (JArray (manifest_entries G)))))
    as Hall.
  { intros q n Hq. rewrite (Hfs q n Hq). unfold in_project, tree_spec.
    setoid_rewrite elem_of_range. split.
    - intros [?|(r & -> & Hr)]; [by left|]. right.
      destruct Hr as [[-> ->]|[(i & Hi & -> & ->)|[(i & Hi & -> & ->)|[[-> ->]|
                     [(j & Hj & -> & ->)|[(j & Hj & -> & ->)|[-> ->]]]]]]];
        try rewrite HS in Hi; try rewrite HH in Hj.
      + by left.
      + right. left. eauto.
      + do 2 right. left. exists i, (source_text (NUMBER_OF_HEADERS G) i).
        split_and!; [lia|lia|done|by apply Htext|done].
      + do 3 right. by left.
      + do 4 right. left. eauto.
      + do 5 right. left. exists j. by rewrite get_header_template_eq.
      + do 6 right. done.
    - intros [?|[[-> ->]|[(i & Hi & -> & ->)|[(i & text & Hi & -> & Ht & ->)|
               [[-> ->]|[(j & Hj & -> & ->)|[(j & Hj & -> & ->)|[-> ->]]]]]]]];
        [by left|right..]; try rewrite <-HS in Hi; try rewrite <-HH in Hj.
      + exists ["sources"]. split; [done|]. by left.
      + eexists. split; [done|]. right. left. eauto.
      + eexists. split; [done|]. do 2 right. left. exists i.
        rewrite Htext in Ht by (by rewrite <-HS).
        apply Ok_inj in Ht as <-. done.
      + exists ["includes"]. split; [done|]. do 3 right. by left.
      + eexists. split; [done|]. do 4 right. left. eauto.
      + eexists. split; [done|]. do 5 right. left. exists j.
        by rewrite get_header_template_eq.
      + eexists. split; [done|]. do 6 right. done. }
  split; [exact Hall|].
  intros x. destruct (fs w' !! (P ++ "obj" :: x)) as [n|] eqn:Hn; [|done].
  exfalso. apply Hall in Hn; [|by apply prefix_app_r].
  destruct Hn as [[Hq _]|[[Hq _]|[(i & _ & Hq & _)|[(i & text & _ & Hq & _)|
            [[Hq _]|[(j & _ & Hq & _)|[(j & _ & Hq & _)|[Hq _]]]]]]]].
  - by eapply app_ne_self; [|exact Hq].
  - by apply app_inv_head in Hq.
  - by apply app_inv_head in Hq.
  - by apply app_inv_head in Hq.
  - by apply app_inv_head in Hq.
  - by apply app_inv_head in Hq.
  - by apply app_inv_head in Hq.
  - by apply app_inv_head in Hq.
Qed.

End Process.

(** * The statements above on the sample inputs *)

Lemma outcome_split {A} (c : IO A) w r :
  fst (c w) = r → c w = (r, snd (c w)).
Proof. destruct (c w) as [r' w']. simpl. by intros ->. Qed.

Lemma exit_status_0 cwd args w :
  fst (script cwd args w) = 0 → script cwd args w = (0, snd (script cwd args w)).
Proof. destruct (script cwd args w) as [st w']. simpl. by intros ->. Qed.

Lemma C1_files_created_witness :
  ∃ G, module_level demo_cwd demo_args demo_world = (Ok G, demo_world)
    ∧ size (files_under (fs (snd (script demo_cwd demo_args demo_world)))
              (absolute demo_cwd (PROJECT_DIR G) ++ ["sources"])) = 4%nat
    ∧ size (files_under (fs (snd (script demo_cwd demo_args demo_world)))
              (absolute demo_cwd (PROJECT_DIR G) ++ ["includes"])) = 2%nat.
Proof.
  destruct (C1_files_created demo_cwd demo_args demo_world
              (snd (script demo_cwd demo_args demo_world)))
    as (G & HG & _ & _ & _ & _ & _ & _ & Hs & Hh).
  - by vm_compute.
  - by vm_compute.
  - by vm_compute.
  - reflexivity.
  - apply fs_closedb_spec. by vm_compute.
  - apply exit_status_0. by vm_compute.
  - exists G. split; [exact HG|]. split; [exact Hs|exact Hh].
Defined.

Lemma C2_source_content_witness :
  ∃ G, get_source_template G 3
       = Ok ("#include <file_1.h>" +:+ newline +:+ newline
             +:+ "static void test_3(int a, int b) {" +:+ newline
             +:+ "  foo_1(b, a);" +:+ newline +:+ "}").
Proof.
  destruct (C2_source_content demo_cwd demo_args demo_world
              (snd (script demo_cwd demo_args demo_world)) 3)
    as (G & _ & Ht & _).
  - apply exit_status_0. by vm_compute.
  - by vm_compute.
  - exists G. exact Ht.
Defined.

Lemma C3_compile_database_witness :
  ∃ G entries,
    fs (snd (script demo_cwd demo_args demo_world))
      !! (absolute demo_cwd (PROJECT_DIR G) ++ ["compile_commands.json"])
    = Some (File (json_dumps_indent4 (JArray entries)))
    ∧ Z.of_nat (length entries) = 4.
Proof.
  destruct (C3_compile_database demo_cwd demo_args demo_world
              (snd (script demo_cwd demo_args demo_world)))
    as (G & entries & _ & Hf & Hlen & _).
  - by vm_compute.
  - apply exit_status_0. by vm_compute.
  - exists G, entries. split; [exact Hf|exact Hlen].
Defined.

Lemma C4_compile_command_witness :
  ∃ G flags command,
    command
    = list2cmdline ([compiler demo_args_cl; "--driver-mode=cl"; "/c";
                     "/Foobj/" +:+ ("sources/subdir_" +:+ str (4 / SOURCES_PER_DIR G)
                                    +:+ "/file_" +:+ str 4) +:+ ".obj";
                     "/Fdobj/" +:+ ("sources/subdir_" +:+ str (4 / SOURCES_PER_DIR G)
                                    +:+ "/file_" +:+ str 4) +:+ ".pdb"]
                    ++ flags).
Proof.
  destruct (C4_compile_command demo_cwd demo_args_cl demo_world
              (snd (script demo_cwd demo_args_cl demo_world)) 4)
    as (G & entries & flags & command & directory & file & _ & _ & _ & H).
  - apply exit_status_0. by vm_compute.
  - by vm_compute.
  - exists G, flags, command.
    destruct H as (_ & _ & H). exact (proj1 H).
Defined.

Lemma C5_missing_compiler_witness :
  ∃ w', script demo_cwd demo_args_missing demo_world = (1, w')
        ∧ fs w' = fs demo_world.
Proof.
  apply (C5_missing_compiler demo_cwd demo_args_missing demo_world).
  by vm_compute.
Defined.

Lemma C7_rerun_identical_witness :
  ∃ G,
    (∀ q, absolute demo_cwd (PROJECT_DIR G) `prefix_of` q →
       fs (snd (script demo_cwd demo_args
                  (snd (script demo_cwd demo_args demo_world)))) !! q
       = fs (snd (script demo_cwd demo_args demo_world)) !! q)
    ∧ ∃ w2, script demo_cwd demo_args
              (snd (script demo_cwd demo_args demo_world)) = (0, w2).
Proof.
  destruct (C7_rerun_identical demo_cwd demo_args demo_world
              (snd (script demo_cwd demo_args demo_world)))
    as (G & _ & _ & _ & _ & Hsame & Htotal).
  - reflexivity.
  - apply fs_closedb_spec. by vm_compute.
  - apply exit_status_0. by vm_compute.
  - exists G. split.
    + apply Hsame. apply exit_status_0. by vm_compute.
    + apply Htotal; [by vm_compute|]. exists "ELF". by vm_compute.
Defined.

Lemma C8_include_flags_witness :
  ∃ G (flags : list string),
    NoDup flags
    ∧ ∀ flag, flag ∈ flags ↔
        ∃ j, 0 ≤ j < headers demo_args_cl
             ∧ flag = "-Iincludes/" +:+ ("subdir_" +:+ str (j / HEADERS_PER_DIR G)).
Proof.
  destruct (C8_include_flags demo_cwd demo_args_cl demo_world
              (snd (script demo_cwd demo_args_cl demo_world)))
    as (G & entries & dirs & flags & _ & _ & _ & _ & _ & _ & _ & _ & Hnd & Hin & _).
  - apply exit_status_0. by vm_compute.
  - exists G, flags. split; [exact Hnd|exact Hin].
Defined.

Lemma C6_failure_cleanup_witness :
  module_level demo_cwd demo_args demo_world_faulty
  = (Ok demo_globals, demo_world_faulty)
  ∧ ∃ w2, generate_project demo_cwd demo_globals demo_world_faulty
          = (Raise OSError, w2)
          ∧ fs w2 !! absolute demo_cwd (PROJECT_DIR demo_globals) ≠ Some Dir
          ∧ script demo_cwd demo_args demo_world_faulty = (1, w2).
Proof.
  split; [by vm_compute|].
  pose proof (C6_failure_cleanup demo_cwd demo_globals demo_world_faulty
                (snd (print ("Generating project at "
                              +:+ as_posix (PROJECT_DIR demo_globals))
                        demo_world_faulty)) eq_refl) as H.
  destruct H as (_ & H & _).
  destruct (H OSError _ (outcome_split _ _ _ ltac:(by vm_compute)))
    as (w2 & Hg & _ & Hdir & Hst).
  exists w2. split; [exact Hg|]. split.
  - apply Hdir. by vm_compute.
  - apply Hst; by vm_compute.
Defined.

Lemma C9_bucket_count_witness :
  (∀ i, 0 ≤ i < 4 →
     get_source_subdir demo_globals i
     = Ok ("subdir_" +:+ str (i / SOURCES_PER_DIR demo_globals))
     ∧ 0 ≤ i / SOURCES_PER_DIR demo_globals ≤ 2 - 1)
  ∧ (∃ s d, 1 ≤ s ∧ 1 ≤ d ∧ ceil_div s (ceil_div s d) < d).
Proof.
  destruct (C9_bucket_count demo_cwd demo_args demo_globals demo_world demo_world)
    as (Hs & _ & Hex).
  - by vm_compute.
  - by vm_compute.
  - split; [|exact Hex].
    destruct (Hs ltac:(by vm_compute)) as (_ & Hb & _). exact Hb.
Defined.

Lemma C10_zero_divisors_witness :
  (∀ w', script demo_cwd demo_args_no_header demo_world ≠ (0, w'))
  ∧ ∃ w1, generate_project_try demo_cwd
            (mkGlobals "/bin/cc" 4 0 2 "BigProject_4_0" 2 0
               ["/"; "work"]
               ["/"; "work"; "BigProject_4_0"]
               ["/"; "work"; "BigProject_4_0"; "sources"]
               ["/"; "work"; "BigProject_4_0"; "includes"]) demo_world
          = (Raise ZeroDivisionError, w1).
Proof.
  destruct (C10_zero_divisors demo_cwd demo_args_no_header demo_world)
    as (_ & H & _).
  destruct H as (G & HG & _ & _ & _ & Htot & Hnever).
  - reflexivity.
  - by vm_compute.
  - by vm_compute.
  - split; [exact Hnever|].
    vm_compute in HG. injection HG as <-.
    apply Htot.
    + reflexivity.
    + reflexivity.
    + apply fs_closedb_spec. by vm_compute.
    + by vm_compute.
    + intros d. by vm_compute.
Defined.

(** * The further properties on the sample inputs *)




Lemma X3_console_output_witness :
  stdout (snd (script demo_cwd demo_args demo_world))
  = ["Generating project at /work/BigProject_4_2"].
Proof.
  destruct (X3_console_output demo_cwd demo_args demo_world 0
              (snd (script demo_cwd demo_args demo_world)))
    as [(Hd & _)|(G & HG & [(_ & Hst & _)|(_ & _ & Hout)])].
  - apply exit_status_0. by vm_compute.
  - by vm_compute in Hd.
  - by vm_compute in Hst.
  - vm_compute in HG. injection HG as <-. exact Hout.
Defined.

Lemma X4_target_is_file_witness :
  ∃ w', script demo_cwd demo_args demo_world_blocked = (1, w')
        ∧ fs w' = fs demo_world_blocked.
Proof.
  apply (X4_target_is_file demo_cwd demo_args demo_globals demo_world_blocked
           "notes").
  - by vm_compute.
  - exists "ELF". by vm_compute.
  - by vm_compute.
Defined.

Lemma X5_empty_project_witness :
  ∃ G, module_level demo_cwd demo_args_empty demo_world = (Ok G, demo_world) ∧
    ∀ q n, absolute demo_cwd (PROJECT_DIR G) `prefix_of` q →
      fs (snd (script demo_cwd demo_args_empty demo_world)) !! q = Some n ↔
        (q = absolute demo_cwd (PROJECT_DIR G) ∧ n = Dir)
        ∨ (q = absolute demo_cwd (PROJECT_DIR G) ++ ["sources"] ∧ n = Dir)
        ∨ (q = absolute demo_cwd (PROJECT_DIR G) ++ ["includes"] ∧ n = Dir)
        ∨ (q = absolute demo_cwd (PROJECT_DIR G) ++ ["compile_commands.json"]
           ∧ n = File "[]").
Proof.
  apply (X5_empty_project demo_cwd demo_args_empty demo_world).
  - by vm_compute.
  - by vm_compute.
  - reflexivity.
  - apply fs_closedb_spec. by vm_compute.
  - apply exit_status_0. by vm_compute.
Defined.

Lemma X6_bucket_contents_witness :
  ∃ G,
    size (files_under (fs (snd (script demo_cwd demo_args demo_world)))
            (absolute demo_cwd (PROJECT_DIR G) ++ ["sources"; "subdir_1"]))
    = 2%nat.
Proof.
  destruct (X6_bucket_contents demo_cwd demo_args demo_world
              (snd (script demo_cwd demo_args demo_world)))
    as (G & _ & Hsrc & _).
  - by vm_compute.
  - reflexivity.
  - apply fs_closedb_spec. by vm_compute.
  - apply exit_status_0. by vm_compute.
  - exists G.
    destruct (Hsrc ltac:(by vm_compute) 1 ltac:(by vm_compute)) as (_ & Hsize & _).
    exact Hsize.
Defined.

Lemma X7_included_header_location_witness :
  ∃ G rest,
    get_source_template G 3 = Ok ("#include <file_" +:+ str 1 +:+ ".h>" +:+ rest)
    ∧ ∀ k, is_Some (fs (snd (script demo_cwd demo_args demo_world))
                      !! (absolute demo_cwd (PROJECT_DIR G)
                          ++ ["includes"; "subdir_" +:+ str k;
                              "file_" +:+ str 1 +:+ ".h"]))
           ↔ 1 ≤ headers demo_args ∧ k = 1 / HEADERS_PER_DIR G.
Proof.
  destruct (X7_included_header_location demo_cwd demo_args demo_world
              (snd (script demo_cwd demo_args demo_world)) 3)
    as (G & rest & _ & Htext & Hloc).
  - reflexivity.
  - apply fs_closedb_spec. by vm_compute.
  - apply exit_status_0. by vm_compute.
  - by vm_compute.
  - exists G, rest. split; [exact Htext|exact Hloc].
Defined.

Lemma X8_project_directory_witness :
  PROJECT_NAME demo_globals = "BigProject_" +:+ str 4 +:+ "_" +:+ str 2
  ∧ PROJECT_DIR demo_globals = ROOT_DIR demo_globals ++ [PROJECT_NAME demo_globals].
Proof.
  destruct (X8_project_directory demo_cwd demo_args demo_globals demo_world)
    as (_ & Hdef & _).
  - by vm_compute.
  - destruct (Hdef (or_introl eq_refl)) as (Hname & Hdir & _).
    split; [exact Hname|exact Hdir].
Defined.

Lemma X9_compiler_quoting_witness :
  ∃ command rest,
    command
    = of_chars [dquote] +:+ "/opt/my tools/cc" +:+ of_chars [dquote]
      +:+ spaced rest
    ∧ head rest = Some "-c".
Proof.
  destruct (X9_compiler_quoting demo_cwd demo_args_spaced
              (mkWorld demo_fs_spaced [] [])
              (snd (script demo_cwd demo_args_spaced
                      (mkWorld demo_fs_spaced [] []))) 0)
    as (G & entries & directory & command & file & rest & _ & _ & _ & Hc & Hr).
  - apply exit_status_0. by vm_compute.
  - by vm_compute.
  - apply no_char_spec. reflexivity.
  - by vm_compute.
  - exists command, rest. split; [exact Hc|exact Hr].
Defined.


Lemma X11_header_coverage_witness :
  (∃ i, 0 ≤ i < sources demo_args
        ∧ ∃ rest, get_source_template demo_globals i
                  = Ok ("#include <file_" +:+ str 1 +:+ ".h>" +:+ rest))
  ↔ 1 < sources demo_args.
Proof.
  destruct (X11_header_coverage demo_cwd demo_args demo_globals demo_world 1)
    as [_ H].
  - by vm_compute.
  - by vm_compute.
  - by vm_compute.
  - exact H.
Defined.

Lemma X12_include_order_irrelevant_witness :
  generate_compile_commands demo_cwd demo_globals [] [["b"]; ["a"]]
  = generate_compile_commands demo_cwd demo_globals [] [["a"]; ["b"]].
Proof.
  apply (X12_include_order_irrelevant demo_cwd demo_globals []
           [["b"]; ["a"]] [["a"]; ["b"]]).
  apply perm_swap.
Defined.

Lemma X13_database_paths_resolve_witness :
  ∃ G directory file text,
    path_div (path_of_string directory) file
    = absolute demo_cwd (PROJECT_DIR G)
      ++ ["sources"; "subdir_" +:+ str (3 / SOURCES_PER_DIR G);
          "file_" +:+ str 3 +:+ ".cpp"]
    ∧ fs (snd (script demo_cwd demo_args demo_world))
        !! path_div (path_of_string directory) file = Some (File text).
Proof.
  destruct (X13_database_paths_resolve demo_cwd demo_args demo_world
              (snd (script demo_cwd demo_args demo_world)) 3)
    as (G & entries & directory & command & file & text
        & _ & _ & _ & _ & Hjoin & Hfile).
  - apply Forall_cons_2; [|constructor].
    split; [by apply no_char_spec|done].
  - apply exit_status_0. by vm_compute.
  - by vm_compute.
  - exists G, directory, file, text. split; [exact Hjoin|exact Hfile].
Defined.


Lemma X15_nothing_else_in_project_witness :
  ∃ G, ∀ x,
    fs (snd (script demo_cwd demo_args_cl demo_world))
      !! (absolute demo_cwd (PROJECT_DIR G) ++ "obj" :: x) = None.
Proof.
  destruct (X15_nothing_else_in_project demo_cwd demo_args_cl demo_world
              (snd (script demo_cwd demo_args_cl demo_world)))
    as (G & entries & _ & _ & Hobj).
  - reflexivity.
  - apply fs_closedb_spec. by vm_compute.
  - apply exit_status_0. by vm_compute.
  - exists G. exact Hobj.
Defined.
